(* ====================================================================== *)
(*  work_log_view: the aggregation pipeline of src/aggregator.ts           *)
(*                                                                        *)
(*    parseCsv          : text    -> CsvEntry[]   (sorted by timestamp)    *)
(*    aggregateToBlocks : entries -> AggregatedBlock[]                     *)
(*    groupBlocksByWeek : blocks  -> WeekData[]                            *)
(*                                                                        *)
(*  Conventions of the embedding.                                         *)
(*   - A valid Date is its time value, the integer number of milliseconds  *)
(*     since the epoch (what getTime() returns), a Z.  Invalid dates and   *)
(*     the range limit of time values (TimeClip) are not modelled.         *)
(*   - A JavaScript number is an exact rational (Q) or NaN; the rounding   *)
(*     of IEEE doubles and the infinities are not modelled.                *)
(*   - A string is a String.string: a sequence of code units below 256.    *)
(*   - A plain object used as a dictionary is the list of its own          *)
(*     properties in order of creation, read and written through           *)
(*     Object.prototype, and enumerated as ECMAScript prescribes.          *)
(*   - A Map is the list of its entries in order of insertion.             *)
(*   - The local time zone, new Date(string) and Number(string) belong to  *)
(*     the host: they are parameters.                                      *)
(* ====================================================================== *)

From Stdlib Require Import ZArith QArith List String Ascii Bool Lia.
From Stdlib Require Import Sorted Permutation.
Import ListNotations.

Local Open Scope string_scope.
Local Open Scope list_scope.
Local Open Scope Z_scope.

(* ---------------------------------------------------------------------- *)
(** * Stable sorting: Array.prototype.sort with a numeric key comparator    *)
(* ---------------------------------------------------------------------- *)

(** [xs.sort((a, b) => key(a) - key(b))].  ECMAScript requires the sort to
    be stable, which fixes the result uniquely for a comparator that
    subtracts integer keys: it is the one computed by this insertion sort,
    which never moves an element past another one with the same key. *)
Section StableSort.
Context {A : Type} (key : A -> Z).

Fixpoint insert_by (x : A) (l : list A) : list A :=
  match l with
  | [] => [x]
  | y :: l' => if key x <=? key y then x :: l else y :: insert_by x l'
  end.

Definition sort_by (l : list A) : list A := fold_right insert_by [] l.

Definition key_le (x y : A) : Prop := key x <= key y.
End StableSort.

(* ---------------------------------------------------------------------- *)
(** * The fragment of JavaScript the aggregator runs on                     *)
(* ---------------------------------------------------------------------- *)

Module JS.

(** The values that can appear in [activityMap] and in the duration
    fields.  [Str] is a non-empty string: it only arises from string
    concatenation with the text of an inherited object, whose characters
    are implementation-defined and not tracked.  [Obj] is an object or
    function inherited from Object.prototype. *)
Inductive value : Type :=
| Undefined
| NaN
| Num (q : Q)
| Str
| Obj.

(** ToBoolean. *)
Definition truthy (v : value) : bool :=
  match v with
  | Undefined | NaN => false
  | Num q => negb (Qeq_bool q 0)
  | Str | Obj => true
  end.

(** [a || b]. *)
Definition or_else (a b : value) : value := if truthy a then a else b.

(** [a + b]: numeric addition on numbers, string concatenation as soon
    as one operand is a string or an object. *)
Definition add (a b : value) : value :=
  match a, b with
  | Num x, Num y => Num (x + y)
  | (Str | Obj), _ | _, (Str | Obj) => Str
  | _, _ => NaN
  end.

(** Own properties of an ordinary object, oldest first. *)
Definition object : Type := list (string * value).

Definition empty : object := [].

Fixpoint own (o : object) (k : string) : option value :=
  match o with
  | [] => None
  | (k', v) :: o' => if String.eqb k k' then Some v else own o' k
  end.

(** The data properties of Object.prototype (all writable methods), and
    its one accessor property. *)
Definition prototype_methods : list string :=
  [ "constructor"; "hasOwnProperty"; "isPrototypeOf";
    "propertyIsEnumerable"; "toLocaleString"; "toString"; "valueOf";
    "__defineGetter__"; "__defineSetter__";
    "__lookupGetter__"; "__lookupSetter__" ].

Definition proto_accessor : string := "__proto__".

Definition is_method (k : string) : bool :=
  existsb (String.eqb k) prototype_methods.

Definition inherited (k : string) : bool :=
  String.eqb k proto_accessor || is_method k.

(** [o[k]]: the own property, else what Object.prototype provides. *)
Definition get (o : object) (k : string) : value :=
  match own o k with
  | Some v => v
  | None => if inherited k then Obj else Undefined
  end.

Fixpoint replace (o : object) (k : string) (v : value) : object :=
  match o with
  | [] => []
  | (k', v') :: o' =>
      if String.eqb k k' then (k', v) :: o' else (k', v') :: replace o' k v
  end.

(** [o[k] = v] for a primitive [v].  Writing "__proto__" calls the setter
    of Object.prototype, which ignores a value that is neither an object
    nor null; any other key updates the own property or creates it. *)
Definition set (o : object) (k : string) (v : value) : object :=
  if String.eqb k proto_accessor then o
  else match own o k with
       | Some _ => replace o k v
       | None => o ++ [(k, v)]
       end.

(** Array indices: the canonical decimal numerals of 0 .. 2^32 - 2. *)
Definition digit (c : ascii) : option N :=
  let n := N_of_ascii c in
  if ((48 <=? n) && (n <=? 57))%N then Some (n - 48)%N else None.

Fixpoint digits (s : string) (acc : N) : option N :=
  match s with
  | EmptyString => Some acc
  | String c s' =>
      match digit c with
      | Some d => digits s' (10 * acc + d)%N
      | None => None
      end
  end.

Definition array_index (k : string) : option N :=
  match k with
  | EmptyString => None
  | String c rest =>
      if Ascii.eqb c "0"%char
      then match rest with EmptyString => Some 0%N | _ => None end
      else match digits k 0 with
           | Some n => if (n <? 4294967295)%N then Some n else None
           | None => None
           end
  end.

Definition is_index (k : string) : bool :=
  match array_index k with Some _ => true | None => false end.

Definition index_key (k : string) : Z :=
  match array_index k with Some n => Z.of_N n | None => 0 end.

(** OrdinaryOwnPropertyKeys: array indices in ascending numeric order,
    then the other string keys in order of creation. *)
Definition entries (o : object) : list (string * value) :=
  sort_by (fun p => index_key (fst p)) (filter (fun p => is_index (fst p)) o)
  ++ filter (fun p => negb (is_index (fst p))) o.

Definition keys (o : object) : list string := map fst (entries o).
Definition values (o : object) : list value := map snd (entries o).

End JS.

(* ---------------------------------------------------------------------- *)
(** * Data model                                                           *)
(* ---------------------------------------------------------------------- *)

Record CsvEntry : Type := {
  timestamp : Z;
  appName : string;
  title : string;
  value1 : JS.value;
  value2 : JS.value
}.

Record AggregatedActivity : Type := {
  activity_title : string;
  durationSec : JS.value
}.

Record AggregatedBlock : Type := {
  from : Z;
  to : Z;
  totalDurationSec : JS.value;
  activities : list AggregatedActivity
}.

(* ---------------------------------------------------------------------- *)
(** * aggregateToBlocks                                                    *)
(* ---------------------------------------------------------------------- *)

(** [(next.timestamp.getTime() - current.timestamp.getTime()) / 1000]. *)
Definition gapSec (current next : CsvEntry) : Q :=
  Qmake (timestamp next - timestamp current) 1000.

(** [activityMap[t] = (activityMap[t] || 0) + gapSec]. *)
Definition accumulate (activityMap : JS.object) (t : string) (gap : Q)
  : JS.object :=
  JS.set activityMap t
    (JS.add (JS.or_else (JS.get activityMap t) (JS.Num 0)) (JS.Num gap)).

(** The variables of the loop. *)
Record scan : Type := {
  blocks_so_far : list AggregatedBlock;
  blockStart : Z;
  blockEnd : Z;
  activityMap : JS.object
}.

(** The object literal pushed onto [blocks], with [totalDuration]. *)
Definition make_block (start stop : Z) (m : JS.object) : AggregatedBlock :=
  {| from := start;
     to := stop;
     totalDurationSec :=
       fold_left (fun sum d => JS.add sum d) (JS.values m) (JS.Num 0);
     activities :=
       map (fun p => {| activity_title := fst p; durationSec := snd p |})
           (JS.entries m) |}.

Definition close (s : scan) : AggregatedBlock :=
  make_block (blockStart s) (blockEnd s) (activityMap s).

(** One iteration of the loop on the pair [(current, next)]. *)
Definition step (ignoreIdleTimeUpToSec : Q) (s : scan)
    (current next : CsvEntry) : scan :=
  if Qle_bool (gapSec current next) ignoreIdleTimeUpToSec
  then {| blocks_so_far := blocks_so_far s;
          blockStart := blockStart s;
          blockEnd := timestamp next;
          activityMap :=
            accumulate (activityMap s) (title current) (gapSec current next) |}
  else {| blocks_so_far := blocks_so_far s ++ [close s];
          blockStart := timestamp next;
          blockEnd := timestamp next;
          activityMap := JS.empty |}.

(** The loop over [i = 0 .. length - 2], [current] being [entries[i]] and
    [rest] the entries after it. *)
Fixpoint loop (threshold : Q) (s : scan) (current : CsvEntry)
    (rest : list CsvEntry) : scan :=
  match rest with
  | [] => s
  | next :: rest' => loop threshold (step threshold s current next) next rest'
  end.

Definition start (first : CsvEntry) : scan :=
  {| blocks_so_far := [];
     blockStart := timestamp first;
     blockEnd := timestamp first;
     activityMap := JS.empty |}.

(** The loop variables when the loop ends; no loop runs on no entries. *)
Definition scan_of (threshold : Q) (entries : list CsvEntry) : option scan :=
  match entries with
  | [] => None
  | first :: rest => Some (loop threshold (start first) first rest)
  end.

Definition aggregateToBlocks (entries : list CsvEntry)
    (ignoreIdleTimeUpToSec : Q) : list AggregatedBlock :=
  match scan_of ignoreIdleTimeUpToSec entries with
  | None => []
  | Some s => blocks_so_far s ++ [close s]
  end.

(** What the function returns when the loop ends in [s]. *)
Definition output (s : scan) : list AggregatedBlock :=
  blocks_so_far s ++ [close s].

(** The block emitted for a record that was merged with no other. *)
Definition lone_block (e : CsvEntry) : AggregatedBlock :=
  {| from := timestamp e;
     to := timestamp e;
     totalDurationSec := JS.Num 0;
     activities := [] |}.

(** The records are sorted by time, non-decreasing. *)
Definition chronological (entries : list CsvEntry) : Prop :=
  Sorted (fun a b => timestamp a <= timestamp b) entries.

(* ---------------------------------------------------------------------- *)
(** * Runs: the records one block is made of                               *)
(* ---------------------------------------------------------------------- *)

(** A run is a record with the records that follow it at gaps within the
    threshold.  [runs_from t c rest] cuts [c :: rest] where a gap exceeds
    [t]: the records after [c] in its run, then the later runs. *)
Definition run : Type := (CsvEntry * list CsvEntry)%type.

Fixpoint runs_from (threshold : Q) (current : CsvEntry)
    (rest : list CsvEntry) : list CsvEntry * list run :=
  match rest with
  | [] => ([], [])
  | next :: rest' =>
      let (r, rs) := runs_from threshold next rest' in
      if Qle_bool (gapSec current next) threshold
      then (next :: r, rs)
      else ([], (next, r) :: rs)
  end.

Definition runs (threshold : Q) (entries : list CsvEntry) : list run :=
  match entries with
  | [] => []
  | first :: rest =>
      let (r, rs) := runs_from threshold first rest in (first, r) :: rs
  end.

(** The per-title map after the gaps of a run are added to [m]. *)
Fixpoint absorb (m : JS.object) (current : CsvEntry)
    (rest : list CsvEntry) : JS.object :=
  match rest with
  | [] => m
  | next :: rest' =>
      absorb (accumulate m (title current) (gapSec current next)) next rest'
  end.

Definition block_of_run (r : run) : AggregatedBlock :=
  make_block (timestamp (fst r)) (timestamp (last (snd r) (fst r)))
             (absorb JS.empty (fst r) (snd r)).

(** The gaps of a run, each with the title it is attributed to. *)
Fixpoint gaps_of (current : CsvEntry) (rest : list CsvEntry)
  : list (string * Q) :=
  match rest with
  | [] => []
  | next :: rest' =>
      (title current, gapSec current next) :: gaps_of next rest'
  end.

Definition sumQ (l : list Q) : Q := fold_right Qplus 0%Q l.

(** The titles the gaps of a run are attributed to: those of its records
    but the last, in order. *)
Definition attributed (r : run) : list string :=
  map fst (gaps_of (fst r) (snd r)).

Definition absorbed_gaps (r : run) : list Q :=
  map snd (gaps_of (fst r) (snd r)).

(** The titles of a list in the order of their first occurrence. *)
Definition note (seen : list string) (t : string) : list string :=
  if existsb (String.eqb t) seen then seen else seen ++ [t].

Definition first_occurrences (l : list string) : list string :=
  fold_left note l [].

Definition titles_of (b : AggregatedBlock) : list string :=
  map activity_title (activities b).

(** The activities of a block list the titles of its run in the order in
    which they first occur. *)
Definition insertion_ordered (b : AggregatedBlock) (r : run) : Prop :=
  titles_of b = first_occurrences (attributed r).

(** The numbers stored in an object. *)
Definition number_of (v : JS.value) : Q :=
  match v with JS.Num q => q | _ => 0%Q end.

Definition is_number (v : JS.value) : Prop := exists q, v = JS.Num q.

(** The sum of a list of JavaScript values as [reduce] computes it. *)
Definition js_sum (l : list JS.value) : JS.value :=
  fold_left JS.add l (JS.Num 0).

(** Consecutive blocks lie more than the threshold apart, the first one
    after [previous_to], and each ends no earlier than it starts. *)
Fixpoint separated (threshold : Q) (previous_to : Z)
    (bs : list AggregatedBlock) : Prop :=
  match bs with
  | [] => True
  | b :: bs' =>
      (threshold < Qmake (from b - previous_to) 1000)%Q
      /\ from b <= to b
      /\ separated threshold (to b) bs'
  end.

(** Every stored value is a number; the sum of the stored numbers. *)
Definition numeric (o : JS.object) : Prop :=
  Forall (fun p => is_number (snd p)) o.

Definition total (o : JS.object) : Q :=
  sumQ (map (fun p => number_of (snd p)) o).


(* ---------------------------------------------------------------------- *)
(** * Dates: the time-value arithmetic of ECMAScript                       *)
(* ---------------------------------------------------------------------- *)

Module Date.

Definition msPerDay : Z := 86400000.

Definition Day (t : Z) : Z := t / msPerDay.
Definition TimeWithinDay (t : Z) : Z := t mod msPerDay.

Definition DaysInYear (y : Z) : Z :=
  if negb (y mod 4 =? 0) then 365
  else if negb (y mod 100 =? 0) then 366
  else if negb (y mod 400 =? 0) then 365
  else 366.

Definition DayFromYear (y : Z) : Z :=
  365 * (y - 1970) + (y - 1969) / 4 - (y - 1901) / 100 + (y - 1601) / 400.

(** The largest [y] with [DayFromYear y <= Day t], found next to the
    estimate given by the mean length of a year. *)
Definition YearFromTime (t : Z) : Z :=
  let d := Day t in
  let y := 1970 + (400 * d) / 146097 in
  if DayFromYear (y + 1) <=? d then y + 1
  else if DayFromYear y <=? d then y
  else y - 1.

Definition leap_day (y : Z) : Z := DaysInYear y - 365.

Definition DayWithinYear (t : Z) : Z := Day t - DayFromYear (YearFromTime t).

(** The day of the year on which month [m] (0 .. 11) begins. *)
Definition month_start (m leap : Z) : Z :=
  if m =? 0 then 0
  else if m =? 1 then 31
  else if m =? 2 then 59 + leap
  else if m =? 3 then 90 + leap
  else if m =? 4 then 120 + leap
  else if m =? 5 then 151 + leap
  else if m =? 6 then 181 + leap
  else if m =? 7 then 212 + leap
  else if m =? 8 then 243 + leap
  else if m =? 9 then 273 + leap
  else if m =? 10 then 304 + leap
  else 334 + leap.

Definition MonthFromTime (t : Z) : Z :=
  let d := DayWithinYear t in
  let leap := leap_day (YearFromTime t) in
  if d <? 31 then 0
  else if d <? 59 + leap then 1
  else if d <? 90 + leap then 2
  else if d <? 120 + leap then 3
  else if d <? 151 + leap then 4
  else if d <? 181 + leap then 5
  else if d <? 212 + leap then 6
  else if d <? 243 + leap then 7
  else if d <? 273 + leap then 8
  else if d <? 304 + leap then 9
  else if d <? 334 + leap then 10
  else 11.

Definition DateFromTime (t : Z) : Z :=
  DayWithinYear t
  - month_start (MonthFromTime t) (leap_day (YearFromTime t)) + 1.

Definition WeekDay (t : Z) : Z := (Day t + 4) mod 7.

Definition MakeTime (hour min sec ms : Z) : Z :=
  hour * 3600000 + min * 60000 + sec * 1000 + ms.

Definition MakeDay (year month date : Z) : Z :=
  let ym := year + month / 12 in
  let mn := month mod 12 in
  DayFromYear ym + month_start mn (leap_day ym) + date - 1.

Definition MakeDate (day time : Z) : Z := day * msPerDay + time.

(** The methods of Date that the grouper calls, on time values, in a local
    time zone given by its offset [LocalTZA t isUTC] in milliseconds: the
    offset at the UTC time [t] when [isUTC], at the local time [t] when
    not. *)
Section LocalZone.
Variable LocalTZA : Z -> bool -> Z.

Definition LocalTime (t : Z) : Z := t + LocalTZA t true.
Definition UTC (t : Z) : Z := t - LocalTZA t false.

Definition getDay (tv : Z) : Z := WeekDay (LocalTime tv).
Definition getDate (tv : Z) : Z := DateFromTime (LocalTime tv).

Definition setDate (tv date : Z) : Z :=
  let t := LocalTime tv in
  UTC (MakeDate (MakeDay (YearFromTime t) (MonthFromTime t) date)
                (TimeWithinDay t)).

Definition setHours (tv hour min sec ms : Z) : Z :=
  let t := LocalTime tv in
  UTC (MakeDate (Day t) (MakeTime hour min sec ms)).

(** The local calendar day of an instant, as a day number. *)
Definition local_day (tv : Z) : Z := Day (LocalTime tv).

(** Local midnight of the local day number [d]. *)
Definition midnight (d : Z) : Z := UTC (MakeDate d 0).
End LocalZone.

End Date.

(* ---------------------------------------------------------------------- *)
(** * Map: keys in insertion order                                         *)
(* ---------------------------------------------------------------------- *)

(** A [Map] whose keys are the ISO strings of dates.  [toISOString] is
    one-to-one on time values, so a key is modelled by the time value it
    prints.  The entries are kept in order of insertion. *)
Section InsertionOrderedMap.
Context {V : Type}.

Definition Map : Type := list (Z * V).

Fixpoint Map_get (m : Map) (k : Z) : option V :=
  match m with
  | [] => None
  | (k', v) :: m' => if k =? k' then Some v else Map_get m' k
  end.

Fixpoint Map_set (m : Map) (k : Z) (v : V) : Map :=
  match m with
  | [] => [(k, v)]
  | (k', v') :: m' =>
      if k =? k' then (k', v) :: m' else (k', v') :: Map_set m' k v
  end.

Definition Map_values (m : Map) : list V := map snd m.
End InsertionOrderedMap.

Arguments Map V : clear implicits.

(** The shape shared by the two loops of the grouper: look the key of the
    item up, take the group found or a fresh one, add the item to it and
    store the group under the key. *)
Section Grouping.
Context {A V : Type} (key : A -> Z) (fresh : A -> V) (push : V -> A -> V).

Definition group_step (m : Map V) (a : A) : Map V :=
  Map_set m (key a)
    (push (match Map_get m (key a) with Some v => v | None => fresh a end) a).
End Grouping.

(* ---------------------------------------------------------------------- *)
(** * groupBlocksByWeek                                                    *)
(* ---------------------------------------------------------------------- *)

Record DayData : Type := {
  date : Z;
  blocks : list AggregatedBlock;
  day_totalDurationSec : JS.value
}.

Record WeekData : Type := {
  weekStart : Z;
  days : list DayData;
  week_totalDurationSec : JS.value
}.

Section Grouper.
Variable LocalTZA : Z -> bool -> Z.

Definition getMonday (date : Z) : Z :=
  let d := date in
  let day := Date.getDay LocalTZA d in
  let diff := (if day =? 0 then -6 else 1) - day in
  let d := Date.setDate LocalTZA d (Date.getDate LocalTZA d + diff) in
  let d := Date.setHours LocalTZA d 0 0 0 0 in
  d.

(** The key of a block: midnight of the day of [block.from]. *)
Definition day_of (block : AggregatedBlock) : Z :=
  Date.setHours LocalTZA (from block) 0 0 0 0.

(** One iteration of the loop over the blocks.  [dayData] is the object
    held by the map, or the fresh one; pushing onto its [blocks] and adding
    to its total change that object, which [set] stores under its key. *)
Definition add_block (dayMap : Map DayData) (block : AggregatedBlock)
  : Map DayData :=
  let d := day_of block in
  let dayKey := d in
  let dayData :=
    match Map_get dayMap dayKey with
    | Some found => found
    | None => {| date := d; blocks := []; day_totalDurationSec := JS.Num 0 |}
    end in
  Map_set dayMap dayKey
    {| date := date dayData;
       blocks := blocks dayData ++ [block];
       day_totalDurationSec :=
         JS.add (day_totalDurationSec dayData) (totalDurationSec block) |}.

Definition group_by_day (bs : list AggregatedBlock) : list DayData :=
  Map_values (fold_left add_block bs []).

Definition week_of (day : DayData) : Z := getMonday (date day).

(** One iteration of the loop over the days. *)
Definition add_day (weekMap : Map WeekData) (day : DayData) : Map WeekData :=
  let monday := week_of day in
  let weekKey := monday in
  let weekData :=
    match Map_get weekMap weekKey with
    | Some found => found
    | None =>
        {| weekStart := monday; days := []; week_totalDurationSec := JS.Num 0 |}
    end in
  Map_set weekMap weekKey
    {| weekStart := weekStart weekData;
       days := days weekData ++ [day];
       week_totalDurationSec :=
         JS.add (week_totalDurationSec weekData) (day_totalDurationSec day) |}.

Definition group_by_week (ds : list DayData) : list WeekData :=
  Map_values (fold_left add_day ds []).

Definition groupBlocksByWeek (bs : list AggregatedBlock) : list WeekData :=
  sort_by weekStart (group_by_week (group_by_day bs)).
End Grouper.

(** The two loops as instances of [group_step]. *)
Definition fresh_day (LocalTZA : Z -> bool -> Z) (block : AggregatedBlock)
  : DayData :=
  {| date := day_of LocalTZA block; blocks := [];
     day_totalDurationSec := JS.Num 0 |}.

Definition push_block (dayData : DayData) (block : AggregatedBlock)
  : DayData :=
  {| date := date dayData;
     blocks := blocks dayData ++ [block];
     day_totalDurationSec :=
       JS.add (day_totalDurationSec dayData) (totalDurationSec block) |}.

Definition fresh_week (LocalTZA : Z -> bool -> Z) (day : DayData)
  : WeekData :=
  {| weekStart := week_of LocalTZA day; days := [];
     week_totalDurationSec := JS.Num 0 |}.

Definition push_day (weekData : WeekData) (day : DayData) : WeekData :=
  {| weekStart := weekStart weekData;
     days := days weekData ++ [day];
     week_totalDurationSec :=
       JS.add (week_totalDurationSec weekData) (day_totalDurationSec day) |}.

(** A day holds its key as date, and the sum of its blocks' totals. *)
Definition day_ok (k : Z) (d : DayData) : Prop :=
  date d = k
  /\ day_totalDurationSec d
     = fold_left JS.add (map totalDurationSec (blocks d)) (JS.Num 0).

Definition week_ok (k : Z) (w : WeekData) : Prop :=
  weekStart w = k
  /\ week_totalDurationSec w
     = fold_left JS.add (map day_totalDurationSec (days w)) (JS.Num 0).

(* ---------------------------------------------------------------------- *)
(** * parseCsv                                                             *)
(* ---------------------------------------------------------------------- *)

Definition LF : ascii := "010"%char.
Definition CR : ascii := "013"%char.
Definition comma : ascii := ","%char.

(** The first line gets one more character in front. *)
Definition push_front (c : ascii) (pieces : list string) : list string :=
  match pieces with
  | [] => [String c EmptyString]
  | p :: ps => String c p :: ps
  end.

(** [s.split(/\r?\n/)]: cut at every line feed, together with a carriage
    return just before it. *)
Fixpoint split_lines (s : string) : list string :=
  match s with
  | EmptyString => [EmptyString]
  | String c s' =>
      if Ascii.eqb c LF then EmptyString :: split_lines s'
      else if Ascii.eqb c CR then
        match s' with
        | String c' s'' =>
            if Ascii.eqb c' LF then EmptyString :: split_lines s''
            else push_front c (split_lines s')
        | EmptyString => push_front c (split_lines s')
        end
      else push_front c (split_lines s')
  end.

(** [s.split(',')]. *)
Fixpoint split_commas (s : string) : list string :=
  match s with
  | EmptyString => [EmptyString]
  | String c s' =>
      if Ascii.eqb c comma then EmptyString :: split_commas s'
      else push_front c (split_commas s')
  end.

(** White space and line terminators among the code units below 256:
    TAB, LF, VT, FF, CR, SPACE and NO-BREAK SPACE. *)
Definition is_space (c : ascii) : bool :=
  let n := N_of_ascii c in
  ((9 <=? n) && (n <=? 13) || (n =? 32) || (n =? 160))%N.

Fixpoint trim_start (s : string) : string :=
  match s with
  | EmptyString => EmptyString
  | String c s' => if is_space c then trim_start s' else s
  end.

Fixpoint trim_end (s : string) : string :=
  match s with
  | EmptyString => EmptyString
  | String c s' =>
      match trim_end s' with
      | EmptyString => if is_space c then EmptyString else String c EmptyString
      | rest => String c rest
      end
  end.

Definition trim (s : string) : string := trim_end (trim_start s).

Definition is_empty (s : string) : bool :=
  match s with EmptyString => true | _ => false end.

Section Parser.
(** What the host computes: [parseDate s] is the time value of
    [new Date(s)], [None] when it is NaN; [Number s] is [Number(s)]. *)
Variable parseDate : string -> option Z.
Variable Number : string -> JS.value.

(** The body of the loop for one line: the record pushed, if any.  None of
    the operations in the [try] block throws on strings, so the [catch]
    clause is never entered. *)
Definition parse_line (line : string) : option CsvEntry :=
  let parts := split_commas line in
  if (List.length parts <? 3)%nat then None
  else
    match parseDate (trim (nth 0 parts "")) with
    | None => None
    | Some timestamp =>
        let appName := trim (nth 1 parts "") in
        let title := trim (nth 2 parts "") in
        let value1 :=
          if (3 <? List.length parts)%nat
          then Number (trim (nth 3 parts "")) else JS.NaN in
        let value2 :=
          if (4 <? List.length parts)%nat
          then Number (trim (nth 4 parts "")) else JS.NaN in
        Some {| timestamp := timestamp; appName := appName; title := title;
                value1 := value1; value2 := value2 |}
    end.

(** [csvText.split(/\r?\n/).filter(line => line.trim() !== '')]. *)
Definition lines_of (csvText : string) : list string :=
  filter (fun line => negb (is_empty (trim line))) (split_lines csvText).

(** The array [entries] when the loop over [lines] ends. *)
Fixpoint entries_of (lines : list string) : list CsvEntry :=
  match lines with
  | [] => []
  | line :: lines' =>
      match parse_line line with
      | Some entry => entry :: entries_of lines'
      | None => entries_of lines'
      end
  end.

Definition parseCsv (csvText : string) : list CsvEntry :=
  sort_by timestamp (entries_of (lines_of csvText)).
End Parser.

(** The string holds neither a line feed nor a carriage return. *)
Fixpoint no_line_break (s : string) : bool :=
  match s with
  | EmptyString => true
  | String c s' => negb (Ascii.eqb c LF) && negb (Ascii.eqb c CR)
                   && no_line_break s'
  end.

(* ---------------------------------------------------------------------- *)
(** * Inputs for the examples                                              *)
(* ---------------------------------------------------------------------- *)

(** A record of the application "App" with no metrics. *)
Definition entry_at (t : Z) (name : string) : CsvEntry :=
  {| timestamp := t; appName := "App"; title := name;
     value1 := JS.NaN; value2 := JS.NaN |}.

(** A zone one hour ahead of UTC all year. *)
Definition one_hour_east : Z -> bool -> Z := fun _ _ => 3600000.

(** Monday 2024-01-01, 00:00 in that zone. *)
Definition monday_1_jan : Z := 1704063600000.

Definition hours (h : Z) : Z := h * 3600000.
Definition on_day (n : Z) (time : Z) : Z :=
  monday_1_jan + n * Date.msPerDay + time.

Definition block_at (start stop : Z) : AggregatedBlock :=
  {| from := start; to := stop;
     totalDurationSec := JS.Num (Qmake (stop - start) 1000);
     activities := [] |}.

(** Monday morning; Monday 23:00 to Tuesday 01:00; Monday afternoon (out
    of order); the Sunday of that week; the Monday after. *)
Definition sample_blocks : list AggregatedBlock :=
  [ block_at (on_day 0 (hours 9)) (on_day 0 (hours 10));
    block_at (on_day 0 (hours 23)) (on_day 1 (hours 1));
    block_at (on_day 6 (hours 9)) (on_day 6 (hours 12));
    block_at (on_day 0 (hours 14)) (on_day 0 (hours 15));
    block_at (on_day 7 (hours 8)) (on_day 7 (hours 9)) ].

(** A host that reads the timestamps "t0", "t1" and "t2" only. *)
Definition sample_parseDate (s : string) : option Z :=
  if String.eqb s "t0" then Some 0
  else if String.eqb s "t1" then Some 1000
  else if String.eqb s "t2" then Some 2000
  else None.

Definition sample_Number (s : string) : JS.value :=
  if String.eqb s "1" then JS.Num 1 else JS.NaN.

Definition newline : string := String LF EmptyString.

(* ---------------------------------------------------------------------- *)
(** * Further notions about the aggregator                                 *)
(* ---------------------------------------------------------------------- *)

(** The gaps between the consecutive records of an input. *)
Definition gaps (entries : list CsvEntry) : list (string * Q) :=
  match entries with
  | [] => []
  | first :: rest => gaps_of first rest
  end.

(** How many of them exceed the threshold. *)
Definition exceeding (threshold : Q) (gs : list (string * Q)) : nat :=
  List.length (filter (fun g => negb (Qle_bool (snd g) threshold)) gs).

(** What the aggregator reads of a record. *)
Definition time_and_title (e : CsvEntry) : Z * string :=
  (timestamp e, title e).

(** No record carries a title that Object.prototype provides. *)
Definition ordinary_titles (entries : list CsvEntry) : Prop :=
  Forall (fun e => JS.inherited (title e) = false) entries.

(** A number that is not negative. *)
Definition nonneg_number (v : JS.value) : Prop :=
  exists q, v = JS.Num q /\ (0 <= q)%Q.

(** A block that spans no time. *)
Definition instant (b : AggregatedBlock) : Prop := from b = to b.

(** Under every own key that Object.prototype does not provide the object
    holds a number. *)
Definition ordinary_numbers (o : JS.object) : Prop :=
  forall k v, JS.own o k = Some v -> JS.inherited k = false -> is_number v.

(* ---------------------------------------------------------------------- *)
(** * Further notions about the grouper                                    *)
(* ---------------------------------------------------------------------- *)

(** Weeks counted from Monday: day 0 of the epoch is a Thursday, so day -3
    is a Monday. *)
Definition week_number (day : Z) : Z := (day + 3) / 7.

Definition monday_of_week (week : Z) : Z := 7 * week - 3.

Definition numbers (vs : list JS.value) : list Q := map number_of vs.

(* ---------------------------------------------------------------------- *)
(** * Further notions about the parser                                     *)
(* ---------------------------------------------------------------------- *)

Definition line_feed : string := String LF EmptyString.
Definition carriage_return_line_feed : string :=
  String CR (String LF EmptyString).

Fixpoint no_comma (s : string) : bool :=
  match s with
  | EmptyString => true
  | String c s' => negb (Ascii.eqb c comma) && no_comma s'
  end.

(** The metric read from the field at position [i], if the row has one. *)
Definition metric (Number : string -> JS.value) (fields : list string)
    (i : nat) : JS.value :=
  match nth_error fields i with
  | Some field => Number (trim field)
  | None => JS.NaN
  end.

(* ---------------------------------------------------------------------- *)
(** * The views: what is shown of the weeks                                *)
(* ---------------------------------------------------------------------- *)

From Stdlib Require Import Qround Lqa.

(** [a % n] on numbers: the remainder has the sign of [a]. *)
Definition Qtruncate (q : Q) : Z :=
  if Qle_bool 0 q then Qfloor q else Qceiling q.

Definition js_rem (a n : Q) : Q := a - n * inject_Z (Qtruncate (a / n)).

(** [Math.round]: the nearest integer, a half going up. *)
Definition Math_round (x : Q) : Z := Qfloor (x + Qmake 1 2).

(** TimeTable.vue, [formatDuration]: the three numbers printed. *)
Definition duration_parts (sec : Q) : Z * Z * Z :=
  let h := Qfloor (sec / 3600) in
  let m := Qfloor (js_rem sec 3600 / 60) in
  let s := Qfloor (js_rem sec 60) in
  (h, m, s).

(** [formatDecimalHours], which TimeTableChart.vue calls
    [factionalTimeToString]: the hour and the minutes printed. *)
Definition decimal_hours_parts (time : Q) : Z * Z :=
  let minutes := Math_round (js_rem time 1 * 60) in
  (Qfloor time, minutes).

Section Formatting.
(** How the host prints an integral number. *)
Variable show : Z -> string.

Definition formatDuration (sec : Q) : string :=
  let '(h, m, s) := duration_parts sec in
  (show h ++ "h " ++ show m ++ "m " ++ show s ++ "s")%string.

Definition formatDecimalHours (time : Q) : string :=
  let '(hour, minutes) := decimal_hours_parts time in
  (show hour ++ ":" ++ (if (minutes <? 10)%Z then "0" else "")
   ++ show minutes)%string.

(** [formatDecimalHours(duration / 3600)], with the exact quotient where
    the code has the quotient rounded to a double. *)
Definition formatSeconds (duration : Q) : string :=
  formatDecimalHours (duration / 3600).
End Formatting.

Definition HourFromTime (t : Z) : Z := (t / 3600000) mod 24.
Definition MinFromTime (t : Z) : Z := (t / 60000) mod 60.

Definition weekdays : list string :=
  ["Monday"; "Tuesday"; "Wednesday"; "Thursday"; "Friday"; "Saturday";
   "Sunday"].

(** An entry of the timetable chart; [entry_day] is [None] for an index
    outside [weekdays]. *)
Record TimetableEntry : Type := {
  entry_day : option string;
  entry_label : string;
  entry_start : Q;
  entry_end : Q
}.

Section WeekView.
Variable LocalTZA : Z -> bool -> Z.

Definition getHours (tv : Z) : Z := HourFromTime (Date.LocalTime LocalTZA tv).
Definition getMinutes (tv : Z) : Z := MinFromTime (Date.LocalTime LocalTZA tv).

(** [date.getHours() + date.getMinutes() / 60], with the exact quotient
    and sum where the code has them rounded to doubles. *)
Definition getTimeFractional (date : Z) : Q :=
  inject_Z (getHours date) + Qmake (getMinutes date) 60.

(** [(d.date.getDay() + 6) % 7]. *)
Definition weekday_index (d : DayData) : Z :=
  Z.rem (Date.getDay LocalTZA (date d) + 6) 7.

Definition timeTableChartData (selectedWeek : option WeekData)
  : list TimetableEntry :=
  match selectedWeek with
  | None => []
  | Some week =>
      flat_map
        (fun d =>
           map (fun b =>
                  {| entry_day :=
                       nth_error weekdays (Z.to_nat (weekday_index d));
                     entry_label := "work";
                     entry_start := getTimeFractional (from b);
                     entry_end := getTimeFractional (to b) |})
               (blocks d))
        (days week)
  end.

(** The state of WorkLogDisplayView.  [selectedWeekStart] is the ISO
    string of a week start, modelled by its time value, or the empty
    string, [None].  What the view writes to local storage is not part of
    the state. *)
Record View : Type := {
  idleThreshold : Q;
  rawCsvText : string;
  parsedEntries : list CsvEntry;
  view_blocks : list AggregatedBlock;
  weeks : list WeekData;
  selectedWeekStart : option Z
}.

(** The callback of [reduce]:
    [curr.weekStart > prev.weekStart ? curr : prev]. *)
Definition later_week (prev curr : WeekData) : WeekData :=
  if weekStart prev <? weekStart curr then curr else prev.

(** [newWeeks.reduce(...)], called on a non-empty array only. *)
Definition latestWeek (newWeeks : list WeekData) : option WeekData :=
  match newWeeks with
  | [] => None
  | first :: others => Some (fold_left later_week others first)
  end.

Definition updateAggregation (v : View) : View :=
  let newBlocks := aggregateToBlocks (parsedEntries v) (idleThreshold v) in
  let newWeeks := groupBlocksByWeek LocalTZA newBlocks in
  {| idleThreshold := idleThreshold v;
     rawCsvText := rawCsvText v;
     parsedEntries := parsedEntries v;
     view_blocks := newBlocks;
     weeks := newWeeks;
     selectedWeekStart :=
       match latestWeek newWeeks with
       | Some week => Some (weekStart week)
       | None => selectedWeekStart v
       end |}.

(** [weeks.find(week => week.weekStart.toISOString() === selectedWeekStart)
    || null]. *)
Definition selectedWeek (v : View) : option WeekData :=
  match selectedWeekStart v with
  | None => None
  | Some key => find (fun week => weekStart week =? key) (weeks v)
  end.
End WeekView.

(** [handleDrop], once the file is read: the text is parsed and the
    aggregation updated. *)
Definition handleDrop (LocalTZA : Z -> bool -> Z)
    (parseDate : string -> option Z) (Number : string -> JS.value)
    (v : View) (text : string) : View :=
  updateAggregation LocalTZA
    {| idleThreshold := idleThreshold v;
       rawCsvText := text;
       parsedEntries := parseCsv parseDate Number text;
       view_blocks := view_blocks v;
       weeks := weeks v;
       selectedWeekStart := selectedWeekStart v |}.

(* ---------------------------------------------------------------------- *)
(** * Further inputs for the examples                                      *)
(* ---------------------------------------------------------------------- *)

(** The first week of the sample, and its first day. *)
Definition no_week : WeekData :=
  {| weekStart := 0; days := []; week_totalDurationSec := JS.NaN |}.

Definition no_day : DayData :=
  {| date := 0; blocks := []; day_totalDurationSec := JS.NaN |}.

Definition first_sample_week : WeekData :=
  nth 0 (groupBlocksByWeek one_hour_east sample_blocks) no_week.

Definition first_sample_day : DayData := nth 0 (days first_sample_week) no_day.

(** The view before any file is dropped. *)
Definition empty_view : View :=
  {| idleThreshold := 300; rawCsvText := ""; parsedEntries := [];
     view_blocks := []; weeks := []; selectedWeekStart := None |}.


(* ====================================================================== *)
(** * The stable sort                                                      *)
(* ====================================================================== *)

Section StableSortFacts.
Context {A : Type} (key : A -> Z).

Lemma insert_by_perm x l : Permutation (insert_by key x l) (x :: l).
Proof.
  induction l as [|y l IH]; cbn [insert_by]; [reflexivity|].
  destruct (key x <=? key y); [reflexivity|].
  rewrite IH. apply perm_swap.
Qed.

Lemma sort_by_perm l : Permutation (sort_by key l) l.
Proof.
  induction l as [|x l IH]; [reflexivity|].
  cbn [sort_by fold_right]. fold (sort_by key l).
  rewrite insert_by_perm. constructor. exact IH.
Qed.

Lemma insert_by_hd x y l :
  key y <= key x -> HdRel (key_le key) y l -> HdRel (key_le key) y (insert_by key x l).
Proof.
  intros Hyx Hl. destruct l as [|z l]; cbn [insert_by].
  - constructor. exact Hyx.
  - destruct (key x <=? key z); constructor; [exact Hyx|].
    inversion Hl; assumption.
Qed.

Lemma insert_by_sorted x l :
  Sorted (key_le key) l -> Sorted (key_le key) (insert_by key x l).
Proof.
  induction 1 as [|y l Hs IH Hhd]; cbn [insert_by].
  - repeat constructor.
  - destruct (key x <=? key y) eqn:E.
    + apply Z.leb_le in E. repeat constructor; assumption.
    + apply Z.leb_gt in E. constructor; [exact IH|].
      apply insert_by_hd; [lia|exact Hhd].
Qed.

Lemma sort_by_sorted l : Sorted (key_le key) (sort_by key l).
Proof.
  induction l as [|x l IH]; [constructor|].
  cbn [sort_by fold_right]. apply insert_by_sorted. exact IH.
Qed.

(** Stability: the elements of any one key keep their order. *)
Lemma insert_by_stable t x l :
  filter (fun a => key a =? t) (insert_by key x l)
  = filter (fun a => key a =? t) (x :: l).
Proof.
  induction l as [|y l IH]; cbn [insert_by]; [reflexivity|].
  destruct (key x <=? key y) eqn:E; [reflexivity|].
  apply Z.leb_gt in E. cbn [filter] in *. rewrite IH.
  destruct (key y =? t) eqn:Ey; [|reflexivity].
  apply Z.eqb_eq in Ey.
  destruct (key x =? t) eqn:Ex; [|reflexivity].
  apply Z.eqb_eq in Ex. lia.
Qed.

Lemma sort_by_stable t l :
  filter (fun a => key a =? t) (sort_by key l)
  = filter (fun a => key a =? t) l.
Proof.
  induction l as [|x l IH]; [reflexivity|].
  cbn [sort_by fold_right]. fold (sort_by key l).
  rewrite insert_by_stable. cbn [filter]. rewrite IH. reflexivity.
Qed.

(** A list that is already in order is left as it is. *)
Lemma insert_by_below x l :
  HdRel (key_le key) x l -> insert_by key x l = x :: l.
Proof.
  intros H. destruct H as [|y l H]; [reflexivity|].
  cbn [insert_by]. unfold key_le in H.
  apply Z.leb_le in H. rewrite H. reflexivity.
Qed.

Lemma sort_by_sorted_id l : Sorted (key_le key) l -> sort_by key l = l.
Proof.
  induction 1 as [|x l Hs IH Hhd]; [reflexivity|].
  cbn [sort_by fold_right]. fold (sort_by key l).
  rewrite IH. apply insert_by_below. exact Hhd.
Qed.
End StableSortFacts.

Lemma map_insert_by {A B} (f : A -> B) (key : B -> Z) x l :
  map f (insert_by (fun a => key (f a)) x l) = insert_by key (f x) (map f l).
Proof.
  induction l as [|y l IH]; [reflexivity|].
  cbn [insert_by map]. destruct (key (f x) <=? key (f y)); [reflexivity|].
  cbn [map]. rewrite IH. reflexivity.
Qed.

Lemma map_sort_by {A B} (f : A -> B) (key : B -> Z) l :
  map f (sort_by (fun a => key (f a)) l) = sort_by key (map f l).
Proof.
  induction l as [|x l IH]; [reflexivity|].
  cbn [sort_by fold_right map]. fold (sort_by (fun a => key (f a)) l).
  fold (sort_by key (map f l)).
  rewrite map_insert_by, IH. reflexivity.
Qed.

(* ====================================================================== *)
(** * The scan of aggregateToBlocks                                        *)
(* ====================================================================== *)

Lemma last_cons {A} (x : A) l d : last (x :: l) d = last l x.
Proof.
  revert x d; induction l as [|y l IH]; intros x d; [reflexivity|].
  change (last (x :: y :: l) d) with (last (y :: l) d).
  rewrite (IH y d), (IH y x). reflexivity.
Qed.

Lemma last_app_cons {A} (l : list A) x m d :
  last (l ++ x :: m) d = last m x.
Proof.
  revert d; induction l as [|y l IH]; intros d; cbn [app].
  - apply last_cons.
  - rewrite last_cons. apply IH.
Qed.

Section Scan.
Variable threshold : Q.

Lemma loop_app s c r1 r2 :
  loop threshold s c (r1 ++ r2)
  = loop threshold (loop threshold s c r1) (last r1 c) r2.
Proof.
  revert s c; induction r1 as [|n r1 IH]; intros s c; [reflexivity|].
  cbn [app loop]. rewrite IH, last_cons. reflexivity.
Qed.

Lemma scan_of_app_cons pre a post :
  exists s, scan_of threshold (pre ++ [a]) = Some s
            /\ scan_of threshold (pre ++ a :: post)
               = Some (loop threshold s a post).
Proof.
  destruct pre as [|e0 pre]; cbn [app scan_of].
  - eexists; split; reflexivity.
  - eexists; split; [reflexivity|].
    replace (pre ++ a :: post) with ((pre ++ [a]) ++ post)
      by (rewrite <- app_assoc; reflexivity).
    rewrite loop_app, last_last. reflexivity.
Qed.

Lemma scan_of_pair pre a b s :
  scan_of threshold (pre ++ [a]) = Some s ->
  scan_of threshold (pre ++ [a; b]) = Some (step threshold s a b).
Proof.
  intros Hs. destruct (scan_of_app_cons pre a [b]) as (s' & H1 & H2).
  rewrite H2. cbn [loop]. congruence.
Qed.

(** The end of the open block is the time of the record just read. *)
Lemma loop_blockEnd rest s c :
  blockEnd s = timestamp c ->
  blockEnd (loop threshold s c rest) = timestamp (last rest c).
Proof.
  revert s c; induction rest as [|n rest IH]; intros s c Hc; [exact Hc|].
  cbn [loop]. rewrite IH, last_cons; [reflexivity|].
  unfold step. destruct (Qle_bool _ _); reflexivity.
Qed.

(** The open block starts where the scan started or at a later record. *)
Lemma loop_blockStart rest s c :
  In (blockStart (loop threshold s c rest))
     (blockStart s :: map timestamp rest).
Proof.
  revert s c; induction rest as [|n rest IH]; intros s c.
  - left; reflexivity.
  - cbn [loop]. specialize (IH (step threshold s c n) n).
    destruct IH as [IH | IH].
    + rewrite <- IH. unfold step.
      destruct (Qle_bool _ _); cbn; auto.
    + right; right; exact IH.
Qed.

Lemma step_absorb s c n :
  (gapSec c n <= threshold)%Q ->
  step threshold s c n
  = {| blocks_so_far := blocks_so_far s;
       blockStart := blockStart s;
       blockEnd := timestamp n;
       activityMap := accumulate (activityMap s) (title c) (gapSec c n) |}.
Proof.
  intros H. unfold step.
  apply Qle_bool_iff in H. rewrite H. reflexivity.
Qed.

Lemma step_split s c n :
  (threshold < gapSec c n)%Q ->
  step threshold s c n
  = {| blocks_so_far := blocks_so_far s ++ [close s];
       blockStart := timestamp n;
       blockEnd := timestamp n;
       activityMap := JS.empty |}.
Proof.
  intros H. unfold step.
  destruct (Qle_bool (gapSec c n) threshold) eqn:E; [|reflexivity].
  apply Qle_bool_iff in E. exfalso. exact (Qlt_not_le _ _ H E).
Qed.

(** The scan emits one block per run. *)
Lemma loop_runs rest s c :
  blockEnd s = timestamp c ->
  output (loop threshold s c rest)
  = blocks_so_far s
    ++ make_block (blockStart s)
         (timestamp (last (fst (runs_from threshold c rest)) c))
         (absorb (activityMap s) c (fst (runs_from threshold c rest)))
       :: map block_of_run (snd (runs_from threshold c rest)).
Proof.
  revert s c; induction rest as [|n rest IH]; intros s c Hc.
  - cbn. unfold output, close. rewrite Hc. reflexivity.
  - cbn [loop runs_from]. rewrite IH.
    2:{ unfold step; destruct (Qle_bool _ _); reflexivity. }
    destruct (runs_from threshold n rest) as [r rs] eqn:E.
    unfold step. destruct (Qle_bool (gapSec c n) threshold); cbn [fst snd].
    + cbn [blocks_so_far blockStart activityMap absorb].
      rewrite last_cons. reflexivity.
    + cbn [blocks_so_far blockStart activityMap absorb map last].
      rewrite <- app_assoc. cbn [app]. unfold close, block_of_run.
      rewrite Hc. reflexivity.
Qed.
End Scan.

Theorem aggregate_runs entries threshold :
  aggregateToBlocks entries threshold
  = map block_of_run (runs threshold entries).
Proof.
  unfold aggregateToBlocks, runs.
  destruct entries as [|e0 rest]; [reflexivity|].
  cbn [scan_of]. fold (output (loop threshold (start e0) e0 rest)).
  rewrite loop_runs by reflexivity.
  destruct (runs_from threshold e0 rest) as [r rs].
  reflexivity.
Qed.

(** The runs cut the input, in order; inside a run every gap is within the
    threshold. *)
Lemma runs_from_concat threshold rest : forall c,
  fst (runs_from threshold c rest)
  ++ flat_map (fun r => fst r :: snd r) (snd (runs_from threshold c rest))
  = rest.
Proof.
  induction rest as [|n rest IH]; intros c; [reflexivity|].
  cbn [runs_from]. specialize (IH n).
  destruct (runs_from threshold n rest) as [r rs]. cbn [fst snd] in IH.
  destruct (Qle_bool (gapSec c n) threshold); cbn; rewrite IH; reflexivity.
Qed.

Lemma runs_concat threshold entries :
  flat_map (fun r => fst r :: snd r) (runs threshold entries) = entries.
Proof.
  destruct entries as [|e0 rest]; [reflexivity|].
  unfold runs. pose proof (runs_from_concat threshold rest e0) as H.
  destruct (runs_from threshold e0 rest) as [r rs]. cbn in *.
  rewrite H. reflexivity.
Qed.

Lemma runs_from_within threshold rest : forall c,
  Forall (fun g => (snd g <= threshold)%Q)
         (gaps_of c (fst (runs_from threshold c rest)))
  /\ Forall (fun r => Forall (fun g => (snd g <= threshold)%Q)
                             (gaps_of (fst r) (snd r)))
            (snd (runs_from threshold c rest)).
Proof.
  induction rest as [|n rest IH]; intros c.
  - cbn. split; constructor.
  - cbn [runs_from]. destruct (IH n) as [IH1 IH2].
    destruct (runs_from threshold n rest) as [r rs]. cbn [fst snd] in *.
    destruct (Qle_bool (gapSec c n) threshold) eqn:E; cbn [fst snd gaps_of].
    + split; [|exact IH2]. constructor; [|exact IH1].
      apply Qle_bool_iff. exact E.
    + split; [constructor|]. constructor; [exact IH1|exact IH2].
Qed.

Lemma runs_within threshold entries :
  Forall (fun r => Forall (fun g => (snd g <= threshold)%Q)
                          (gaps_of (fst r) (snd r)))
         (runs threshold entries).
Proof.
  destruct entries as [|e0 rest]; [constructor|].
  unfold runs. destruct (runs_from_within threshold rest e0) as [H1 H2].
  destruct (runs_from threshold e0 rest) as [r rs]. cbn [fst snd] in *.
  constructor; assumption.
Qed.

(* ====================================================================== *)
(** * The per-title object                                                 *)
(* ====================================================================== *)

Lemma in_combine_map {A B} (f : A -> B) (l : list A) b a :
  In (b, a) (combine (map f l) l) -> b = f a.
Proof.
  induction l as [|x l IH]; cbn; [tauto|].
  intros [H | H]; [congruence | auto].
Qed.

Lemma filter_map_comm {A B} (f : A -> B) (p : B -> bool) l :
  map f (filter (fun a => p (f a)) l) = filter p (map f l).
Proof.
  induction l as [|x l IH]; [reflexivity|].
  cbn. destruct (p (f x)); cbn; rewrite IH; reflexivity.
Qed.

Lemma filter_partition_perm {A} (p : A -> bool) l :
  Permutation (filter p l ++ filter (fun a => negb (p a)) l) l.
Proof.
  induction l as [|x l IH]; [reflexivity|].
  cbn. destruct (p x); cbn.
  - constructor. exact IH.
  - rewrite <- Permutation_middle. constructor. exact IH.
Qed.

Lemma entries_perm o : Permutation (JS.entries o) o.
Proof.
  unfold JS.entries. rewrite sort_by_perm.
  apply (filter_partition_perm (fun p => JS.is_index (fst p))).
Qed.

Lemma own_mem o k :
  existsb (String.eqb k) (map fst o)
  = match JS.own o k with Some _ => true | None => false end.
Proof.
  induction o as [|[k' v] o IH]; [reflexivity|].
  cbn. destruct (String.eqb k k'); [reflexivity|exact IH].
Qed.

Lemma keys_replace o k v : map fst (JS.replace o k v) = map fst o.
Proof.
  induction o as [|[k' v'] o IH]; [reflexivity|].
  cbn. destruct (String.eqb k k'); cbn; [reflexivity|].
  rewrite IH. reflexivity.
Qed.

Lemma keys_set o k v :
  map fst (JS.set o k v)
  = if String.eqb k JS.proto_accessor then map fst o else note (map fst o) k.
Proof.
  unfold JS.set, note. destruct (String.eqb k JS.proto_accessor); [reflexivity|].
  rewrite own_mem. destruct (JS.own o k).
  - apply keys_replace.
  - rewrite map_app. reflexivity.
Qed.

Lemma keys_accumulate m t g :
  map fst (accumulate m t g)
  = if String.eqb t JS.proto_accessor then map fst m else note (map fst m) t.
Proof. apply keys_set. Qed.

Lemma keys_absorb rest : forall m c,
  map fst (absorb m c rest)
  = fold_left note
      (filter (fun t => negb (String.eqb t JS.proto_accessor))
              (map fst (gaps_of c rest)))
      (map fst m).
Proof.
  induction rest as [|n rest IH]; intros m c; [reflexivity|].
  cbn [absorb gaps_of map fst filter]. rewrite IH, keys_accumulate.
  destruct (String.eqb (title c) JS.proto_accessor); reflexivity.
Qed.

Lemma filter_all {A} (p : A -> bool) l :
  Forall (fun a => p a = true) l -> filter p l = l.
Proof.
  induction 1 as [|x l Hx Hl IH]; [reflexivity|].
  cbn. rewrite Hx, IH. reflexivity.
Qed.

Lemma keys_entries o :
  JS.keys o
  = sort_by JS.index_key (filter JS.is_index (map fst o))
    ++ filter (fun k => negb (JS.is_index k)) (map fst o).
Proof.
  unfold JS.keys, JS.entries. rewrite map_app.
  rewrite (map_sort_by fst JS.index_key).
  rewrite (filter_map_comm fst JS.is_index).
  rewrite (filter_map_comm fst (fun k => negb (JS.is_index k))).
  reflexivity.
Qed.

Lemma titles_of_make_block a b m : titles_of (make_block a b m) = JS.keys m.
Proof.
  unfold titles_of, make_block, JS.keys. cbn [activities].
  rewrite map_map. reflexivity.
Qed.

(** The order of the activities of the block of a run, for any titles. *)
Lemma titles_of_run r :
  let firsts :=
    first_occurrences
      (filter (fun t => negb (String.eqb t JS.proto_accessor)) (attributed r)) in
  titles_of (block_of_run r)
  = sort_by JS.index_key (filter JS.is_index firsts)
    ++ filter (fun k => negb (JS.is_index k)) firsts.
Proof.
  cbn zeta. unfold block_of_run. rewrite titles_of_make_block, keys_entries.
  rewrite keys_absorb. reflexivity.
Qed.

Lemma in_fold_note t l : forall seen,
  In t (fold_left note l seen) <-> In t seen \/ In t l.
Proof.
  induction l as [|x l IH]; intros seen; cbn [fold_left].
  - cbn. tauto.
  - rewrite IH. unfold note.
    destruct (existsb (String.eqb x) seen) eqn:E.
    + apply existsb_exists in E. destruct E as (y & Hy & Exy).
      apply String.eqb_eq in Exy. subst y. cbn. intuition (subst; auto).
    + rewrite in_app_iff. cbn. tauto.
Qed.

Lemma note_nodup seen t : NoDup seen -> NoDup (note seen t).
Proof.
  intros H. unfold note. destruct (existsb (String.eqb t) seen) eqn:E; [exact H|].
  apply NoDup_app; [exact H|repeat constructor; cbn; tauto|].
  intros x Hx [Ht | []]. subst x.
  assert (existsb (String.eqb t) seen = true); [|congruence].
  apply existsb_exists. exists t. split; [exact Hx|apply String.eqb_refl].
Qed.

Lemma fold_note_nodup l : forall seen,
  NoDup seen -> NoDup (fold_left note l seen).
Proof.
  induction l as [|x l IH]; intros seen H; [exact H|].
  cbn [fold_left]. apply IH, note_nodup, H.
Qed.

Lemma keys_nodup m : NoDup (map fst m) -> NoDup (JS.keys m).
Proof.
  intros H. eapply Permutation_NoDup; [|exact H].
  unfold JS.keys. apply Permutation_map. symmetry. apply entries_perm.
Qed.

(** ** Sums of the stored durations *)

Lemma fold_left_Qplus l : forall a, fold_left Qplus l a == a + sumQ l.
Proof.
  induction l as [|x l IH]; intros a; cbn [fold_left sumQ fold_right].
  - ring.
  - rewrite IH. fold (sumQ l). ring.
Qed.

Lemma sumQ_perm l l' : Permutation l l' -> sumQ l == sumQ l'.
Proof.
  induction 1 as [| x l l' _ IH | x y l | l l' l'' _ IH1 _ IH2];
    cbn [sumQ fold_right]; fold sumQ.
  - reflexivity.
  - fold (sumQ l) (sumQ l'). rewrite IH. reflexivity.
  - fold (sumQ l). ring.
  - etransitivity; eassumption.
Qed.

Lemma sumQ_app l l' : sumQ (l ++ l') == sumQ l + sumQ l'.
Proof.
  induction l as [|x l IH]; cbn [app sumQ fold_right].
  - fold (sumQ l'). ring.
  - fold (sumQ (l ++ l')) (sumQ l). rewrite IH. ring.
Qed.

Lemma fold_add_numbers vs : forall a,
  Forall is_number vs ->
  fold_left (fun sum d => JS.add sum d) vs (JS.Num a)
  = JS.Num (fold_left Qplus (map number_of vs) a).
Proof.
  induction vs as [|v vs IH]; intros a H; [reflexivity|].
  inversion H as [|? ? [q Hq] Hvs]; subst. cbn [fold_left map number_of JS.add].
  apply IH. exact Hvs.
Qed.

Lemma own_in o k v : JS.own o k = Some v -> In (k, v) o.
Proof.
  induction o as [|[k' v'] o IH]; cbn; [discriminate|].
  destruct (String.eqb k k') eqn:E.
  - apply String.eqb_eq in E. intros [= ->]. left. congruence.
  - auto.
Qed.

Lemma replace_numeric o k x :
  numeric o -> numeric (JS.replace o k (JS.Num x)).
Proof.
  induction 1 as [|[k' v'] o Hp Ho IH]; cbn; [constructor|].
  destruct (String.eqb k k'); constructor; auto.
  exists x. reflexivity.
Qed.

Lemma replace_total o k v x :
  JS.own o k = Some v ->
  total (JS.replace o k (JS.Num x)) == total o - number_of v + x.
Proof.
  induction o as [|[k' v'] o IH]; cbn [JS.own JS.replace]; [discriminate|].
  destruct (String.eqb k k').
  - intros [= ->]. unfold total. cbn [map sumQ fold_right snd number_of].
    ring.
  - intros H. specialize (IH H). unfold total in *.
    cbn [map sumQ fold_right snd]. fold sumQ.
    fold (sumQ (map (fun p => number_of (snd p)) (JS.replace o k (JS.Num x)))).
    fold (sumQ (map (fun p => number_of (snd p)) o)).
    rewrite IH. ring.
Qed.

Lemma inherited_not_accessor t :
  JS.inherited t = false -> String.eqb t JS.proto_accessor = false.
Proof. unfold JS.inherited. intros H. apply orb_false_iff in H. tauto. Qed.

(** A gap added under a title that Object.prototype does not provide. *)
Lemma accumulate_ordinary m t g :
  JS.inherited t = false ->
  numeric m ->
  numeric (accumulate m t g) /\ total (accumulate m t g) == total m + g.
Proof.
  intros Ht Hm. unfold accumulate, JS.set, JS.get.
  rewrite (inherited_not_accessor t Ht).
  destruct (JS.own m t) as [v|] eqn:E.
  - assert (Hv : is_number v).
    { apply own_in in E. unfold numeric in Hm. rewrite Forall_forall in Hm.
      exact (Hm _ E). }
    destruct Hv as [q ->]. unfold JS.or_else, JS.truthy.
    destruct (Qeq_bool q 0) eqn:Eq; cbn [negb JS.add].
    + split; [apply replace_numeric, Hm|].
      rewrite (replace_total _ _ _ _ E). cbn [number_of].
      apply Qeq_bool_iff in Eq. rewrite Eq. ring.
    + split; [apply replace_numeric, Hm|].
      rewrite (replace_total _ _ _ _ E). cbn [number_of]. ring.
  - rewrite Ht. cbn. split.
    + apply Forall_app. split; [exact Hm|].
      repeat constructor. eexists; reflexivity.
    + unfold total. rewrite map_app, sumQ_app. cbn. ring.
Qed.

Lemma absorb_ordinary rest : forall m c,
  Forall (fun t => JS.inherited t = false) (map fst (gaps_of c rest)) ->
  numeric m ->
  numeric (absorb m c rest)
  /\ total (absorb m c rest) == total m + sumQ (map snd (gaps_of c rest)).
Proof.
  induction rest as [|n rest IH]; intros m c Ht Hm.
  - cbn [absorb gaps_of map sumQ fold_right]. split; [exact Hm|ring].
  - cbn [gaps_of map fst snd] in Ht. inversion Ht as [|? ? Hc Hrest]; subst.
    destruct (accumulate_ordinary m (title c) (gapSec c n) Hc Hm) as [H1 H2].
    destruct (IH _ n Hrest H1) as [H3 H4].
    cbn [absorb gaps_of map snd sumQ fold_right]. split; [exact H3|].
    rewrite H4, H2. fold (sumQ (map snd (gaps_of n rest))). ring.
Qed.

Lemma make_block_total a b m :
  numeric m ->
  exists q, totalDurationSec (make_block a b m) = JS.Num q /\ q == total m.
Proof.
  intros Hm. unfold make_block. cbn [totalDurationSec].
  assert (Hn : numeric (JS.entries m)).
  { unfold numeric. eapply Permutation_Forall; [|exact Hm].
    symmetry. apply entries_perm. }
  unfold JS.values. rewrite fold_add_numbers.
  2:{ apply Forall_map. exact Hn. }
  eexists. split; [reflexivity|].
  rewrite fold_left_Qplus, map_map. unfold total.
  rewrite (sumQ_perm _ _ (Permutation_map _ (entries_perm m))). ring.
Qed.

(** ** Reading a property after a write *)

Lemma own_replace o k v k' :
  JS.own (JS.replace o k v) k'
  = match JS.own o k' with
    | Some v' => if String.eqb k' k then Some v else Some v'
    | None => None
    end.
Proof.
  induction o as [|[k0 v0] o IH]; [reflexivity|].
  cbn [JS.replace JS.own]. destruct (String.eqb k k0) eqn:E.
  - apply String.eqb_eq in E. subst k0. cbn [JS.own].
    destruct (String.eqb k' k); [reflexivity|].
    destruct (JS.own o k'); reflexivity.
  - cbn [JS.own]. destruct (String.eqb k' k0) eqn:E'; [|exact IH].
    apply String.eqb_eq in E'. subst k0.
    rewrite String.eqb_sym, E. reflexivity.
Qed.

Lemma own_app o k v k' :
  JS.own (o ++ [(k, v)]) k'
  = match JS.own o k' with
    | Some v' => Some v'
    | None => if String.eqb k' k then Some v else None
    end.
Proof.
  induction o as [|[k0 v0] o IH]; [reflexivity|].
  cbn [app JS.own]. destruct (String.eqb k' k0); [reflexivity|exact IH].
Qed.

Lemma own_set_same o k v :
  String.eqb k JS.proto_accessor = false ->
  JS.own (JS.set o k v) k = Some v.
Proof.
  intros Hk. unfold JS.set. rewrite Hk.
  destruct (JS.own o k) as [v0|] eqn:E.
  - rewrite own_replace, E, String.eqb_refl. reflexivity.
  - rewrite own_app, E, String.eqb_refl. reflexivity.
Qed.

Lemma own_set_other o k v k' :
  k' <> k -> JS.own (JS.set o k v) k' = JS.own o k'.
Proof.
  intros Hk. apply String.eqb_neq in Hk. unfold JS.set.
  destruct (String.eqb k JS.proto_accessor); [reflexivity|].
  destruct (JS.own o k).
  - rewrite own_replace, Hk. destruct (JS.own o k'); reflexivity.
  - rewrite own_app, Hk. destruct (JS.own o k'); reflexivity.
Qed.

Lemma get_set_same o k v :
  String.eqb k JS.proto_accessor = false -> JS.get (JS.set o k v) k = v.
Proof. intros Hk. unfold JS.get. rewrite own_set_same by exact Hk. reflexivity. Qed.

Lemma get_set_other o k v k' :
  k' <> k -> JS.get (JS.set o k v) k' = JS.get o k'.
Proof. intros Hk. unfold JS.get. rewrite own_set_other by exact Hk. reflexivity. Qed.

(** What is written under a title that Object.prototype does not provide
    is a number, as long as the numbers stored under such titles are. *)
Lemma sum_is_number m t g :
  ordinary_numbers m ->
  JS.inherited t = false ->
  is_number (JS.add (JS.or_else (JS.get m t) (JS.Num 0)) (JS.Num g)).
Proof.
  intros Hm Ht. unfold JS.get. destruct (JS.own m t) as [v|] eqn:E.
  - destruct (Hm t v E Ht) as [q ->]. unfold JS.or_else, JS.truthy.
    destruct (negb (Qeq_bool q 0)); eexists; reflexivity.
  - rewrite Ht. eexists; reflexivity.
Qed.

Lemma accumulate_ordinary_numbers m t g :
  ordinary_numbers m -> ordinary_numbers (accumulate m t g).
Proof.
  intros Hm k v Hown Hk. unfold accumulate in Hown.
  destruct (String.eqb k t) eqn:E.
  - apply String.eqb_eq in E. subst k.
    rewrite own_set_same in Hown by (apply inherited_not_accessor, Hk).
    injection Hown as <-. apply sum_is_number; assumption.
  - apply String.eqb_neq in E. rewrite own_set_other in Hown by exact E.
    exact (Hm k v Hown Hk).
Qed.

Lemma loop_ordinary_numbers threshold rest : forall s c,
  ordinary_numbers (activityMap s) ->
  ordinary_numbers (activityMap (loop threshold s c rest)).
Proof.
  induction rest as [|n rest IH]; intros s c Hs; [exact Hs|].
  cbn [loop]. apply IH. unfold step.
  destruct (Qle_bool _ _); cbn [activityMap].
  - apply accumulate_ordinary_numbers, Hs.
  - intros k v H. discriminate H.
Qed.

Lemma scan_ordinary_numbers threshold entries s :
  scan_of threshold entries = Some s -> ordinary_numbers (activityMap s).
Proof.
  destruct entries as [|e0 rest]; [discriminate|].
  cbn [scan_of]. intros [= <-]. apply loop_ordinary_numbers.
  intros k v H. discriminate H.
Qed.

Lemma entry_in_activities a b m k v :
  JS.own m k = Some v ->
  In {| activity_title := k; durationSec := v |}
     (activities (make_block a b m)).
Proof.
  intros H. apply own_in in H. unfold make_block. cbn [activities].
  apply in_map_iff. exists (k, v). split; [reflexivity|].
  eapply Permutation_in; [symmetry; apply entries_perm|exact H].
Qed.

(* ====================================================================== *)
(** * aggregateToBlocks: merging, splitting and the final block            *)
(* ====================================================================== *)

Lemma aggregate_scan entries threshold s :
  scan_of threshold entries = Some s ->
  aggregateToBlocks entries threshold = output s.
Proof. unfold aggregateToBlocks. intros ->. reflexivity. Qed.

Lemma output_loop_prefix threshold bs t m c rest :
  output (loop threshold
            {| blocks_so_far := bs; blockStart := t; blockEnd := timestamp c;
               activityMap := m |} c rest)
  = bs ++ output (loop threshold
                    {| blocks_so_far := []; blockStart := t;
                       blockEnd := timestamp c; activityMap := m |} c rest).
Proof. rewrite !loop_runs by reflexivity. reflexivity. Qed.

Lemma gapSec_nonneg a b : timestamp a <= timestamp b -> (0 <= gapSec a b)%Q.
Proof. intros H. unfold gapSec, Qle. cbn. lia. Qed.

Lemma Qmake_1000_pos z t : (0 <= t)%Q -> (t < Qmake z 1000)%Q -> 0 < z.
Proof.
  intros H0 H. assert (H1 : (0 < Qmake z 1000)%Q) by (eapply Qle_lt_trans; eauto).
  unfold Qlt in H1. cbn in H1. lia.
Qed.

Lemma aggregate_split threshold pre a b post :
  (threshold < gapSec a b)%Q ->
  aggregateToBlocks (pre ++ a :: b :: post) threshold
  = aggregateToBlocks (pre ++ [a]) threshold
    ++ aggregateToBlocks (b :: post) threshold.
Proof.
  intros Hlt.
  destruct (scan_of_app_cons threshold pre a (b :: post)) as (s & H1 & H2).
  rewrite (aggregate_scan _ _ _ H1), (aggregate_scan _ _ _ H2).
  cbn [loop]. rewrite step_split by exact Hlt.
  rewrite output_loop_prefix. reflexivity.
Qed.

(** X20. Whatever was read before, a pair of consecutive records [a], [b]
    is merged exactly when its gap in seconds is at most the threshold.
    Then the open block stays open and ends at [b], and unless [a] is
    titled "__proto__" the gap is attributed to the title of [a]: what is
    read under that title afterwards, and listed for it in the block, is
    what was there before (or 0) plus the gap, a number when
    Object.prototype does not provide the title, and what is read under
    any other title is unchanged.  A larger gap emits the open block as it
    stands and opens a new one at [b], so that the output is the output
    for the records up to [a] followed by the output for the records from
    [b]. *)
Theorem threshold_decides_merge threshold pre a b post s :
  scan_of threshold (pre ++ [a]) = Some s ->
  ((gapSec a b <= threshold)%Q ->
     let sum :=
       JS.add (JS.or_else (JS.get (activityMap s) (title a)) (JS.Num 0))
              (JS.Num (gapSec a b)) in
     let m := accumulate (activityMap s) (title a) (gapSec a b) in
     scan_of threshold (pre ++ a :: b :: post)
     = Some (loop threshold
               {| blocks_so_far := blocks_so_far s;
                  blockStart := blockStart s;
                  blockEnd := timestamp b;
                  activityMap := m |}
               b post)
     /\ aggregateToBlocks (pre ++ [a; b]) threshold
        = blocks_so_far s ++ [make_block (blockStart s) (timestamp b) m]
     /\ (title a <> JS.proto_accessor ->
         JS.get m (title a) = sum
         /\ In {| activity_title := title a; durationSec := sum |}
               (activities (make_block (blockStart s) (timestamp b) m)))
     /\ (JS.inherited (title a) = false -> is_number sum)
     /\ (forall t, t <> title a -> JS.get m t = JS.get (activityMap s) t))
  /\ ((threshold < gapSec a b)%Q ->
     scan_of threshold (pre ++ a :: b :: post)
     = Some (loop threshold
               {| blocks_so_far := blocks_so_far s ++ [close s];
                  blockStart := timestamp b;
                  blockEnd := timestamp b;
                  activityMap := JS.empty |}
               b post)
     /\ aggregateToBlocks (pre ++ [a; b]) threshold
        = blocks_so_far s ++ [close s; lone_block b]
     /\ aggregateToBlocks (pre ++ a :: b :: post) threshold
        = aggregateToBlocks (pre ++ [a]) threshold
          ++ aggregateToBlocks (b :: post) threshold)
  /\ (List.length (aggregateToBlocks (pre ++ [a; b]) threshold)
      = List.length (aggregateToBlocks (pre ++ [a]) threshold)
      <-> (gapSec a b <= threshold)%Q).
Proof.
  intros Hs.
  assert (Hall : scan_of threshold (pre ++ a :: b :: post)
                 = Some (loop threshold (step threshold s a b) b post)).
  { destruct (scan_of_app_cons threshold pre a (b :: post)) as (s' & H1 & H2).
    rewrite H2. cbn [loop]. congruence. }
  pose proof (scan_of_pair threshold pre a b s Hs) as Hpair.
  assert (Hmerge : (gapSec a b <= threshold)%Q ->
            aggregateToBlocks (pre ++ [a; b]) threshold
            = blocks_so_far s
              ++ [make_block (blockStart s) (timestamp b)
                    (accumulate (activityMap s) (title a) (gapSec a b))]).
  { intros Hle. rewrite (aggregate_scan _ _ _ Hpair), step_absorb by exact Hle.
    reflexivity. }
  assert (Hsplit : (threshold < gapSec a b)%Q ->
            aggregateToBlocks (pre ++ [a; b]) threshold
            = blocks_so_far s ++ [close s; lone_block b]).
  { intros Hlt. rewrite (aggregate_scan _ _ _ Hpair), step_split by exact Hlt.
    unfold output. cbn [blocks_so_far]. rewrite <- app_assoc. reflexivity. }
  split; [|split].
  - intros Hle sum m. split; [|split; [exact (Hmerge Hle)|split; [|split]]].
    + rewrite Hall, step_absorb by exact Hle. reflexivity.
    + intros Ha. apply String.eqb_neq in Ha.
      split; [apply get_set_same, Ha|].
      apply entry_in_activities. apply own_set_same, Ha.
    + intros Ha. apply sum_is_number; [|exact Ha].
      eapply scan_ordinary_numbers. exact Hs.
    + intros t Ht. apply get_set_other, Ht.
  - intros Hlt. split; [|split; [exact (Hsplit Hlt)|]].
    + rewrite Hall, step_split by exact Hlt. reflexivity.
    + apply aggregate_split, Hlt.
  - rewrite (aggregate_scan _ _ _ Hs). unfold output.
    destruct (Qlt_le_dec threshold (gapSec a b)) as [Hlt | Hle].
    + rewrite (Hsplit Hlt), !length_app. cbn [List.length]. split; [lia|].
      intros Hle. exfalso. exact (Qlt_not_le _ _ Hlt Hle).
    + rewrite (Hmerge Hle), !length_app. cbn [List.length]. tauto.
Qed.

(** C1 fails on a record titled "__proto__".  A gap equal to the threshold
    is merged, the block ending at the later record, but the gap is
    attributed to no title: reading the key yields Object.prototype and
    the assignment is dropped by its setter, whatever the map holds, so
    the block lists no activity and has total 0.  The same gap after a
    record titled "Read" is listed under that title; one millisecond more
    splits. *)
Theorem inherited_title_loses_the_merged_gap :
  chronological [entry_at 0 "__proto__"; entry_at 300000 "Write"]
  /\ (gapSec (entry_at 0 "__proto__") (entry_at 300000 "Write") == 300)%Q
  /\ aggregateToBlocks [entry_at 0 "__proto__"; entry_at 300000 "Write"] 300
     = [ {| from := 0; to := 300000;
            totalDurationSec := JS.Num 0; activities := [] |} ]
  /\ (forall m g, accumulate m "__proto__" g = m)
  /\ aggregateToBlocks [entry_at 0 "Read"; entry_at 300000 "Write"] 300
     = [ {| from := 0; to := 300000;
            totalDurationSec := JS.Num (Qmake 300000 1000);
            activities := [ {| activity_title := "Read";
                               durationSec := JS.Num (Qmake 300000 1000) |} ] |} ]
  /\ aggregateToBlocks [entry_at 0 "__proto__"; entry_at 300001 "Write"] 300
     = [ lone_block (entry_at 0 "__proto__");
         lone_block (entry_at 300001 "Write") ].
Proof.
  split; [repeat constructor; cbn; lia|]. repeat split.
Qed.

Lemma loop_all_split threshold rest s c :
  (threshold < 0)%Q ->
  chronological (c :: rest) ->
  output (loop threshold s c rest)
  = blocks_so_far s ++ close s :: map lone_block rest.
Proof.
  intros Hneg. revert s c; induction rest as [|n rest IH]; intros s c Hc.
  - reflexivity.
  - inversion Hc as [|? ? Hrest Hhd]; subst. inversion Hhd; subst.
    cbn [loop]. rewrite step_split.
    2:{ eapply Qlt_le_trans; [exact Hneg|]. apply gapSec_nonneg. assumption. }
    rewrite IH by assumption. cbn [blocks_so_far map].
    rewrite <- app_assoc. reflexivity.
Qed.

(** C7. With a strictly negative threshold every pair of a time-sorted
    input splits: the output has one block per record, in order, each from
    and to that record's time with zero total and no activity. *)
Theorem negative_threshold_one_block_per_record entries threshold :
  (threshold < 0)%Q ->
  chronological entries ->
  aggregateToBlocks entries threshold = map lone_block entries
  /\ List.length (aggregateToBlocks entries threshold) = List.length entries.
Proof.
  intros Hneg Hc.
  assert (H : aggregateToBlocks entries threshold = map lone_block entries).
  { destruct entries as [|e0 rest]; [reflexivity|].
    unfold aggregateToBlocks. cbn [scan_of].
    change (output (loop threshold (start e0) e0 rest)
            = map lone_block (e0 :: rest)).
    rewrite loop_all_split by assumption. reflexivity. }
  split; [exact H|]. rewrite H. apply length_map.
Qed.

Lemma runs_from_separated threshold rest c :
  chronological (c :: rest) ->
  timestamp c <= timestamp (last (fst (runs_from threshold c rest)) c)
  /\ separated threshold
       (timestamp (last (fst (runs_from threshold c rest)) c))
       (map block_of_run (snd (runs_from threshold c rest))).
Proof.
  revert c; induction rest as [|n rest IH]; intros c Hc.
  - cbn. split; [lia|exact I].
  - inversion Hc as [|? ? Hrest Hhd]; subst. inversion Hhd; subst.
    destruct (IH n Hrest) as [IH1 IH2]. cbn [runs_from].
    destruct (runs_from threshold n rest) as [r rs]. cbn [fst snd] in *.
    destruct (Qle_bool (gapSec c n) threshold) eqn:E; cbn [fst snd].
    + rewrite last_cons. split; [lia|exact IH2].
    + cbn [last map separated]. split; [lia|].
      unfold block_of_run at 1 2 3. cbn [fst snd from to make_block].
      repeat split; auto.
      apply Qnot_le_lt. intros Hle. apply Qle_bool_iff in Hle.
      unfold gapSec in E. congruence.
Qed.

Lemma separated_from_to threshold bs : forall p,
  separated threshold p bs -> Forall (fun b => from b <= to b) bs.
Proof.
  induction bs as [|b bs IH]; intros p H; constructor.
  - apply H.
  - eapply IH. apply H.
Qed.

Lemma aggregate_from_to entries threshold :
  chronological entries ->
  Forall (fun b => from b <= to b) (aggregateToBlocks entries threshold).
Proof.
  intros Hc. rewrite aggregate_runs. destruct entries as [|e0 rest].
  - constructor.
  - unfold runs.
    pose proof (runs_from_separated threshold rest e0 Hc) as [Hft Hsep].
    destruct (runs_from threshold e0 rest) as [r rs]. cbn [fst snd map] in *.
    constructor; [exact Hft|]. eapply separated_from_to. exact Hsep.
Qed.

(** ** The block that is open when the scan ends *)

Lemma loop_all_absorb threshold rest : forall s c,
  blockEnd s = timestamp c ->
  Forall (fun g => (snd g <= threshold)%Q) (gaps_of c rest) ->
  loop threshold s c rest
  = {| blocks_so_far := blocks_so_far s;
       blockStart := blockStart s;
       blockEnd := timestamp (last rest c);
       activityMap := absorb (activityMap s) c rest |}.
Proof.
  induction rest as [|n rest IH]; intros s c Hc Hg.
  - cbn [loop last absorb]. rewrite <- Hc. destruct s; reflexivity.
  - cbn [gaps_of] in Hg. inversion Hg as [|? ? Hle Hrest]; subst.
    cbn [snd] in Hle. cbn [loop]. rewrite step_absorb by exact Hle.
    rewrite IH by (try reflexivity; exact Hrest).
    cbn [blocks_so_far blockStart activityMap absorb].
    rewrite last_cons. reflexivity.
Qed.

Lemma aggregate_one_run threshold first merged :
  Forall (fun g => (snd g <= threshold)%Q) (gaps_of first merged) ->
  aggregateToBlocks (first :: merged) threshold
  = [ make_block (timestamp first) (timestamp (last merged first))
        (absorb JS.empty first merged) ].
Proof.
  intros Hg. unfold aggregateToBlocks. cbn [scan_of].
  rewrite loop_all_absorb by (try reflexivity; exact Hg). reflexivity.
Qed.

(** Every non-empty input ends with a longest run of records at gaps
    within the threshold. *)
Lemma last_run_exists threshold rest : forall c,
  exists before first merged,
    c :: rest = before ++ first :: merged
    /\ Forall (fun g => (snd g <= threshold)%Q) (gaps_of first merged)
    /\ (before = []
        \/ exists earlier previous,
             before = earlier ++ [previous]
             /\ (threshold < gapSec previous first)%Q).
Proof.
  induction rest as [|n rest IH]; intros c.
  - exists [], c, []. split; [reflexivity|]. split; [constructor|]. left; reflexivity.
  - destruct (IH n) as (before & first & merged & Heq & Hg & Hb).
    destruct Hb as [-> | (earlier & previous & -> & Hlt)].
    + cbn [app] in Heq. injection Heq as <- <-.
      destruct (Qlt_le_dec threshold (gapSec c n)) as [Hlt | Hle].
      * exists [c], n, rest. split; [reflexivity|]. split; [exact Hg|].
        right. exists [], c. split; [reflexivity|exact Hlt].
      * exists [], c, (n :: rest). split; [reflexivity|].
        split; [|left; reflexivity].
        cbn [gaps_of]. constructor; [exact Hle|exact Hg].
    + exists (c :: earlier ++ [previous]), first, merged.
      split; [cbn [app]; rewrite Heq; reflexivity|]. split; [exact Hg|].
      right. exists (c :: earlier), previous. split; [reflexivity|exact Hlt].
Qed.

(** C6. A single record gives exactly one block, from and to that record's
    time, with zero total duration and no activity.  More generally the
    block that is open when the scan ends is emitted: every non-empty
    input ends with a longest run of records at gaps within the threshold
    (the whole input, or the records after the last gap above the
    threshold), and the output is the output for the records before that
    run followed by one block that starts at the run's first record, ends
    at the final record of the input and carries the gaps of the run,
    accumulated by title.  On a time-sorted input the final record lies
    within the last block. *)
Theorem open_block_always_emitted :
  (forall e threshold,
      aggregateToBlocks [e] threshold
      = [ {| from := timestamp e; to := timestamp e;
             totalDurationSec := JS.Num 0; activities := [] |} ])
  /\ (forall pre e threshold,
         exists before first merged,
           pre ++ [e] = before ++ first :: merged
           /\ Forall (fun g => (snd g <= threshold)%Q) (gaps_of first merged)
           /\ (before = []
               \/ exists earlier previous,
                    before = earlier ++ [previous]
                    /\ (threshold < gapSec previous first)%Q)
           /\ aggregateToBlocks (pre ++ [e]) threshold
              = aggregateToBlocks before threshold
                ++ [ make_block (timestamp first) (timestamp e)
                       (absorb JS.empty first merged) ])
  /\ (forall pre e threshold closed blk,
         chronological (pre ++ [e]) ->
         aggregateToBlocks (pre ++ [e]) threshold = closed ++ [blk] ->
         from blk <= timestamp e /\ timestamp e = to blk).
Proof.
  split; [reflexivity|]. split.
  - intros pre e threshold.
    assert (Hne : exists c rest, pre ++ [e] = c :: rest).
    { destruct pre as [|c pre]; cbn [app]; eauto. }
    destruct Hne as (c & rest & Hcr).
    destruct (last_run_exists threshold rest c)
      as (before & first & merged & Heq & Hg & Hb).
    rewrite <- Hcr in Heq.
    assert (Hlast : last merged first = e).
    { pose proof (f_equal (fun l => last l e) Heq) as H. cbn beta in H.
      rewrite last_last, last_app_cons in H.
      symmetry. exact H. }
    exists before, first, merged.
    split; [exact Heq|]. split; [exact Hg|]. split; [exact Hb|].
    rewrite Heq. destruct Hb as [-> | (earlier & previous & -> & Hlt)].
    + cbn [app]. rewrite aggregate_one_run by exact Hg. rewrite Hlast.
      reflexivity.
    + rewrite <- app_assoc. cbn [app].
      rewrite aggregate_split by exact Hlt.
      rewrite aggregate_one_run by exact Hg. rewrite Hlast. reflexivity.
  - intros pre e threshold closed blk Hc Hout.
    assert (Hto : to blk = timestamp e).
    { destruct pre as [|e0 pre].
      - cbn in Hout. destruct closed as [|x [|y closed]]; try discriminate.
        injection Hout as <-. reflexivity.
      - unfold aggregateToBlocks in Hout. cbn [app scan_of] in Hout.
        apply app_inj_tail in Hout. destruct Hout as [_ <-].
        unfold close, make_block. cbn [to].
        rewrite loop_blockEnd by reflexivity. rewrite last_last. reflexivity. }
    split; [|symmetry; exact Hto]. rewrite <- Hto.
    pose proof (aggregate_from_to (pre ++ [e]) threshold Hc) as H.
    rewrite Forall_forall in H. apply H. rewrite Hout.
    apply in_or_app. right. left. reflexivity.
Qed.

Lemma separated_adjacent threshold l1 : forall p b1 b2 l2,
  separated threshold p (l1 ++ b1 :: b2 :: l2) ->
  (threshold < Qmake (from b2 - to b1) 1000)%Q.
Proof.
  induction l1 as [|x l1 IH]; intros p b1 b2 l2 H.
  - cbn in H. tauto.
  - cbn [app separated] in H. eapply IH. apply H.
Qed.

Lemma separated_sorted threshold bs : forall p,
  (0 <= threshold)%Q ->
  separated threshold p bs ->
  Forall (fun b => p < from b) bs
  /\ Forall (fun b => from b <= to b) bs
  /\ StronglySorted (fun b1 b2 => to b1 < from b2) bs.
Proof.
  induction bs as [|b bs IH]; intros p H0 H.
  - repeat constructor.
  - cbn [separated] in H. destruct H as (Hgap & Hft & Hrest).
    destruct (IH (to b) H0 Hrest) as (IH1 & IH2 & IH3).
    pose proof (Qmake_1000_pos _ _ H0 Hgap) as Hp.
    repeat split; constructor; auto; try lia.
    eapply Forall_impl; [|exact IH1]. cbn. intros; lia.
Qed.

(** C10. For a time-sorted input and a threshold that is not negative, the
    emitted blocks are in chronological order and disjoint: each block
    starts more than the threshold (in seconds) after the block before it
    ends, every block ends no earlier than it starts, and so every block
    lies strictly before every later one. *)
Theorem blocks_chronological_and_disjoint entries threshold :
  (0 <= threshold)%Q ->
  chronological entries ->
  (forall l1 b1 b2 l2,
      aggregateToBlocks entries threshold = l1 ++ b1 :: b2 :: l2 ->
      (threshold < Qmake (from b2 - to b1) 1000)%Q /\ to b1 < from b2)
  /\ Forall (fun b => from b <= to b) (aggregateToBlocks entries threshold)
  /\ StronglySorted (fun b1 b2 => to b1 < from b2)
       (aggregateToBlocks entries threshold)
  /\ StronglySorted (fun b1 b2 => from b1 < from b2)
       (aggregateToBlocks entries threshold).
Proof.
  intros H0 Hc. rewrite aggregate_runs.
  destruct entries as [|e0 rest].
  { cbn. repeat split; try constructor.
    all: destruct l1; discriminate. }
  unfold runs. pose proof (runs_from_separated threshold rest e0 Hc) as [Hft Hsep].
  destruct (runs_from threshold e0 rest) as [r rs]. cbn [fst snd map] in *.
  destruct (separated_sorted _ _ _ H0 Hsep) as (S1 & S2 & S3).
  assert (Hto : to (block_of_run (e0, r)) = timestamp (last r e0)) by reflexivity.
  assert (Hfrom : from (block_of_run (e0, r)) = timestamp e0) by reflexivity.
  assert (SS : StronglySorted (fun b1 b2 => to b1 < from b2)
                 (block_of_run (e0, r) :: map block_of_run rs)).
  { constructor; [exact S3|]. rewrite Hto. exact S1. }
  assert (FF : Forall (fun b => from b <= to b)
                 (block_of_run (e0, r) :: map block_of_run rs)).
  { constructor; [|exact S2]. rewrite Hto, Hfrom. exact Hft. }
  split; [|split; [exact FF|split; [exact SS|]]].
  - intros l1 b1 b2 l2 H.
    assert (Hgap : (threshold < Qmake (from b2 - to b1) 1000)%Q).
    { destruct l1 as [|x l1]; cbn [app] in H; injection H as Hb Hrs;
        rewrite Hrs in Hsep.
      - cbn [separated] in Hsep. rewrite <- Hb, Hto. tauto.
      - eapply separated_adjacent; eassumption. }
    split; [exact Hgap|].
    pose proof (Qmake_1000_pos _ _ H0 Hgap). lia.
  - clear - SS FF. induction SS as [|b bs Hs IH Hb]; constructor.
    + apply IH. inversion FF; assumption.
    + inversion FF; subst. eapply Forall_impl; [|exact Hb].
      cbn. intros; lia.
Qed.

(* ====================================================================== *)
(** * The activities of a block                                            *)
(* ====================================================================== *)

Lemma block_run_pair entries threshold blk r :
  In (blk, r) (combine (aggregateToBlocks entries threshold)
                       (runs threshold entries)) ->
  blk = block_of_run r.
Proof. rewrite aggregate_runs. apply in_combine_map. Qed.

Lemma first_occurrences_in t l : In t (first_occurrences l) <-> In t l.
Proof. unfold first_occurrences. rewrite in_fold_note. cbn. tauto. Qed.

Lemma filter_none {A} (p : A -> bool) l :
  Forall (fun a => p a = false) l -> filter p l = [].
Proof.
  induction 1 as [|x l Hx Hl IH]; [reflexivity|].
  cbn. rewrite Hx. exact IH.
Qed.

(** C9, as the code has it.  In a block none of whose merged records is
    titled "__proto__", the activities list first the titles that are
    array indices (the canonical decimal numerals of 0 .. 2^32 - 2), in
    ascending numeric order, and then the other titles in the order in
    which they first occur in the block.  When no title is an array index
    this is the order of first occurrence. *)
Theorem activities_indices_then_first_occurrence entries threshold blk r :
  In (blk, r) (combine (aggregateToBlocks entries threshold)
                       (runs threshold entries)) ->
  ~ In JS.proto_accessor (attributed r) ->
  let firsts := first_occurrences (attributed r) in
  let indices := sort_by JS.index_key (filter JS.is_index firsts) in
  titles_of blk
  = indices ++ filter (fun k => negb (JS.is_index k)) firsts
  /\ Sorted (key_le JS.index_key) indices
  /\ Permutation indices (filter JS.is_index firsts)
  /\ (Forall (fun t => JS.is_index t = false) (attributed r) ->
      insertion_ordered blk r).
Proof.
  intros Hin Hproto firsts indices.
  apply block_run_pair in Hin. subst blk.
  assert (Hkeep : filter (fun t => negb (String.eqb t JS.proto_accessor))
                         (attributed r) = attributed r).
  { apply filter_all. apply Forall_forall. intros t Ht.
    destruct (String.eqb t JS.proto_accessor) eqn:E; [|reflexivity].
    apply String.eqb_eq in E. subst t. contradiction. }
  assert (Horder : titles_of (block_of_run r)
                   = indices ++ filter (fun k => negb (JS.is_index k)) firsts).
  { rewrite titles_of_run, Hkeep. reflexivity. }
  split; [exact Horder|]. split; [apply sort_by_sorted|].
  split; [apply sort_by_perm|].
  intros Hnone. unfold insertion_ordered. rewrite Horder.
  assert (Hf : Forall (fun t => JS.is_index t = false) firsts).
  { apply Forall_forall. intros t Ht. unfold firsts in Ht.
    apply (proj1 (first_occurrences_in _ _)) in Ht.
    rewrite Forall_forall in Hnone. exact (Hnone t Ht). }
  unfold indices. rewrite (filter_none _ _ Hf). cbn [sort_by fold_right app].
  apply filter_all. eapply Forall_impl; [|exact Hf].
  cbn. intros t ->. reflexivity.
Qed.

(** C9 fails as stated: a block in which "b" occurs before "1" lists the
    activity "1" first. *)
Lemma activities_not_insertion_ordered :
  let entries := [entry_at 0 "b"; entry_at 1000 "1"; entry_at 2000 "b"] in
  map titles_of (aggregateToBlocks entries 300) = [["1"; "b"]]
  /\ map (fun r => first_occurrences (attributed r)) (runs 300 entries)
     = [["b"; "1"]]
  /\ ~ Forall2 insertion_ordered (aggregateToBlocks entries 300)
                                 (runs 300 entries).
Proof.
  cbn zeta. split; [reflexivity|]. split; [reflexivity|].
  intros H. inversion H as [|blk r bs rs Hhd Htl Eb Er]; subst.
  unfold insertion_ordered in Hhd. vm_compute in Hhd. discriminate Hhd.
Qed.

(** ** The sums of a block *)

(** The invariants of a block as long as no merged record carries a title
    that Object.prototype provides: the block ends no earlier than it
    starts, its total is the sum of its activities' durations and of the
    gaps merged into it, and no title is listed twice. *)
Lemma block_invariants_ordinary_titles entries threshold blk r :
  chronological entries ->
  In (blk, r) (combine (aggregateToBlocks entries threshold)
                       (runs threshold entries)) ->
  Forall (fun t => JS.inherited t = false) (attributed r) ->
  from blk <= to blk
  /\ totalDurationSec blk = js_sum (map durationSec (activities blk))
  /\ (exists q, totalDurationSec blk = JS.Num q /\ q == sumQ (absorbed_gaps r))
  /\ NoDup (titles_of blk).
Proof.
  intros Hc Hin Hord.
  assert (Hblk : In blk (aggregateToBlocks entries threshold))
    by (eapply in_combine_l; exact Hin).
  pose proof (aggregate_from_to entries threshold Hc) as Hft.
  rewrite Forall_forall in Hft. split; [exact (Hft _ Hblk)|].
  apply block_run_pair in Hin. subst blk. split; [|split].
  - unfold block_of_run, make_block, js_sum, JS.values.
    cbn [totalDurationSec activities]. rewrite map_map. reflexivity.
  - unfold block_of_run.
    destruct (absorb_ordinary (snd r) JS.empty (fst r) Hord) as [Hn Ht];
      [constructor|].
    destruct (make_block_total (timestamp (fst r))
                (timestamp (last (snd r) (fst r))) _ Hn) as (q & Hq & Hqt).
    exists q. split; [exact Hq|]. rewrite Hqt, Ht.
    unfold absorbed_gaps, total, JS.empty. cbn. ring.
  - unfold block_of_run. rewrite titles_of_make_block.
    apply keys_nodup. rewrite keys_absorb. apply fold_note_nodup. constructor.
Qed.

(** C2 fails on a record titled "__proto__": reading the key yields
    Object.prototype and the assignment is dropped by its setter, so the
    gap of 240 seconds is merged into the block, whose [to] advances, and
    appears neither in its activities nor in its total.  A record titled
    "constructor" stores a string instead, and the total is a string. *)
Theorem inherited_title_breaks_the_sum :
  chronological [entry_at 0 "__proto__"; entry_at 240000 "Write"]
  /\ aggregateToBlocks [entry_at 0 "__proto__"; entry_at 240000 "Write"] 300
  = [ {| from := 0; to := 240000;
         totalDurationSec := JS.Num 0; activities := [] |} ]
  /\ map absorbed_gaps
         (runs 300 [entry_at 0 "__proto__"; entry_at 240000 "Write"])
     = [[Qmake 240000 1000]]
  /\ aggregateToBlocks [entry_at 0 "constructor"; entry_at 240000 "Write"] 300
     = [ {| from := 0; to := 240000;
            totalDurationSec := JS.Str;
            activities := [ {| activity_title := "constructor";
                               durationSec := JS.Str |} ] |} ].
Proof.
  split; [repeat constructor; cbn; lia|]. repeat split.
Qed.

(* ====================================================================== *)
(** * parseCsv                                                             *)
(* ====================================================================== *)

Lemma split_lines_first line text :
  no_line_break line = true ->
  split_lines (line ++ String LF text) = line :: split_lines text.
Proof.
  induction line as [|c line IH]; intros H.
  - reflexivity.
  - cbn [no_line_break] in H.
    apply andb_true_iff in H. destruct H as [H Hline].
    apply andb_true_iff in H. destruct H as [Hlf Hcr].
    apply negb_true_iff in Hlf, Hcr.
    change (String c line ++ String LF text)%string
      with (String c (line ++ String LF text)).
    cbn [split_lines]. rewrite Hlf, Hcr.
    rewrite (IH Hline). reflexivity.
Qed.

Section ParserFacts.
Variable parseDate : string -> option Z.
Variable Number : string -> JS.value.

Lemma entries_of_app l1 l2 :
  entries_of parseDate Number (l1 ++ l2)
  = entries_of parseDate Number l1 ++ entries_of parseDate Number l2.
Proof.
  induction l1 as [|line l1 IH]; [reflexivity|].
  cbn [app entries_of]. rewrite IH.
  destruct (parse_line parseDate Number line); reflexivity.
Qed.

Lemma entries_of_dropped before line after :
  parse_line parseDate Number line = None ->
  entries_of parseDate Number (before ++ line :: after)
  = entries_of parseDate Number (before ++ after).
Proof.
  intros H. rewrite !entries_of_app. cbn [entries_of]. rewrite H. reflexivity.
Qed.

Lemma entries_of_none lines :
  Forall (fun line => parse_line parseDate Number line = None) lines ->
  entries_of parseDate Number lines = [].
Proof.
  induction 1 as [|line lines H _ IH]; [reflexivity|].
  cbn [entries_of]. rewrite H. exact IH.
Qed.

Lemma parseCsv_first_line_dropped line text :
  no_line_break line = true ->
  parse_line parseDate Number line = None ->
  parseCsv parseDate Number (line ++ String LF text)
  = parseCsv parseDate Number text.
Proof.
  intros Hnb Hbad. unfold parseCsv, lines_of.
  rewrite split_lines_first by exact Hnb. cbn [filter].
  destruct (negb (is_empty (trim line))); [|reflexivity].
  cbn [entries_of]. rewrite Hbad. reflexivity.
Qed.

(** C8. The parser returns a sequence for every text.  A line with fewer
    than three comma-separated fields, or whose first field is not a valid
    timestamp, contributes no record, and the lines before and after it
    are parsed as if it were absent; the empty text, and a text none of
    whose lines is valid, give the empty sequence. *)
Theorem malformed_lines_are_dropped :
  (forall line,
      (List.length (split_commas line) < 3)%nat ->
      parse_line parseDate Number line = None)
  /\ (forall line,
        parseDate (trim (nth 0 (split_commas line) "")) = None ->
        parse_line parseDate Number line = None)
  /\ (forall before line after,
        parse_line parseDate Number line = None ->
        entries_of parseDate Number (before ++ line :: after)
        = entries_of parseDate Number (before ++ after))
  /\ (forall line text,
        no_line_break line = true ->
        parse_line parseDate Number line = None ->
        parseCsv parseDate Number (line ++ String LF text)
        = parseCsv parseDate Number text)
  /\ parseCsv parseDate Number "" = []
  /\ (forall text,
        Forall (fun line => parse_line parseDate Number line = None)
               (lines_of text) ->
        parseCsv parseDate Number text = []).
Proof.
  split; [|split; [|split; [|split; [|split]]]].
  - intros line H. unfold parse_line.
    apply Nat.ltb_lt in H. rewrite H. reflexivity.
  - intros line H. unfold parse_line. rewrite H.
    destruct (List.length (split_commas line) <? 3)%nat; reflexivity.
  - exact entries_of_dropped.
  - exact parseCsv_first_line_dropped.
  - reflexivity.
  - intros text H. unfold parseCsv. rewrite (entries_of_none _ H). reflexivity.
Qed.

(** C5. The records returned by the parser are in non-decreasing order of
    timestamp, they are the records of the valid lines, and the records of
    any one timestamp come in the order of their lines. *)
Theorem parse_sorted_and_stable text :
  chronological (parseCsv parseDate Number text)
  /\ Permutation (parseCsv parseDate Number text)
                 (entries_of parseDate Number (lines_of text))
  /\ (forall t,
        filter (fun e => timestamp e =? t) (parseCsv parseDate Number text)
        = filter (fun e => timestamp e =? t)
                 (entries_of parseDate Number (lines_of text))).
Proof.
  unfold parseCsv. split; [|split].
  - exact (sort_by_sorted timestamp _).
  - apply sort_by_perm.
  - intros t. apply sort_by_stable.
Qed.
End ParserFacts.

(* ====================================================================== *)
(** * Maps and grouping                                                    *)
(* ====================================================================== *)

Section MapFacts.
Context {V : Type}.
Implicit Types (m : Map V) (k : Z) (v : V).

Lemma Map_get_set_same m k v : Map_get (Map_set m k v) k = Some v.
Proof.
  induction m as [|[k' v'] m IH]; cbn.
  - rewrite Z.eqb_refl. reflexivity.
  - destruct (k =? k') eqn:E; cbn; rewrite E; [reflexivity|exact IH].
Qed.

Lemma Map_get_set_other m k k' v :
  k' <> k -> Map_get (Map_set m k v) k' = Map_get m k'.
Proof.
  intros Hne. induction m as [|[k0 v0] m IH]; cbn.
  - apply Z.eqb_neq in Hne. rewrite Hne. reflexivity.
  - destruct (k =? k0) eqn:E; cbn.
    + apply Z.eqb_eq in E. subst k0.
      apply Z.eqb_neq in Hne. rewrite Hne. reflexivity.
    + destruct (k' =? k0); [reflexivity|exact IH].
Qed.

Lemma Map_get_in m k v : Map_get m k = Some v -> In (k, v) m.
Proof.
  induction m as [|[k' v'] m IH]; cbn; [discriminate|].
  destruct (k =? k') eqn:E.
  - apply Z.eqb_eq in E. intros [= ->]. left. congruence.
  - auto.
Qed.

Lemma Map_in_get m k v :
  NoDup (map fst m) -> In (k, v) m -> Map_get m k = Some v.
Proof.
  induction m as [|[k' v'] m IH]; cbn; [tauto|].
  intros Hnd [H | H].
  - injection H as -> ->. rewrite Z.eqb_refl. reflexivity.
  - inversion Hnd as [|? ? Hk Hm]; subst.
    destruct (k =? k') eqn:E.
    + apply Z.eqb_eq in E. subst k'. exfalso. apply Hk.
      apply (in_map fst) in H. exact H.
    + auto.
Qed.

Lemma Map_get_none m k : Map_get m k = None -> ~ In k (map fst m).
Proof.
  induction m as [|[k' v'] m IH]; cbn; [tauto|].
  destruct (k =? k') eqn:E; [discriminate|].
  apply Z.eqb_neq in E. intros H [H' | H']; [congruence|].
  exact (IH H H').
Qed.

Lemma Map_set_keys m k v :
  map fst (Map_set m k v)
  = match Map_get m k with
    | Some _ => map fst m
    | None => map fst m ++ [k]
    end.
Proof.
  induction m as [|[k' v'] m IH]; cbn; [reflexivity|].
  destruct (k =? k') eqn:E; cbn; [reflexivity|].
  rewrite IH. destruct (Map_get m k); reflexivity.
Qed.

Lemma Map_set_nodup m k v :
  NoDup (map fst m) -> NoDup (map fst (Map_set m k v)).
Proof.
  intros H. rewrite Map_set_keys. destruct (Map_get m k) eqn:E; [exact H|].
  apply NoDup_app; [exact H|repeat constructor; cbn; tauto|].
  intros x Hx [<- | []]. exact (Map_get_none _ _ E Hx).
Qed.

(** The values after [set], up to order. *)
Lemma Map_set_values_found {B} (f : V -> list B) m k v v0 :
  Map_get m k = Some v0 ->
  Permutation (flat_map f (Map_values (Map_set m k v)) ++ f v0)
              (flat_map f (Map_values m) ++ f v).
Proof.
  unfold Map_values. induction m as [|[k' v'] m IH]; cbn; [discriminate|].
  destruct (k =? k') eqn:E; cbn.
  - intros [= ->]. rewrite <- !app_assoc.
    set (R := flat_map f (map snd m)).
    transitivity (f v ++ f v0 ++ R).
    { apply Permutation_app_head. apply Permutation_app_comm. }
    transitivity (f v0 ++ f v ++ R).
    { rewrite !app_assoc. apply Permutation_app_tail.
      apply Permutation_app_comm. }
    apply Permutation_app_head. apply Permutation_app_comm.
  - intros H. rewrite <- !app_assoc. apply Permutation_app_head. exact (IH H).
Qed.

Lemma Map_set_values_fresh m k v :
  Map_get m k = None -> Map_values (Map_set m k v) = Map_values m ++ [v].
Proof.
  unfold Map_values. induction m as [|[k' v'] m IH]; cbn; [reflexivity|].
  destruct (k =? k'); [discriminate|]. cbn. intros H. rewrite (IH H).
  reflexivity.
Qed.
End MapFacts.

Lemma filter_snoc {A} (p : A -> bool) l a :
  filter p (l ++ [a]) = filter p l ++ (if p a then [a] else []).
Proof. rewrite filter_app. reflexivity. Qed.

Section GroupingFacts.
Context {A V : Type}.
Variable key : A -> Z.
Variable fresh : A -> V.
Variable push : V -> A -> V.
Variable members : V -> list A.
Variable P : Z -> V -> Prop.
Hypothesis members_fresh : forall a, members (fresh a) = [].
Hypothesis members_push : forall v a, members (push v a) = members v ++ [a].
Hypothesis P_fresh : forall a, P (key a) (push (fresh a) a).
Hypothesis P_push : forall v a, P (key a) v -> P (key a) (push v a).

(** What holds of the map once the items [l] are grouped into it. *)
Lemma group_fold_get l :
  let m := fold_left (group_step key fresh push) l [] in
  NoDup (map fst m)
  /\ (forall k v, Map_get m k = Some v ->
        members v = filter (fun a => key a =? k) l
        /\ P k v
        /\ exists a, In a l /\ key a = k)
  /\ (forall a, In a l -> Map_get m (key a) <> None)
  /\ Permutation (flat_map members (Map_values m)) l.
Proof.
  induction l as [|a l IH] using rev_ind.
  - cbn. split; [constructor|]. split; [discriminate|]. split; [tauto|].
    constructor.
  - cbn zeta in *. rewrite fold_left_app. cbn [fold_left].
    set (m := fold_left (group_step key fresh push) l []) in *.
    destruct IH as (Hnd & Hget & Hin & Hperm).
    unfold group_step at 1 2 3 4. split; [|split; [|split]].
    + apply Map_set_nodup, Hnd.
    + intros k v Hk. destruct (Z.eq_dec k (key a)) as [-> | Hne].
      * rewrite Map_get_set_same in Hk. injection Hk as <-.
        rewrite members_push, filter_snoc, Z.eqb_refl.
        destruct (Map_get m (key a)) as [v0|] eqn:E.
        -- destruct (Hget _ _ E) as (Hm & HP & _).
           split; [rewrite Hm; reflexivity|]. split; [apply P_push, HP|].
           exists a. split; [apply in_or_app; right; left|]; reflexivity.
        -- split; [|split; [apply P_fresh|]].
           ++ rewrite members_fresh. f_equal. symmetry.
              apply filter_none. apply Forall_forall. intros a' Ha'.
              apply Z.eqb_neq. intros Heq. apply (Hin _ Ha').
              rewrite Heq. exact E.
           ++ exists a. split; [apply in_or_app; right; left|]; reflexivity.
      * rewrite Map_get_set_other in Hk by exact Hne.
        destruct (Hget _ _ Hk) as (Hm & HP & a' & Ha' & Hka').
        rewrite filter_snoc.
        assert (E : (key a =? k) = false) by (apply Z.eqb_neq; congruence).
        rewrite E, app_nil_r. split; [exact Hm|]. split; [exact HP|].
        exists a'. split; [apply in_or_app; left; exact Ha'|exact Hka'].
    + intros a' Ha'. destruct (Z.eq_dec (key a') (key a)) as [Heq | Hne].
      * rewrite Heq, Map_get_set_same. discriminate.
      * rewrite Map_get_set_other by exact Hne. apply Hin.
        apply in_app_or in Ha'. destruct Ha' as [Ha' | [<- | []]];
          [exact Ha'|congruence].
    + destruct (Map_get m (key a)) as [v0|] eqn:E.
      * pose proof (Map_set_values_found members m (key a) (push v0 a) v0 E)
          as Hp.
        rewrite members_push in Hp.
        rewrite app_assoc in Hp.
        rewrite (Permutation_app_comm _ [a]) in Hp. cbn [app] in Hp.
        rewrite (Permutation_app_comm _ (members v0)) in Hp.
        rewrite (Permutation_app_comm (flat_map members (Map_values m))) in Hp.
        rewrite Permutation_middle in Hp.
        apply Permutation_app_inv_l in Hp.
        rewrite Hp, Hperm. apply Permutation_cons_append.
      * rewrite Map_set_values_fresh by exact E.
        rewrite flat_map_app. cbn [flat_map].
        rewrite members_push, members_fresh, app_nil_r. cbn [app].
        apply Permutation_app_tail. exact Hperm.
Qed.

(** The same in terms of the entries of the map. *)
Lemma group_fold_values l :
  let vs := Map_values (fold_left (group_step key fresh push) l []) in
  (forall v, In v vs ->
      exists k, P k v
        /\ members v = filter (fun a => key a =? k) l
        /\ exists a, In a l /\ key a = k)
  /\ (forall a, In a l -> exists v, In v vs /\ P (key a) v /\ In a (members v))
  /\ Permutation (flat_map members vs) l.
Proof.
  cbn zeta. destruct (group_fold_get l) as (Hnd & Hget & Hin & Hperm).
  set (m := fold_left (group_step key fresh push) l []) in *.
  split; [|split; [|exact Hperm]].
  - intros v Hv. unfold Map_values in Hv. apply in_map_iff in Hv.
    destruct Hv as ([k v'] & <- & Hkv). cbn [snd].
    apply (Map_in_get _ _ _ Hnd) in Hkv.
    destruct (Hget _ _ Hkv) as (Hm & HP & Ha). exists k. auto.
  - intros a Ha. destruct (Map_get m (key a)) as [v|] eqn:E.
    + exists v. destruct (Hget _ _ E) as (Hm & HP & _).
      split; [|split; [exact HP|]].
      * unfold Map_values. apply in_map_iff. exists (key a, v).
        split; [reflexivity|apply Map_get_in, E].
      * rewrite Hm. apply filter_In. split; [exact Ha|apply Z.eqb_refl].
    + exfalso. exact (Hin _ Ha E).
Qed.
End GroupingFacts.

(* ====================================================================== *)
(** * Calendar arithmetic                                                  *)
(* ====================================================================== *)

Lemma Day_MakeDate d tm :
  0 <= tm < Date.msPerDay -> Date.Day (Date.MakeDate d tm) = d.
Proof.
  intros H. unfold Date.Day, Date.MakeDate, Date.msPerDay in *.
  rewrite Z.add_comm, Z.div_add by lia. rewrite Z.div_small by lia. lia.
Qed.

Lemma TimeWithinDay_range t : 0 <= Date.TimeWithinDay t < Date.msPerDay.
Proof. apply Z.mod_pos_bound. reflexivity. Qed.

Lemma YearFromTime_spec t :
  Date.DayFromYear (Date.YearFromTime t) <= Date.Day t
  < Date.DayFromYear (Date.YearFromTime t + 1).
Proof.
  unfold Date.YearFromTime. set (d := Date.Day t).
  set (y := 1970 + 400 * d / 146097).
  destruct (Date.DayFromYear (y + 1) <=? d) eqn:E1;
    [|destruct (Date.DayFromYear y <=? d) eqn:E2].
  - apply Z.leb_le in E1. split; [exact E1|].
    unfold Date.DayFromYear in *. subst y.
    Z.div_mod_to_equations. lia.
  - apply Z.leb_gt in E1. apply Z.leb_le in E2. lia.
  - apply Z.leb_gt in E1. apply Z.leb_gt in E2.
    replace (y - 1 + 1) with y by lia. split; [|lia].
    unfold Date.DayFromYear in *. subst y.
    Z.div_mod_to_equations. lia.
Qed.

Lemma MonthFromTime_range t : 0 <= Date.MonthFromTime t <= 11.
Proof.
  unfold Date.MonthFromTime.
  repeat match goal with
         | |- context [if ?b then _ else _] => destruct b
         end; lia.
Qed.

(** [setDate(getDate() + k)] moves the date by [k] days. *)
Lemma MakeDay_shift t k :
  Date.MakeDay (Date.YearFromTime t) (Date.MonthFromTime t)
               (Date.DateFromTime t + k)
  = Date.Day t + k.
Proof.
  pose proof (MonthFromTime_range t) as Hm.
  unfold Date.MakeDay, Date.DateFromTime, Date.DayWithinYear.
  rewrite (Z.div_small (Date.MonthFromTime t) 12) by lia.
  rewrite (Z.mod_small (Date.MonthFromTime t) 12) by lia.
  rewrite Z.add_0_r. lia.
Qed.

Section LocalZoneFacts.
Variable LocalTZA : Z -> bool -> Z.

Lemma setHours_midnight tv :
  Date.setHours LocalTZA tv 0 0 0 0
  = Date.midnight LocalTZA (Date.local_day LocalTZA tv).
Proof. reflexivity. Qed.

(** The zones for which the grouper is studied: a local time converted to
    UTC and back falls on the same calendar day.  Every zone with a fixed
    offset is one. *)
Hypothesis zone_day :
  forall x, Date.Day (Date.LocalTime LocalTZA (Date.UTC LocalTZA x))
            = Date.Day x.

Lemma local_day_midnight d :
  Date.local_day LocalTZA (Date.midnight LocalTZA d) = d.
Proof.
  unfold Date.local_day, Date.midnight. rewrite zone_day.
  apply Day_MakeDate. unfold Date.msPerDay. lia.
Qed.

Lemma midnight_inj d1 d2 :
  Date.midnight LocalTZA d1 = Date.midnight LocalTZA d2 -> d1 = d2.
Proof.
  intros H. apply (f_equal (Date.local_day LocalTZA)) in H.
  rewrite !local_day_midnight in H. exact H.
Qed.

Lemma local_day_setDate tv k :
  Date.local_day LocalTZA
    (Date.setDate LocalTZA tv (Date.getDate LocalTZA tv + k))
  = Date.local_day LocalTZA tv + k.
Proof.
  unfold Date.local_day at 1. unfold Date.setDate, Date.getDate.
  rewrite zone_day, MakeDay_shift.
  apply Day_MakeDate, TimeWithinDay_range.
Qed.

(** The offset from a day of the week to the Monday of its week. *)
Lemma getMonday_midnight tv :
  getMonday LocalTZA tv
  = Date.midnight LocalTZA
      (Date.local_day LocalTZA tv
       + ((if Date.getDay LocalTZA tv =? 0 then -6 else 1)
          - Date.getDay LocalTZA tv)).
Proof.
  unfold getMonday. rewrite setHours_midnight, local_day_setDate.
  reflexivity.
Qed.

Lemma getDay_range tv : 0 <= Date.getDay LocalTZA tv <= 6.
Proof.
  unfold Date.getDay, Date.WeekDay.
  pose proof (Z.mod_pos_bound (Date.Day (Date.LocalTime LocalTZA tv) + 4) 7).
  lia.
Qed.

Lemma getDay_midnight d :
  Date.getDay LocalTZA (Date.midnight LocalTZA d) = (d + 4) mod 7.
Proof.
  unfold Date.getDay, Date.WeekDay.
  change (Date.Day (Date.LocalTime LocalTZA (Date.midnight LocalTZA d)))
    with (Date.local_day LocalTZA (Date.midnight LocalTZA d)).
  rewrite local_day_midnight. reflexivity.
Qed.

Lemma getMonday_is_monday tv :
  Date.getDay LocalTZA (getMonday LocalTZA tv) = 1.
Proof.
  rewrite getMonday_midnight, getDay_midnight.
  unfold Date.getDay, Date.WeekDay, Date.local_day.
  set (d := Date.Day (Date.LocalTime LocalTZA tv)).
  destruct ((d + 4) mod 7 =? 0) eqn:E.
  - apply Z.eqb_eq in E. Z.div_mod_to_equations. lia.
  - apply Z.eqb_neq in E. Z.div_mod_to_equations. lia.
Qed.

Lemma getMonday_within_week tv :
  Date.local_day LocalTZA tv - 6
  <= Date.local_day LocalTZA (getMonday LocalTZA tv)
  <= Date.local_day LocalTZA tv.
Proof.
  rewrite getMonday_midnight, local_day_midnight.
  pose proof (getDay_range tv).
  destruct (Date.getDay LocalTZA tv =? 0) eqn:E.
  - apply Z.eqb_eq in E. lia.
  - apply Z.eqb_neq in E. lia.
Qed.
Lemma getMonday_is_midnight tv :
  getMonday LocalTZA tv
  = Date.midnight LocalTZA (Date.local_day LocalTZA (getMonday LocalTZA tv)).
Proof.
  rewrite getMonday_midnight, local_day_midnight. reflexivity.
Qed.

Lemma getMonday_sunday tv :
  Date.getDay LocalTZA tv = 0 ->
  getMonday LocalTZA tv
  = Date.midnight LocalTZA (Date.local_day LocalTZA tv - 6).
Proof.
  intros H. rewrite getMonday_midnight, H, Z.eqb_refl.
  replace (Date.local_day LocalTZA tv + (-6 - 0))
    with (Date.local_day LocalTZA tv - 6) by lia.
  reflexivity.
Qed.

Lemma getMonday_monday tv :
  Date.getDay LocalTZA tv = 1 ->
  getMonday LocalTZA tv = Date.midnight LocalTZA (Date.local_day LocalTZA tv).
Proof.
  intros H. rewrite getMonday_midnight, H.
  change (1 =? 0) with false. cbv iota.
  replace (Date.local_day LocalTZA tv + (1 - 1))
    with (Date.local_day LocalTZA tv) by lia.
  reflexivity.
Qed.
End LocalZoneFacts.

(* ====================================================================== *)
(** * groupBlocksByWeek                                                    *)
(* ====================================================================== *)

Section GrouperFacts.
Variable LocalTZA : Z -> bool -> Z.

Lemma add_block_step :
  add_block LocalTZA
  = group_step (day_of LocalTZA) (fresh_day LocalTZA) push_block.
Proof. reflexivity. Qed.

Lemma add_day_step :
  add_day LocalTZA
  = group_step (week_of LocalTZA) (fresh_week LocalTZA) push_day.
Proof. reflexivity. Qed.

Lemma fold_add_snoc {A} (f : A -> JS.value) l x a :
  fold_left JS.add (map f (l ++ [x])) a
  = JS.add (fold_left JS.add (map f l) a) (f x).
Proof. rewrite map_app, fold_left_app. reflexivity. Qed.

(** The days: each holds the blocks of its key, in the order of the input. *)
Lemma group_by_day_spec bs :
  let ds := group_by_day LocalTZA bs in
  (forall dd, In dd ds ->
      exists k, day_ok k dd
        /\ blocks dd = filter (fun b => day_of LocalTZA b =? k) bs
        /\ exists b, In b bs /\ day_of LocalTZA b = k)
  /\ (forall b, In b bs ->
        exists dd, In dd ds /\ day_ok (day_of LocalTZA b) dd
                   /\ In b (blocks dd))
  /\ Permutation (flat_map blocks ds) bs.
Proof.
  unfold group_by_day. rewrite add_block_step.
  apply (group_fold_values (day_of LocalTZA) (fresh_day LocalTZA) push_block
           blocks day_ok).
  - reflexivity.
  - reflexivity.
  - intros b. split; reflexivity.
  - intros dd b [Hd Ht]. split; [exact Hd|].
    cbn [push_block day_totalDurationSec blocks].
    rewrite fold_add_snoc, Ht. reflexivity.
Qed.

Lemma group_by_week_spec ds :
  let ws := group_by_week LocalTZA ds in
  (forall w, In w ws ->
      exists k, week_ok k w
        /\ days w = filter (fun d => week_of LocalTZA d =? k) ds
        /\ exists d, In d ds /\ week_of LocalTZA d = k)
  /\ (forall d, In d ds ->
        exists w, In w ws /\ week_ok (week_of LocalTZA d) w /\ In d (days w))
  /\ Permutation (flat_map days ws) ds.
Proof.
  unfold group_by_week. rewrite add_day_step.
  apply (group_fold_values (week_of LocalTZA) (fresh_week LocalTZA) push_day
           days week_ok).
  - reflexivity.
  - reflexivity.
  - intros d. split; reflexivity.
  - intros w d [Hw Ht]. split; [exact Hw|].
    cbn [push_day week_totalDurationSec days].
    rewrite fold_add_snoc, Ht. reflexivity.
Qed.

Lemma keyed_values_nodup {V} (field : V -> Z) (m : Map V) :
  NoDup (map fst m) ->
  (forall k v, Map_get m k = Some v -> field v = k) ->
  NoDup (map field (Map_values m)).
Proof.
  intros Hnd Hf. unfold Map_values. rewrite map_map.
  replace (map (fun x => field (snd x)) m) with (map fst m); [exact Hnd|].
  apply map_ext_in. intros [k v] Hin. cbn.
  symmetry. apply Hf. apply Map_in_get; assumption.
Qed.

Lemma group_by_day_dates_nodup bs :
  NoDup (map date (group_by_day LocalTZA bs)).
Proof.
  unfold group_by_day. rewrite add_block_step.
  destruct (group_fold_get (day_of LocalTZA) (fresh_day LocalTZA) push_block
              blocks day_ok) with (l := bs) as (Hnd & Hget & _).
  - reflexivity.
  - reflexivity.
  - intros b. split; reflexivity.
  - intros dd b [Hd Ht]. split; [exact Hd|].
    cbn [push_block day_totalDurationSec blocks].
    rewrite fold_add_snoc, Ht. reflexivity.
  - apply keyed_values_nodup; [exact Hnd|].
    intros k v Hk. apply (Hget _ _ Hk).
Qed.

Lemma group_by_week_starts_nodup ds :
  NoDup (map weekStart (group_by_week LocalTZA ds)).
Proof.
  unfold group_by_week. rewrite add_day_step.
  destruct (group_fold_get (week_of LocalTZA) (fresh_week LocalTZA) push_day
              days week_ok) with (l := ds) as (Hnd & Hget & _).
  - reflexivity.
  - reflexivity.
  - intros d. split; reflexivity.
  - intros w d [Hw Ht]. split; [exact Hw|].
    cbn [push_day week_totalDurationSec days].
    rewrite fold_add_snoc, Ht. reflexivity.
  - apply keyed_values_nodup; [exact Hnd|].
    intros k v Hk. apply (Hget _ _ Hk).
Qed.

Lemma weeks_perm bs :
  Permutation (groupBlocksByWeek LocalTZA bs)
              (group_by_week LocalTZA (group_by_day LocalTZA bs)).
Proof. apply sort_by_perm. Qed.

Lemma flat_map_perm {A B} (f : A -> list B) l l' :
  Permutation l l' -> Permutation (flat_map f l) (flat_map f l').
Proof.
  induction 1 as [| x l l' _ IH | x y l | l l' l'' _ IH1 _ IH2]; cbn.
  - constructor.
  - apply Permutation_app_head, IH.
  - rewrite !app_assoc. apply Permutation_app_tail, Permutation_app_comm.
  - etransitivity; eassumption.
Qed.

Hypothesis zone_day :
  forall x, Date.Day (Date.LocalTime LocalTZA (Date.UTC LocalTZA x))
            = Date.Day x.

Lemma day_of_eqb b k d :
  k = Date.midnight LocalTZA d ->
  (day_of LocalTZA b =? k) = (Date.local_day LocalTZA (from b) =? d).
Proof.
  intros ->. unfold day_of. rewrite setHours_midnight.
  destruct (Date.local_day LocalTZA (from b) =? d) eqn:E.
  - apply Z.eqb_eq in E. rewrite E. apply Z.eqb_refl.
  - apply Z.eqb_neq in E. apply Z.eqb_neq. intros H. apply E.
    eapply midnight_inj; eassumption.
Qed.

Lemma day_key_midnight bs dd k b :
  In dd (group_by_day LocalTZA bs) ->
  date dd = k -> day_of LocalTZA b = k ->
  k = Date.midnight LocalTZA (Date.local_day LocalTZA (date dd)).
Proof.
  intros _ Hdate Hkb. rewrite Hdate, <- Hkb. unfold day_of.
  rewrite setHours_midnight, local_day_midnight by exact zone_day.
  reflexivity.
Qed.

Lemma day_date_midnight bs dd :
  In dd (group_by_day LocalTZA bs) ->
  date dd = Date.midnight LocalTZA (Date.local_day LocalTZA (date dd)).
Proof.
  intros Hdd. destruct (group_by_day_spec bs) as (Hds & _ & _).
  destruct (Hds dd Hdd) as (k & [Hdate _] & _ & b & _ & Hkb).
  rewrite <- (day_key_midnight bs dd k b Hdd Hdate Hkb) at 1. exact Hdate.
Qed.

(** C3. In a zone where a local time keeps its calendar day through UTC,
    every block is put, whole, in the one day whose date is local midnight
    of the calendar day of its [from]; a day holds exactly the blocks
    whose [from] falls on its calendar day, in the order of the input,
    whatever their [to]; its total is the sum of the totals of its blocks;
    and the days of the weeks returned are these days. *)
Theorem blocks_grouped_by_day_of_from bs :
  let ds := group_by_day LocalTZA bs in
  Permutation (flat_map days (groupBlocksByWeek LocalTZA bs)) ds
  /\ (forall b, In b bs ->
        exists dd, In dd ds /\ In b (blocks dd)
          /\ date dd
             = Date.midnight LocalTZA (Date.local_day LocalTZA (from b)))
  /\ (forall dd, In dd ds ->
        blocks dd
        = filter (fun b => Date.local_day LocalTZA (from b)
                           =? Date.local_day LocalTZA (date dd)) bs
        /\ blocks dd <> []
        /\ date dd
           = Date.midnight LocalTZA (Date.local_day LocalTZA (date dd))
        /\ day_totalDurationSec dd
           = js_sum (map totalDurationSec (blocks dd)))
  /\ Permutation (flat_map blocks ds) bs
  /\ NoDup (map date ds).
Proof.
  cbn zeta. destruct (group_by_day_spec bs) as (Hds & Hbs & Hperm).
  split; [|split; [|split; [|split]]].
  - rewrite (flat_map_perm days _ _ (weeks_perm bs)).
    apply group_by_week_spec.
  - intros b Hb. destruct (Hbs b Hb) as (dd & Hdd & [Hdate _] & Hin).
    exists dd. split; [exact Hdd|]. split; [exact Hin|].
    rewrite Hdate. apply setHours_midnight.
  - intros dd Hdd.
    destruct (Hds dd Hdd) as (k & [Hdate Htot] & Hmem & b & Hb & Hkb).
    pose proof (day_key_midnight bs dd k b Hdd Hdate Hkb) as Hk.
    split; [|split; [|split]].
    + rewrite Hmem. apply filter_ext. intros b'. apply day_of_eqb. exact Hk.
    + rewrite Hmem. intros Hnil.
      assert (Hin : In b (filter (fun b' => day_of LocalTZA b' =? k) bs)).
      { apply filter_In. split; [exact Hb|]. rewrite Hkb. apply Z.eqb_refl. }
      rewrite Hnil in Hin. exact Hin.
    + rewrite <- Hk. exact Hdate.
    + exact Htot.
  - exact Hperm.
  - apply group_by_day_dates_nodup.
Qed.

Lemma week_start_of_day bs w dd :
  In w (groupBlocksByWeek LocalTZA bs) -> In dd (days w) ->
  In dd (group_by_day LocalTZA bs)
  /\ weekStart w = getMonday LocalTZA (date dd).
Proof.
  intros Hw Hdd.
  destruct (group_by_week_spec (group_by_day LocalTZA bs)) as (Hws & _ & _).
  apply (Permutation_in _ (weeks_perm bs)) in Hw.
  destruct (Hws w Hw) as (k & [Hstart _] & Hmem & _).
  rewrite Hmem in Hdd. apply filter_In in Hdd. destruct Hdd as [Hdd Hk].
  apply Z.eqb_eq in Hk. split; [exact Hdd|].
  rewrite Hstart, <- Hk. reflexivity.
Qed.

(** C4. In such a zone the weeks come in ascending order of [weekStart]
    and no two have the same; every day is in the week whose [weekStart]
    is [getMonday] of its date, which is local midnight of a Monday, the
    day itself or one of the six days before it: a Sunday is in the week
    of the Monday six days earlier, and a Monday starts its own week. *)
Theorem weeks_start_on_monday bs :
  let ws := groupBlocksByWeek LocalTZA bs in
  Sorted (key_le weekStart) ws
  /\ NoDup (map weekStart ws)
  /\ (forall dd, In dd (group_by_day LocalTZA bs) ->
        exists w, In w ws /\ In dd (days w))
  /\ (forall w dd, In w ws -> In dd (days w) ->
        weekStart w = getMonday LocalTZA (date dd)
        /\ Date.getDay LocalTZA (weekStart w) = 1
        /\ weekStart w
           = Date.midnight LocalTZA (Date.local_day LocalTZA (weekStart w))
        /\ Date.local_day LocalTZA (date dd) - 6
           <= Date.local_day LocalTZA (weekStart w)
           <= Date.local_day LocalTZA (date dd)
        /\ (Date.getDay LocalTZA (date dd) = 0 ->
            weekStart w
            = Date.midnight LocalTZA
                (Date.local_day LocalTZA (date dd) - 6))
        /\ (Date.getDay LocalTZA (date dd) = 1 -> weekStart w = date dd)).
Proof.
  intros ws. subst ws.
  split; [|split; [|split]].
  - exact (sort_by_sorted weekStart _).
  - eapply Permutation_NoDup; [|apply group_by_week_starts_nodup].
    apply Permutation_map. symmetry. apply weeks_perm.
  - intros dd Hdd.
    destruct (group_by_week_spec (group_by_day LocalTZA bs)) as (_ & Hds & _).
    destruct (Hds dd Hdd) as (w & Hw & _ & Hin).
    exists w. split; [|exact Hin].
    eapply Permutation_in; [symmetry; apply weeks_perm|exact Hw].
  - intros w dd Hw Hdd.
    destruct (week_start_of_day bs w dd Hw Hdd) as [Hday Hmon].
    pose proof (day_date_midnight bs dd Hday) as Hmid.
    split; [exact Hmon|].
    split; [rewrite Hmon; apply getMonday_is_monday, zone_day|].
    split; [rewrite Hmon; apply getMonday_is_midnight, zone_day|].
    split; [rewrite Hmon; apply getMonday_within_week, zone_day|].
    split.
    + intros Hsun. rewrite Hmon. apply getMonday_sunday; assumption.
    + intros Hmonday. rewrite Hmon.
      rewrite (getMonday_monday LocalTZA zone_day _ Hmonday).
      symmetry. exact Hmid.
Qed.
End GrouperFacts.

(* ====================================================================== *)
(** * The theorems at concrete inputs                                      *)
(* ====================================================================== *)

(** A gap of exactly the threshold (300 s) merges and is listed under the
    title "Write" of the earlier record; one millisecond more splits. *)
Lemma threshold_decides_merge_witness :
  (aggregateToBlocks [entry_at 0 "Write"; entry_at 300000 "Read"] 300
   = [ make_block 0 300000
         (accumulate JS.empty "Write" (Qmake 300000 1000)) ]
   /\ JS.get (accumulate JS.empty "Write" (Qmake 300000 1000)) "Write"
      = JS.Num (Qmake 300000 1000)
   /\ is_number (JS.Num (Qmake 300000 1000)))
  /\ aggregateToBlocks [entry_at 0 "Write"; entry_at 300001 "Read"] 300
     = [ lone_block (entry_at 0 "Write"); lone_block (entry_at 300001 "Read") ].
Proof.
  split.
  - destruct (threshold_decides_merge 300 [] (entry_at 0 "Write")
                (entry_at 300000 "Read") [] (start (entry_at 0 "Write"))
                eq_refl) as (Hmerge & _ & _).
    assert (Hle : (gapSec (entry_at 0 "Write") (entry_at 300000 "Read")
                   <= 300)%Q) by (unfold Qle; simpl; lia).
    destruct (Hmerge Hle) as (_ & Hout & Hattr & Hnum & _).
    split; [exact Hout|]. split.
    + refine (proj1 (Hattr _)). discriminate.
    + exact (Hnum eq_refl).
  - destruct (threshold_decides_merge 300 [] (entry_at 0 "Write")
                (entry_at 300001 "Read") [] (start (entry_at 0 "Write"))
                eq_refl) as (_ & Hsplit & _).
    assert (Hlt : (300 < gapSec (entry_at 0 "Write")
                               (entry_at 300001 "Read"))%Q)
      by (unfold Qlt; simpl; lia).
    exact (proj1 (proj2 (Hsplit Hlt))).
Defined.

(** Two records 100 s apart, 400 s later a third: the final record lies
    within the last block, which is the one that was open. *)
Lemma open_block_always_emitted_witness :
  from (lone_block (entry_at 500000 "c")) <= 500000
  /\ 500000 = to (lone_block (entry_at 500000 "c")).
Proof.
  refine (proj2 (proj2 open_block_always_emitted)
            [entry_at 0 "a"; entry_at 100000 "b"] (entry_at 500000 "c") 300%Q
            [make_block 0 100000 (accumulate JS.empty "a" (Qmake 100000 1000))]
            (lone_block (entry_at 500000 "c")) _ _).
  - repeat constructor; simpl; lia.
  - reflexivity.
Defined.

Lemma negative_threshold_one_block_per_record_witness :
  aggregateToBlocks [entry_at 0 "a"; entry_at 0 "b"; entry_at 1000 "a"]
                    (Qmake (-1) 1)
  = [ lone_block (entry_at 0 "a"); lone_block (entry_at 0 "b");
      lone_block (entry_at 1000 "a") ].
Proof.
  refine (proj1 (negative_threshold_one_block_per_record
                   [entry_at 0 "a"; entry_at 0 "b"; entry_at 1000 "a"]
                   (Qmake (-1) 1) _ _)).
  - unfold Qlt; simpl; lia.
  - repeat constructor; simpl; lia.
Defined.

Lemma blocks_chronological_and_disjoint_witness :
  StronglySorted (fun b1 b2 => from b1 < from b2)
    (aggregateToBlocks
       [entry_at 0 "a"; entry_at 100000 "a"; entry_at 500000 "b";
        entry_at 500000 "c"; entry_at 900000 "a"] 300).
Proof.
  refine (proj2 (proj2 (proj2
            (blocks_chronological_and_disjoint
               [entry_at 0 "a"; entry_at 100000 "a"; entry_at 500000 "b";
                entry_at 500000 "c"; entry_at 900000 "a"] 300 _ _)))).
  - unfold Qle; simpl; lia.
  - repeat constructor; simpl; lia.
Defined.

Lemma activities_indices_then_first_occurrence_witness :
  titles_of
    (block_of_run (entry_at 0 "b", [entry_at 1000 "1"; entry_at 2000 "b"]))
  = ["1"; "b"].
Proof.
  refine (proj1 (activities_indices_then_first_occurrence
                   [entry_at 0 "b"; entry_at 1000 "1"; entry_at 2000 "b"] 300
                   (block_of_run
                      (entry_at 0 "b", [entry_at 1000 "1"; entry_at 2000 "b"]))
                   (entry_at 0 "b", [entry_at 1000 "1"; entry_at 2000 "b"])
                   _ _)).
  - left. reflexivity.
  - simpl. intros [H | [H | []]]; discriminate H.
Defined.

Lemma one_hour_east_zone_day x :
  Date.Day (Date.LocalTime one_hour_east (Date.UTC one_hour_east x))
  = Date.Day x.
Proof.
  unfold Date.LocalTime, Date.UTC, one_hour_east. f_equal. lia.
Defined.

(** The block from Monday 23:00 to Tuesday 01:00 is among Monday's. *)
Lemma blocks_grouped_by_day_of_from_witness :
  NoDup (map date (group_by_day one_hour_east sample_blocks))
  /\ Permutation
       (flat_map blocks (group_by_day one_hour_east sample_blocks))
       sample_blocks.
Proof.
  pose proof (blocks_grouped_by_day_of_from one_hour_east
                one_hour_east_zone_day sample_blocks) as H.
  split; [exact (proj2 (proj2 (proj2 (proj2 H))))
         |exact (proj1 (proj2 (proj2 (proj2 H))))].
Defined.

Lemma weeks_start_on_monday_witness :
  Sorted (key_le weekStart) (groupBlocksByWeek one_hour_east sample_blocks).
Proof.
  exact (proj1 (weeks_start_on_monday one_hour_east one_hour_east_zone_day
                  sample_blocks)).
Defined.

(** The line "bad" has one field and is dropped. *)
Lemma malformed_lines_are_dropped_witness :
  parseCsv sample_parseDate sample_Number
    ("bad" ++ String LF "t1,App,Read,1")
  = parseCsv sample_parseDate sample_Number "t1,App,Read,1".
Proof.
  refine (proj1 (proj2 (proj2 (proj2
            (malformed_lines_are_dropped sample_parseDate sample_Number))))
            "bad" "t1,App,Read,1" _ _).
  - reflexivity.
  - reflexivity.
Defined.

(* ====================================================================== *)
(** * Evaluations                                                          *)
(* ====================================================================== *)

(** Three records at 09:00, 09:04 and 09:10 with a threshold of 300 s: the
    first gap (240 s) is merged under "Write", the second (360 s) splits. *)
Example two_blocks_at_threshold_300 :
  aggregateToBlocks
    [entry_at 0 "Write"; entry_at 240000 "Write"; entry_at 600000 "Read"] 300
  = [ {| from := 0; to := 240000;
         totalDurationSec := JS.Num (0 + Qmake 240000 1000);
         activities :=
           [ {| activity_title := "Write";
                durationSec := JS.Num (0 + Qmake 240000 1000) |} ] |};
      {| from := 600000; to := 600000;
         totalDurationSec := JS.Num 0; activities := [] |} ].
Proof. reflexivity. Qed.

(** A repeated title is one activity; array indices come first. *)
Example activities_of_one_block :
  map (fun b => map activity_title (activities b))
      (aggregateToBlocks
         [entry_at 0 "mail"; entry_at 1000 "10"; entry_at 2000 "editor";
          entry_at 3000 "9"; entry_at 4000 "mail"; entry_at 5000 "01";
          entry_at 6000 "end"] 300)
  = [["9"; "10"; "mail"; "editor"; "01"]].
Proof. reflexivity. Qed.

Example year_month_date_weekday :
  map (fun t => (Date.YearFromTime t, Date.MonthFromTime t,
                 Date.DateFromTime t, Date.WeekDay t))
      [0; -1; 1709164800000; 1709251200000; 8640000000000000]
  = [(1970, 0, 1, 4); (1969, 11, 31, 3); (2024, 1, 29, 4); (2024, 2, 1, 5);
     (275760, 8, 13, 6)].
Proof. reflexivity. Qed.

Example getMonday_of_a_sunday_and_a_monday :
  getMonday one_hour_east (on_day 6 (hours 9)) = monday_1_jan
  /\ getMonday one_hour_east (on_day 7 (hours 8)) = on_day 7 0
  /\ Date.getDay one_hour_east (on_day 6 (hours 9)) = 0.
Proof. repeat split. Qed.

(** Two weeks; Monday holds three blocks in input order, among them the
    one that ends on Tuesday; Sunday belongs to the week of 1 January. *)
Example sample_weeks :
  map (fun w => (weekStart w,
                 map (fun d => (date d, map from (blocks d))) (days w)))
      (groupBlocksByWeek one_hour_east sample_blocks)
  = [ (monday_1_jan,
       [ (monday_1_jan,
          [on_day 0 (hours 9); on_day 0 (hours 23); on_day 0 (hours 14)]);
         (on_day 6 0, [on_day 6 (hours 9)]) ]);
      (on_day 7 0, [ (on_day 7 0, [on_day 7 (hours 8)]) ]) ].
Proof. reflexivity. Qed.

(** Invalid lines are skipped, and the two records at "t2" keep the order
    of their lines. *)
Example sample_parse :
  map (fun e => (timestamp e, title e))
      (parseCsv sample_parseDate sample_Number
         ("t2,App,Read,1,2" ++ newline ++ "bad" ++ newline ++ newline
          ++ " t0 , App, Write " ++ String CR newline ++ "x,y,z" ++ newline
          ++ "t2,App,Other,1"))
  = [(0, "Write"); (2000, "Read"); (2000, "Other")].
Proof. reflexivity. Qed.

(* ====================================================================== *)
(** * More about aggregateToBlocks                                         *)
(* ====================================================================== *)

Lemma loop_length threshold rest : forall s c,
  List.length (output (loop threshold s c rest))
  = (List.length (blocks_so_far s) + 1
     + exceeding threshold (gaps_of c rest))%nat.
Proof.
  induction rest as [|n rest IH]; intros s c.
  - unfold output. rewrite length_app. cbn. lia.
  - cbn [loop gaps_of]. rewrite IH. unfold step, exceeding.
    cbn [filter snd].
    destruct (Qle_bool (gapSec c n) threshold); cbn [negb blocks_so_far].
    + reflexivity.
    + rewrite length_app. cbn [List.length]. lia.
Qed.

Lemma exceeding_bound threshold gs :
  (exceeding threshold gs <= List.length gs)%nat.
Proof. apply filter_length_le. Qed.

Lemma gaps_of_length rest : forall c,
  List.length (gaps_of c rest) = List.length rest.
Proof.
  induction rest as [|n rest IH]; intros c; [reflexivity|].
  cbn [gaps_of List.length]. rewrite IH. reflexivity.
Qed.

Lemma exceeding_antitone t1 t2 gs :
  (t1 <= t2)%Q -> (exceeding t2 gs <= exceeding t1 gs)%nat.
Proof.
  intros Hle. unfold exceeding. induction gs as [|g gs IH]; [apply le_n|].
  cbn [filter].
  destruct (Qle_bool (snd g) t1) eqn:E1; cbn [negb].
  - assert (E2 : Qle_bool (snd g) t2 = true).
    { apply Qle_bool_iff. apply Qle_bool_iff in E1.
      eapply Qle_trans; eassumption. }
    rewrite E2. exact IH.
  - destruct (Qle_bool (snd g) t2); cbn [negb List.length]; lia.
Qed.

Lemma aggregate_length first rest threshold :
  List.length (aggregateToBlocks (first :: rest) threshold)
  = S (exceeding threshold (gaps_of first rest)).
Proof.
  unfold aggregateToBlocks. cbn [scan_of].
  change (List.length (output (loop threshold (start first) first rest))
          = S (exceeding threshold (gaps_of first rest))).
  rewrite loop_length. cbn [start blocks_so_far List.length]. lia.
Qed.

(** X1. The number of blocks is one more than the number of consecutive
    gaps that exceed the threshold (none for no record), so it is at most
    the number of records, and raising the threshold never gives more
    blocks. *)
Theorem block_count entries threshold :
  List.length (aggregateToBlocks entries threshold)
  = match entries with
    | [] => 0%nat
    | _ :: _ => S (exceeding threshold (gaps entries))
    end
  /\ (List.length (aggregateToBlocks entries threshold)
      <= List.length entries)%nat
  /\ (forall larger,
        (threshold <= larger)%Q ->
        (List.length (aggregateToBlocks entries larger)
         <= List.length (aggregateToBlocks entries threshold))%nat).
Proof.
  destruct entries as [|first rest].
  - cbn. repeat split; intros; lia.
  - split; [apply aggregate_length|]. split.
    + rewrite aggregate_length. cbn [List.length].
      pose proof (exceeding_bound threshold (gaps_of first rest)).
      rewrite gaps_of_length in H. lia.
    + intros larger Hle. rewrite !aggregate_length.
      pose proof (exceeding_antitone _ _ (gaps_of first rest) Hle). lia.
Qed.

(** ** Every record is in one block *)

Lemma runs_from_bounds threshold rest : forall c,
  chronological (c :: rest) ->
  Forall (fun e => timestamp c <= timestamp e
                   <= timestamp (last (fst (runs_from threshold c rest)) c))
         (c :: fst (runs_from threshold c rest))
  /\ Forall (fun r => Forall (fun e => timestamp (fst r) <= timestamp e
                                       <= timestamp (last (snd r) (fst r)))
                             (fst r :: snd r))
            (snd (runs_from threshold c rest)).
Proof.
  induction rest as [|n rest IH]; intros c Hc.
  - cbn. split; repeat constructor; lia.
  - inversion Hc as [|? ? Hrest Hhd]; subst. inversion Hhd; subst.
    destruct (IH n Hrest) as [IH1 IH2]. cbn [runs_from].
    destruct (runs_from threshold n rest) as [r rs]. cbn [fst snd] in *.
    assert (Hn : timestamp n <= timestamp (last r n)).
    { inversion IH1; subst. lia. }
    destruct (Qle_bool (gapSec c n) threshold); cbn [fst snd].
    + split; [|exact IH2]. rewrite last_cons. constructor; [lia|].
      eapply Forall_impl; [|exact IH1]. cbn. intros; lia.
    + split; [repeat constructor; cbn; lia|].
      constructor; [exact IH1|exact IH2].
Qed.

Lemma record_in_a_block entries threshold e :
  chronological entries -> In e entries ->
  exists blk, In blk (aggregateToBlocks entries threshold)
              /\ from blk <= timestamp e <= to blk.
Proof.
  intros Hc He. rewrite aggregate_runs.
  rewrite <- (runs_concat threshold entries) in He.
  apply in_flat_map in He. destruct He as (r & Hr & Her).
  exists (block_of_run r). split; [apply in_map, Hr|].
  destruct entries as [|first rest]; [contradiction|].
  unfold runs in Hr.
  destruct (runs_from_bounds threshold rest first Hc) as [H1 H2].
  destruct (runs_from threshold first rest) as [r0 rs]. cbn [fst snd] in *.
  unfold block_of_run. cbn [from to make_block].
  destruct Hr as [<- | Hr]; cbn [fst snd] in *.
  - rewrite Forall_forall in H1. exact (H1 _ Her).
  - rewrite Forall_forall in H2. specialize (H2 _ Hr).
    rewrite Forall_forall in H2. exact (H2 _ Her).
Qed.

Lemma aggregate_disjoint entries threshold :
  (0 <= threshold)%Q -> chronological entries ->
  StronglySorted (fun b1 b2 => to b1 < from b2)
                 (aggregateToBlocks entries threshold)
  /\ Forall (fun b => from b <= to b) (aggregateToBlocks entries threshold).
Proof.
  intros H0 Hc. split; [|apply aggregate_from_to, Hc].
  rewrite aggregate_runs. destruct entries as [|e0 rest]; [constructor|].
  unfold runs.
  pose proof (runs_from_separated threshold rest e0 Hc) as [_ Hsep].
  destruct (runs_from threshold e0 rest) as [r rs]. cbn [fst snd map] in *.
  destruct (separated_sorted _ _ _ H0 Hsep) as (S1 & _ & S3).
  constructor; assumption.
Qed.

Lemma StronglySorted_split {A} (R : A -> A -> Prop) l1 x l2 :
  StronglySorted R (l1 ++ x :: l2) ->
  Forall (fun y => R y x) l1 /\ Forall (R x) l2.
Proof.
  induction l1 as [|y l1 IH]; cbn [app]; intros H.
  - inversion H; subst. split; [constructor|assumption].
  - inversion H as [|? ? Hs Hy]; subst. destruct (IH Hs) as [H1 H2].
    split; [|exact H2]. constructor; [|exact H1].
    rewrite Forall_forall in Hy. apply Hy. apply in_or_app. right. left.
    reflexivity.
Qed.

(** X2. For a time-sorted input and a threshold that is not negative,
    every record lies in exactly one block: its time is within the block's
    [from] and [to], after the end of every earlier block and before
    the start of every later one. *)
Theorem every_record_in_exactly_one_block entries threshold e :
  (0 <= threshold)%Q -> chronological entries -> In e entries ->
  exists before blk after,
    aggregateToBlocks entries threshold = before ++ blk :: after
    /\ from blk <= timestamp e <= to blk
    /\ Forall (fun b => to b < timestamp e) before
    /\ Forall (fun b => timestamp e < from b) after.
Proof.
  intros H0 Hc He.
  destruct (record_in_a_block entries threshold e Hc He) as (blk & Hin & Hb).
  destruct (in_split _ _ Hin) as (before & after & Heq).
  exists before, blk, after. split; [exact Heq|]. split; [exact Hb|].
  destruct (aggregate_disjoint entries threshold H0 Hc) as [Hss _].
  rewrite Heq in Hss. destruct (StronglySorted_split _ _ _ _ Hss) as [H1 H2].
  split; (eapply Forall_impl; [|eassumption]); cbn; intros; lia.
Qed.

(** ** The total of a block is its length *)

Lemma Qmake_1000_add a b :
  Qmake a 1000 + Qmake b 1000 == Qmake (a + b) 1000.
Proof. unfold Qeq, Qplus. cbn. lia. Qed.

Lemma gaps_telescope rest : forall c,
  sumQ (map snd (gaps_of c rest))
  == Qmake (timestamp (last rest c) - timestamp c) 1000.
Proof.
  induction rest as [|n rest IH]; intros c.
  - cbn. unfold Qeq. cbn. lia.
  - cbn [gaps_of map snd sumQ fold_right]. fold (sumQ (map snd (gaps_of n rest))).
    rewrite IH, last_cons. unfold gapSec. rewrite Qmake_1000_add.
    unfold Qeq. cbn. lia.
Qed.

Lemma runs_titles threshold entries r t :
  In r (runs threshold entries) -> In t (attributed r) ->
  exists e, In e entries /\ title e = t.
Proof.
  intros Hr Ht. unfold attributed in Ht. apply in_map_iff in Ht.
  destruct Ht as ([t' g] & <- & Hg). cbn [fst].
  assert (Hsub : forall rest c, In (t', g) (gaps_of c rest) ->
                   exists e, In e (c :: rest) /\ title e = t').
  { induction rest as [|n rest IH]; intros c H; [contradiction|].
    cbn [gaps_of] in H. destruct H as [H | H].
    - exists c. split; [left; reflexivity|congruence].
    - destruct (IH n H) as (e & He & Het).
      exists e. split; [right; exact He|exact Het]. }
  destruct (Hsub _ _ Hg) as (e & He & Het). exists e. split; [|exact Het].
  rewrite <- (runs_concat threshold entries). apply in_flat_map.
  exists r. split; assumption.
Qed.

(** In the exact arithmetic of the embedding the total of a block is its
    length in seconds. *)
Lemma block_total_exact entries threshold blk :
  ordinary_titles entries ->
  In blk (aggregateToBlocks entries threshold) ->
  exists q, totalDurationSec blk = JS.Num q
            /\ q == Qmake (to blk - from blk) 1000.
Proof.
  intros Hord Hin. rewrite aggregate_runs in Hin. apply in_map_iff in Hin.
  destruct Hin as (r & <- & Hr).
  assert (Hattr : Forall (fun t => JS.inherited t = false) (attributed r)).
  { apply Forall_forall. intros t Ht.
    destruct (runs_titles _ _ _ _ Hr Ht) as (e & He & <-).
    unfold ordinary_titles in Hord. rewrite Forall_forall in Hord. auto. }
  destruct (absorb_ordinary (snd r) JS.empty (fst r) Hattr) as [Hn Ht];
    [constructor|].
  unfold block_of_run.
  destruct (make_block_total (timestamp (fst r))
              (timestamp (last (snd r) (fst r))) _ Hn) as (q & Hq & Hqt).
  exists q. split; [exact Hq|]. cbn [from to make_block].
  rewrite Hqt, Ht, gaps_telescope. unfold total, JS.empty.
  cbn [map sumQ fold_right]. ring.
Qed.

(** ** The signs of the durations *)

Lemma Qplus_0_le a b : (0 <= a)%Q -> (0 <= b)%Q -> (0 <= a + b)%Q.
Proof. intros Ha Hb. exact (Qplus_le_compat 0 a 0 b Ha Hb). Qed.

Lemma replace_nonneg o k v :
  Forall (fun p => nonneg_number (snd p)) o ->
  nonneg_number v ->
  Forall (fun p => nonneg_number (snd p)) (JS.replace o k v).
Proof.
  intros Ho Hv. induction Ho as [|[k' v'] o Hp Ho IH]; cbn; [constructor|].
  destruct (String.eqb k k'); constructor; auto.
Qed.

Lemma accumulate_nonneg m t g :
  JS.inherited t = false ->
  (0 <= g)%Q ->
  Forall (fun p => nonneg_number (snd p)) m ->
  Forall (fun p => nonneg_number (snd p)) (accumulate m t g).
Proof.
  intros Ht Hg Hm. unfold accumulate, JS.set, JS.get.
  rewrite (inherited_not_accessor t Ht).
  destruct (JS.own m t) as [v|] eqn:E.
  - assert (Hv : nonneg_number v).
    { apply own_in in E. rewrite Forall_forall in Hm. exact (Hm _ E). }
    destruct Hv as (q & -> & Hq). apply replace_nonneg; [exact Hm|].
    unfold JS.or_else, JS.truthy.
    destruct (negb (Qeq_bool q 0)); cbn [JS.add]; eexists;
      (split; [reflexivity|]).
    + apply Qplus_0_le; assumption.
    + apply Qplus_0_le; [apply Qle_refl|assumption].
  - rewrite Ht. apply Forall_app. split; [exact Hm|].
    repeat constructor. cbn [snd JS.or_else JS.truthy JS.add]. eexists.
    split; [reflexivity|]. apply Qplus_0_le; [apply Qle_refl|assumption].
Qed.

Lemma absorb_nonneg rest : forall m c,
  Forall (fun g => JS.inherited (fst g) = false /\ (0 <= snd g)%Q)
         (gaps_of c rest) ->
  Forall (fun p => nonneg_number (snd p)) m ->
  Forall (fun p => nonneg_number (snd p)) (absorb m c rest).
Proof.
  induction rest as [|n rest IH]; intros m c Hg Hm; [exact Hm|].
  cbn [gaps_of] in Hg. inversion Hg as [|? ? [Ht H0] Hrest]; subst.
  cbn [fst snd] in Ht, H0. cbn [absorb]. apply IH; [exact Hrest|].
  apply accumulate_nonneg; assumption.
Qed.

Lemma gaps_of_ordinary_nonneg rest : forall c,
  chronological (c :: rest) ->
  ordinary_titles (c :: rest) ->
  Forall (fun g => JS.inherited (fst g) = false /\ (0 <= snd g)%Q)
         (gaps_of c rest).
Proof.
  induction rest as [|n rest IH]; intros c Hc Ho; [constructor|].
  inversion Hc as [|? ? Hrest Hhd]; subst. inversion Hhd; subst.
  inversion Ho as [|? ? Hoc Horest]; subst.
  cbn [gaps_of]. constructor; [|apply IH; assumption].
  cbn [fst snd]. split; [exact Hoc|]. apply gapSec_nonneg. assumption.
Qed.

Lemma chronological_app_r l1 : forall l2,
  chronological (l1 ++ l2) -> chronological l2.
Proof.
  induction l1 as [|x l1 IH]; intros l2 H; [exact H|].
  cbn [app] in H. apply IH. inversion H; assumption.
Qed.

Lemma chronological_app_l l1 : forall l2,
  chronological (l1 ++ l2) -> chronological l1.
Proof.
  induction l1 as [|x l1 IH]; intros l2 H; [constructor|].
  cbn [app] in H. inversion H as [|? ? Hs Hhd]; subst.
  constructor; [eapply IH; exact Hs|].
  destruct l1; [constructor|]. cbn [app] in Hhd. inversion Hhd; subst.
  constructor. assumption.
Qed.

(** The records of a run are consecutive records of the input. *)
Lemma run_in_input threshold entries r :
  In r (runs threshold entries) ->
  exists before after, entries = before ++ (fst r :: snd r) ++ after.
Proof.
  intros Hr. destruct (in_split _ _ Hr) as (rs1 & rs2 & Heq).
  pose proof (runs_concat threshold entries) as Hcat.
  rewrite Heq, flat_map_app in Hcat. cbn [flat_map] in Hcat.
  eexists _, _. symmetry. exact Hcat.
Qed.

(** X3. When the records are sorted by time and none carries a title that
    Object.prototype provides, the total of every block and the duration
    of each of its activities are numbers that are not negative, and the
    total is 0 exactly when the block spans no time. *)
Theorem block_durations_are_nonnegative entries threshold blk :
  chronological entries ->
  ordinary_titles entries ->
  In blk (aggregateToBlocks entries threshold) ->
  (exists q, totalDurationSec blk = JS.Num q
             /\ (0 <= q)%Q
             /\ ((q == 0)%Q <-> instant blk))
  /\ Forall (fun a => nonneg_number (durationSec a)) (activities blk).
Proof.
  intros Hc Hord Hin. split.
  - destruct (block_total_exact entries threshold blk Hord Hin)
      as (q & Hq & Hlen).
    pose proof (aggregate_from_to entries threshold Hc) as Hft.
    rewrite Forall_forall in Hft. specialize (Hft blk Hin).
    exists q. split; [exact Hq|]. rewrite Hlen. unfold instant. split.
    + unfold Qle. cbn [Qnum Qden]. lia.
    + unfold Qeq. cbn [Qnum Qden]. lia.
  - rewrite aggregate_runs in Hin. apply in_map_iff in Hin.
    destruct Hin as (r & <- & Hr).
    destruct (run_in_input threshold entries r Hr) as (before & after & Heq).
    assert (Hrun : chronological (fst r :: snd r)
                   /\ ordinary_titles (fst r :: snd r)).
    { rewrite Heq in Hc, Hord. split.
      - eapply chronological_app_l, chronological_app_r. exact Hc.
      - unfold ordinary_titles in *.
        apply Forall_app in Hord. destruct Hord as [_ Hord].
        apply Forall_app in Hord. apply Hord. }
    destruct Hrun as [Hrc Hro].
    pose proof (absorb_nonneg (snd r) JS.empty (fst r)
                  (gaps_of_ordinary_nonneg _ _ Hrc Hro)
                  (Forall_nil _)) as Hm.
    unfold block_of_run, make_block. cbn [activities].
    apply Forall_map. cbn [durationSec].
    eapply Permutation_Forall; [symmetry; apply entries_perm|exact Hm].
Qed.

(** ** What the aggregator reads *)

Lemma loop_reads_time_and_title threshold rest1 : forall rest2 s c1 c2,
  time_and_title c1 = time_and_title c2 ->
  map time_and_title rest1 = map time_and_title rest2 ->
  loop threshold s c1 rest1 = loop threshold s c2 rest2.
Proof.
  induction rest1 as [|n1 rest1 IH]; intros [|n2 rest2] s c1 c2 Hc Hrest;
    try discriminate; [reflexivity|].
  cbn [map] in Hrest.
  assert (Hn : time_and_title n1 = time_and_title n2) by congruence.
  assert (Htl : map time_and_title rest1 = map time_and_title rest2)
    by congruence.
  cbn [loop]. rewrite (IH rest2 _ n1 n2 Hn Htl). f_equal.
  unfold time_and_title in Hc, Hn.
  assert (Hct : timestamp c1 = timestamp c2) by congruence.
  assert (Hctitle : title c1 = title c2) by congruence.
  assert (Hnt : timestamp n1 = timestamp n2) by congruence.
  unfold step, gapSec. rewrite Hct, Hctitle, Hnt. reflexivity.
Qed.

(** X4. The blocks depend on the timestamps and titles of the records
    only: the application name and the two metrics are never read. *)
Theorem aggregate_reads_time_and_title entries1 entries2 threshold :
  map time_and_title entries1 = map time_and_title entries2 ->
  aggregateToBlocks entries1 threshold = aggregateToBlocks entries2 threshold.
Proof.
  intros H. unfold aggregateToBlocks.
  destruct entries1 as [|c1 rest1], entries2 as [|c2 rest2];
    try discriminate; [reflexivity|].
  cbn [map] in H.
  assert (Hc : time_and_title c1 = time_and_title c2) by congruence.
  assert (Hrest : map time_and_title rest1 = map time_and_title rest2)
    by congruence.
  cbn [scan_of].
  rewrite (loop_reads_time_and_title threshold rest1 rest2
             (start c1) c1 c2 Hc Hrest).
  unfold time_and_title in Hc.
  assert (Hct : timestamp c1 = timestamp c2) by congruence.
  unfold start. rewrite Hct. reflexivity.
Qed.

(* ====================================================================== *)
(** * More about groupBlocksByWeek                                         *)
(* ====================================================================== *)

Section GrouperMore.
Variable LocalTZA : Z -> bool -> Z.

(** X5. Every week returned holds, in the order in which the days were
    formed, exactly the days whose date has the week's [weekStart] as
    Monday; it holds at least one day, and its total is the sum of the
    totals of its days, added from left to right. *)
Theorem week_holds_its_days bs w :
  In w (groupBlocksByWeek LocalTZA bs) ->
  days w
  = filter (fun d => getMonday LocalTZA (date d) =? weekStart w)
           (group_by_day LocalTZA bs)
  /\ days w <> []
  /\ week_totalDurationSec w = js_sum (map day_totalDurationSec (days w)).
Proof.
  intros Hw. apply (Permutation_in _ (weeks_perm LocalTZA bs)) in Hw.
  destruct (group_by_week_spec LocalTZA (group_by_day LocalTZA bs))
    as (Hws & _ & _).
  destruct (Hws w Hw) as (k & [Hstart Htot] & Hmem & d & Hd & Hkd).
  split; [|split].
  - rewrite Hmem, Hstart. reflexivity.
  - rewrite Hmem. intros Hnil.
    assert (Hin : In d (filter (fun d' => week_of LocalTZA d' =? k)
                               (group_by_day LocalTZA bs))).
    { apply filter_In. split; [exact Hd|]. rewrite Hkd. apply Z.eqb_refl. }
    rewrite Hnil in Hin. exact Hin.
  - exact Htot.
Qed.

Lemma nonempty_groups_length {A B} (members : A -> list B) gs :
  Forall (fun g => members g <> []) gs ->
  (List.length gs <= List.length (flat_map members gs))%nat.
Proof.
  induction 1 as [|g gs Hg _ IH]; [apply le_n|].
  cbn [flat_map List.length]. rewrite length_app.
  destruct (members g); [contradiction|]. cbn [List.length]. lia.
Qed.

Lemma days_nonempty bs :
  Forall (fun d => blocks d <> []) (group_by_day LocalTZA bs).
Proof.
  apply Forall_forall. intros dd Hdd.
  destruct (group_by_day_spec LocalTZA bs) as (Hds & _ & _).
  destruct (Hds dd Hdd) as (k & _ & Hmem & b & Hb & Hkb).
  rewrite Hmem. intros Hnil.
  assert (Hin : In b (filter (fun b' => day_of LocalTZA b' =? k) bs)).
  { apply filter_In. split; [exact Hb|]. rewrite Hkb. apply Z.eqb_refl. }
  rewrite Hnil in Hin. exact Hin.
Qed.

Lemma weeks_nonempty ds :
  Forall (fun w => days w <> []) (group_by_week LocalTZA ds).
Proof.
  apply Forall_forall. intros w Hw.
  destruct (group_by_week_spec LocalTZA ds) as (Hws & _ & _).
  destruct (Hws w Hw) as (k & _ & Hmem & d & Hd & Hkd).
  rewrite Hmem. intros Hnil.
  assert (Hin : In d (filter (fun d' => week_of LocalTZA d' =? k) ds)).
  { apply filter_In. split; [exact Hd|]. rewrite Hkd. apply Z.eqb_refl. }
  rewrite Hnil in Hin. exact Hin.
Qed.

(** X6. No block gives no week; there are never more weeks than days, nor
    more days than blocks, and at least one week as soon as there is a
    block: days and weeks without a block are not made up. *)
Theorem no_more_weeks_than_days_than_blocks bs :
  groupBlocksByWeek LocalTZA [] = []
  /\ (List.length (groupBlocksByWeek LocalTZA bs)
      <= List.length (group_by_day LocalTZA bs))%nat
  /\ (List.length (group_by_day LocalTZA bs) <= List.length bs)%nat
  /\ (bs <> [] -> groupBlocksByWeek LocalTZA bs <> []).
Proof.
  destruct (group_by_day_spec LocalTZA bs) as (_ & Hbs & Hpd).
  destruct (group_by_week_spec LocalTZA (group_by_day LocalTZA bs))
    as (_ & Hds & Hpw).
  split; [reflexivity|]. split; [|split].
  - rewrite (Permutation_length (weeks_perm LocalTZA bs)).
    rewrite <- (Permutation_length Hpw).
    apply nonempty_groups_length, weeks_nonempty.
  - rewrite <- (Permutation_length Hpd).
    apply nonempty_groups_length, days_nonempty.
  - intros Hne Hnil. destruct bs as [|b bs]; [contradiction|].
    destruct (Hbs b (or_introl eq_refl)) as (dd & Hdd & _).
    destruct (Hds dd Hdd) as (w & Hw & _).
    apply (Permutation_in _ (Permutation_sym (weeks_perm LocalTZA (b :: bs))))
      in Hw.
    rewrite Hnil in Hw. exact Hw.
Qed.
End GrouperMore.

(** ** The totals add up *)

Lemma sumQ_flat_map {A} (f : A -> list Q) l :
  sumQ (flat_map f l) == sumQ (map (fun a => sumQ (f a)) l).
Proof.
  induction l as [|a l IH]; [reflexivity|].
  cbn [flat_map map]. rewrite sumQ_app, IH. reflexivity.
Qed.

Lemma sumQ_map_ext {A} (f g : A -> Q) l :
  Forall (fun a => f a == g a) l -> sumQ (map f l) == sumQ (map g l).
Proof.
  induction 1 as [|a l Ha _ IH]; [reflexivity|].
  cbn [map sumQ fold_right]. fold (sumQ (map f l)) (sumQ (map g l)).
  rewrite Ha, IH. reflexivity.
Qed.

Lemma js_sum_numbers vs :
  Forall is_number vs ->
  is_number (js_sum vs) /\ number_of (js_sum vs) == sumQ (numbers vs).
Proof.
  intros H. unfold js_sum.
  change (fold_left JS.add vs (JS.Num 0))
    with (fold_left (fun sum d => JS.add sum d) vs (JS.Num 0)).
  rewrite fold_add_numbers by exact H. split; [eexists; reflexivity|].
  cbn [number_of]. rewrite fold_left_Qplus. unfold numbers. ring.
Qed.

Section Totals.
Variable LocalTZA : Z -> bool -> Z.

Lemma day_total_number bs dd :
  Forall is_number (map totalDurationSec bs) ->
  In dd (group_by_day LocalTZA bs) ->
  is_number (day_totalDurationSec dd)
  /\ number_of (day_totalDurationSec dd)
     == sumQ (numbers (map totalDurationSec (blocks dd))).
Proof.
  intros Hnum Hdd.
  destruct (group_by_day_spec LocalTZA bs) as (Hds & _ & _).
  destruct (Hds dd Hdd) as (k & [_ Htot] & Hmem & _).
  rewrite Htot. apply js_sum_numbers.
  rewrite Hmem. apply Forall_map. apply Forall_forall. intros b Hb.
  apply filter_In in Hb. rewrite Forall_map, Forall_forall in Hnum.
  apply Hnum, Hb.
Qed.

Lemma week_total_number bs w :
  Forall is_number (map totalDurationSec bs) ->
  In w (group_by_week LocalTZA (group_by_day LocalTZA bs)) ->
  is_number (week_totalDurationSec w)
  /\ number_of (week_totalDurationSec w)
     == sumQ (numbers (map totalDurationSec (flat_map blocks (days w)))).
Proof.
  intros Hnum Hw.
  destruct (group_by_week_spec LocalTZA (group_by_day LocalTZA bs))
    as (Hws & _ & _).
  destruct (Hws w Hw) as (k & [_ Htot] & Hmem & _).
  assert (Hdays : Forall (fun d => In d (group_by_day LocalTZA bs)) (days w)).
  { rewrite Hmem. apply Forall_forall. intros d Hd.
    apply filter_In in Hd. apply Hd. }
  assert (Hn : Forall is_number (map day_totalDurationSec (days w))).
  { apply Forall_map. eapply Forall_impl; [|exact Hdays].
    intros d Hd. apply (day_total_number bs d Hnum Hd). }
  rewrite Htot. destruct (js_sum_numbers _ Hn) as [H1 H2].
  split; [exact H1|]. unfold js_sum in H2. rewrite H2.
  unfold numbers. rewrite !map_map.
  rewrite (flat_map_concat_map blocks), concat_map, map_map.
  rewrite <- flat_map_concat_map, sumQ_flat_map.
  apply sumQ_map_ext. eapply Forall_impl; [|exact Hdays].
  intros d Hd. cbn beta.
  destruct (day_total_number bs d Hnum Hd) as [_ H].
  rewrite H. unfold numbers. rewrite map_map. reflexivity.
Qed.

Lemma nonneg_numbers_sum vs :
  Forall nonneg_number vs ->
  Forall is_number vs
  /\ (0 <= sumQ (numbers vs))%Q
  /\ (sumQ (numbers vs) == 0 <-> Forall (fun v => number_of v == 0) vs).
Proof.
  induction 1 as [|v vs (q & -> & Hq) Hvs (IH1 & IH2 & IH3)].
  - split; [constructor|]. split; [apply Qle_refl|].
    split; [constructor|reflexivity].
  - split; [constructor; [eexists; reflexivity|exact IH1]|].
    unfold numbers in *. cbn [map sumQ fold_right number_of].
    fold (sumQ (map number_of vs)).
    set (rest := sumQ (map number_of vs)) in *.
    split; [apply (Qplus_le_compat 0 q 0 rest); assumption|].
    split.
    + intros H0.
      assert (Hq0 : q == 0).
      { apply Qle_antisym; [|exact Hq].
        rewrite <- H0. rewrite <- (Qplus_0_r q) at 1.
        apply Qplus_le_compat; [apply Qle_refl|exact IH2]. }
      constructor; [exact Hq0|]. apply IH3.
      rewrite Hq0, Qplus_0_l in H0. exact H0.
    + intros H0. inversion H0 as [|? ? Hq0 Hrest]; subst.
      cbn [number_of] in Hq0. rewrite Hq0, Qplus_0_l. apply IH3, Hrest.
Qed.

(** X7. When the totals of the blocks are numbers that are not negative,
    so are the totals of the days and of the weeks they are grouped into,
    and the total of a day or of a week is 0 exactly when the total of
    each of its blocks is. *)
Theorem totals_are_nonnegative_numbers bs w :
  Forall nonneg_number (map totalDurationSec bs) ->
  In w (groupBlocksByWeek LocalTZA bs) ->
  nonneg_number (week_totalDurationSec w)
  /\ (number_of (week_totalDurationSec w) == 0
      <-> Forall (fun b => number_of (totalDurationSec b) == 0)
                 (flat_map blocks (days w)))
  /\ Forall (fun d =>
       nonneg_number (day_totalDurationSec d)
       /\ (number_of (day_totalDurationSec d) == 0
           <-> Forall (fun b => number_of (totalDurationSec b) == 0)
                      (blocks d)))
     (days w).
Proof.
  intros Hnn Hw.
  assert (Hnum : Forall is_number (map totalDurationSec bs)).
  { eapply Forall_impl; [|exact Hnn]. intros v (q & -> & _).
    eexists; reflexivity. }
  assert (Hw' : In w (group_by_week LocalTZA (group_by_day LocalTZA bs))).
  { eapply Permutation_in; [apply weeks_perm|exact Hw]. }
  destruct (group_by_week_spec LocalTZA (group_by_day LocalTZA bs))
    as (Hws & _ & _).
  destruct (Hws w Hw') as (k & _ & Hmem & _).
  assert (Hdays : Forall (fun d => In d (group_by_day LocalTZA bs)) (days w)).
  { rewrite Hmem. apply Forall_forall. intros d Hd.
    apply filter_In in Hd. apply Hd. }
  assert (Hblocks : forall d, In d (group_by_day LocalTZA bs) ->
            Forall nonneg_number (map totalDurationSec (blocks d))).
  { intros d Hd. destruct (group_by_day_spec LocalTZA bs) as (Hds & _ & _).
    destruct (Hds d Hd) as (k' & _ & Hbl & _). rewrite Hbl.
    apply Forall_map. apply Forall_forall. intros b Hb.
    apply filter_In in Hb. rewrite Forall_map, Forall_forall in Hnn.
    apply Hnn, Hb. }
  assert (Hday : forall d, In d (group_by_day LocalTZA bs) ->
            nonneg_number (day_totalDurationSec d)
            /\ (number_of (day_totalDurationSec d) == 0
                <-> Forall (fun b => number_of (totalDurationSec b) == 0)
                           (blocks d))).
  { intros d Hd. destruct (day_total_number bs d Hnum Hd) as [[q Hq] Hsum].
    destruct (nonneg_numbers_sum _ (Hblocks d Hd)) as (_ & H0 & Hz).
    rewrite Hsum. rewrite Hq in Hsum. cbn [number_of] in Hsum. split.
    - exists q. split; [exact Hq|]. rewrite Hsum. exact H0.
    - rewrite Hz, Forall_map. reflexivity. }
  assert (Hflat : Forall nonneg_number
            (map totalDurationSec (flat_map blocks (days w)))).
  { apply Forall_map. apply Forall_forall. intros b Hb.
    apply in_flat_map in Hb. destruct Hb as (d & Hd & Hb).
    rewrite Forall_forall in Hdays.
    pose proof (Hblocks d (Hdays d Hd)) as H.
    rewrite Forall_map, Forall_forall in H. apply H, Hb. }
  destruct (week_total_number bs w Hnum Hw') as [[q Hq] Hsum].
  destruct (nonneg_numbers_sum _ Hflat) as (_ & H0 & Hz).
  rewrite Hsum. rewrite Hq in Hsum. cbn [number_of] in Hsum.
  split; [|split].
  - exists q. split; [exact Hq|]. rewrite Hsum. exact H0.
  - rewrite Hz, Forall_map. reflexivity.
  - eapply Forall_impl; [|exact Hdays]. exact Hday.
Qed.
End Totals.

(** ** Weeks run from Monday to Sunday *)

Section Mondays.
Variable LocalTZA : Z -> bool -> Z.
Hypothesis zone_day :
  forall x, Date.Day (Date.LocalTime LocalTZA (Date.UTC LocalTZA x))
            = Date.Day x.

Lemma getMonday_week tv :
  getMonday LocalTZA tv
  = Date.midnight LocalTZA
      (monday_of_week (week_number (Date.local_day LocalTZA tv))).
Proof.
  rewrite getMonday_midnight by exact zone_day.
  unfold monday_of_week, week_number, Date.getDay, Date.WeekDay.
  change (Date.Day (Date.LocalTime LocalTZA tv))
    with (Date.local_day LocalTZA tv).
  set (d := Date.local_day LocalTZA tv).
  assert (H : d + ((if (d + 4) mod 7 =? 0 then -6 else 1) - (d + 4) mod 7)
              = 7 * ((d + 3) / 7) - 3).
  { destruct ((d + 4) mod 7 =? 0) eqn:E.
    - apply Z.eqb_eq in E. Z.div_mod_to_equations. lia.
    - apply Z.eqb_neq in E. Z.div_mod_to_equations. lia. }
  rewrite H. reflexivity.
Qed.

Lemma week_number_monday k : week_number (monday_of_week k) = k.
Proof.
  unfold week_number, monday_of_week.
  replace (7 * k - 3 + 3) with (k * 7) by lia. apply Z.div_mul. lia.
Qed.

(** X8. [getMonday] depends on the local calendar day only, through the
    number of its Monday-to-Sunday week: it returns local midnight of the
    Monday of that week, it returns a Monday unchanged in that sense
    (applying it twice is applying it once), and two instants get the same
    Monday exactly when their local days are in the same week. *)
Theorem getMonday_same_week a b :
  getMonday LocalTZA a
  = Date.midnight LocalTZA
      (monday_of_week (week_number (Date.local_day LocalTZA a)))
  /\ getMonday LocalTZA (getMonday LocalTZA a) = getMonday LocalTZA a
  /\ (getMonday LocalTZA a = getMonday LocalTZA b
      <-> week_number (Date.local_day LocalTZA a)
          = week_number (Date.local_day LocalTZA b)).
Proof.
  split; [apply getMonday_week|]. split.
  - rewrite (getMonday_week (getMonday LocalTZA a)).
    rewrite (getMonday_week a) at 1 2.
    rewrite local_day_midnight by exact zone_day.
    rewrite week_number_monday. reflexivity.
  - rewrite !getMonday_week. split.
    + intros H. apply (midnight_inj LocalTZA zone_day) in H.
      unfold monday_of_week in H. lia.
    + intros ->. reflexivity.
Qed.
End Mondays.

(* ====================================================================== *)
(** * More about parseCsv                                                  *)
(* ====================================================================== *)

(** ** Lines and fields: splitting what was joined *)

Lemma split_lines_single line :
  no_line_break line = true -> split_lines line = [line].
Proof.
  induction line as [|c line IH]; intros H; [reflexivity|].
  cbn [no_line_break] in H.
  apply andb_true_iff in H. destruct H as [H Hline].
  apply andb_true_iff in H. destruct H as [Hlf Hcr].
  apply negb_true_iff in Hlf, Hcr.
  cbn [split_lines]. rewrite Hlf, Hcr, (IH Hline). reflexivity.
Qed.

Lemma split_lines_first_crlf line text :
  no_line_break line = true ->
  split_lines (line ++ String CR (String LF text)) = line :: split_lines text.
Proof.
  induction line as [|c line IH]; intros H.
  - reflexivity.
  - cbn [no_line_break] in H.
    apply andb_true_iff in H. destruct H as [H Hline].
    apply andb_true_iff in H. destruct H as [Hlf Hcr].
    apply negb_true_iff in Hlf, Hcr.
    change (String c line ++ String CR (String LF text))%string
      with (String c (line ++ String CR (String LF text))).
    cbn [split_lines]. rewrite Hlf, Hcr.
    rewrite (IH Hline). reflexivity.
Qed.

Lemma split_lines_concat_lf lines :
  Forall (fun line => no_line_break line = true) lines -> lines <> [] ->
  split_lines (String.concat line_feed lines) = lines.
Proof.
  induction 1 as [|line lines Hline Hlines IH]; intros Hne; [contradiction|].
  destruct lines as [|line' lines].
  - cbn [String.concat]. apply split_lines_single, Hline.
  - change (String.concat line_feed (line :: line' :: lines))
      with (line ++ String LF (String.concat line_feed (line' :: lines)))%string.
    rewrite split_lines_first by exact Hline.
    rewrite IH by discriminate. reflexivity.
Qed.

Lemma split_lines_concat_crlf lines :
  Forall (fun line => no_line_break line = true) lines -> lines <> [] ->
  split_lines (String.concat carriage_return_line_feed lines) = lines.
Proof.
  induction 1 as [|line lines Hline Hlines IH]; intros Hne; [contradiction|].
  destruct lines as [|line' lines].
  - cbn [String.concat]. apply split_lines_single, Hline.
  - change (String.concat carriage_return_line_feed (line :: line' :: lines))
      with (line ++ String CR (String LF
              (String.concat carriage_return_line_feed (line' :: lines))))%string.
    rewrite split_lines_first_crlf by exact Hline.
    rewrite IH by discriminate. reflexivity.
Qed.

Lemma split_commas_single field :
  no_comma field = true -> split_commas field = [field].
Proof.
  induction field as [|c field IH]; intros H; [reflexivity|].
  cbn [no_comma] in H. apply andb_true_iff in H. destruct H as [Hc Hf].
  apply negb_true_iff in Hc.
  cbn [split_commas]. rewrite Hc, (IH Hf). reflexivity.
Qed.

Lemma split_commas_first field text :
  no_comma field = true ->
  split_commas (field ++ String comma text) = field :: split_commas text.
Proof.
  induction field as [|c field IH]; intros H.
  - reflexivity.
  - cbn [no_comma] in H. apply andb_true_iff in H. destruct H as [Hc Hf].
    apply negb_true_iff in Hc.
    change (String c field ++ String comma text)%string
      with (String c (field ++ String comma text)).
    cbn [split_commas]. rewrite Hc, (IH Hf). reflexivity.
Qed.

Lemma split_commas_concat fields :
  Forall (fun field => no_comma field = true) fields -> fields <> [] ->
  split_commas (String.concat "," fields) = fields.
Proof.
  induction 1 as [|field fields Hf Hfs IH]; intros Hne; [contradiction|].
  destruct fields as [|field' fields].
  - cbn [String.concat]. apply split_commas_single, Hf.
  - change (String.concat "," (field :: field' :: fields))
      with (field ++ String comma (String.concat "," (field' :: fields)))%string.
    rewrite split_commas_first by exact Hf.
    rewrite IH by discriminate. reflexivity.
Qed.

(** ** Trimming *)

Lemma trim_start_cases s :
  trim_start s = EmptyString
  \/ exists c s', trim_start s = String c s' /\ is_space c = false.
Proof.
  induction s as [|c s IH]; [left; reflexivity|].
  cbn [trim_start]. destruct (is_space c) eqn:E; [exact IH|].
  right. exists c, s. split; [reflexivity|exact E].
Qed.

Lemma trim_end_cons c s :
  is_space c = false -> trim_end (String c s) = String c (trim_end s).
Proof.
  intros H. cbn [trim_end]. rewrite H. destruct (trim_end s); reflexivity.
Qed.

Lemma trim_end_idempotent s : trim_end (trim_end s) = trim_end s.
Proof.
  induction s as [|c s IH]; [reflexivity|].
  cbn [trim_end]. destruct (trim_end s) as [|c' r] eqn:E.
  - destruct (is_space c) eqn:Ec; [reflexivity|].
    cbn [trim_end]. rewrite Ec. reflexivity.
  - change (trim_end (String c (String c' r)))
      with (match trim_end (String c' r) with
            | EmptyString =>
                if is_space c then EmptyString else String c EmptyString
            | String a rest => String c (String a rest)
            end).
    rewrite IH. reflexivity.
Qed.

Lemma trim_idempotent s : trim (trim s) = trim s.
Proof.
  unfold trim. destruct (trim_start_cases s) as [H | (c & s' & H & Hc)];
    rewrite H.
  - reflexivity.
  - rewrite (trim_end_cons c s' Hc). cbn [trim_start]. rewrite Hc.
    rewrite (trim_end_cons c _ Hc), trim_end_idempotent. reflexivity.
Qed.

Lemma no_comma_trim_start s :
  no_comma s = true -> no_comma (trim_start s) = true.
Proof.
  induction s as [|c s IH]; intros H; [reflexivity|].
  cbn [trim_start]. destruct (is_space c); [|exact H].
  cbn [no_comma] in H. apply andb_true_iff in H. apply IH, H.
Qed.

Lemma no_comma_trim_end s :
  no_comma s = true -> no_comma (trim_end s) = true.
Proof.
  induction s as [|c s IH]; intros H; [reflexivity|].
  cbn [no_comma] in H. apply andb_true_iff in H. destruct H as [Hc Hs].
  specialize (IH Hs). cbn [trim_end].
  destruct (trim_end s) as [|c' r].
  - destruct (is_space c); [reflexivity|].
    cbn [no_comma]. rewrite Hc. reflexivity.
  - cbn [no_comma] in *. rewrite Hc. exact IH.
Qed.

Lemma no_comma_trim s : no_comma s = true -> no_comma (trim s) = true.
Proof. intros H. apply no_comma_trim_end, no_comma_trim_start, H. Qed.

Lemma split_commas_no_comma s :
  Forall (fun field => no_comma field = true) (split_commas s).
Proof.
  induction s as [|c s IH]; [repeat constructor|].
  cbn [split_commas]. destruct (Ascii.eqb c comma) eqn:E.
  - constructor; [reflexivity|exact IH].
  - destruct (split_commas s) as [|p ps]; cbn [push_front].
    + repeat constructor. cbn [no_comma]. rewrite E. reflexivity.
    + inversion IH; subst. constructor; [|assumption].
      cbn [no_comma]. rewrite E. assumption.
Qed.

Lemma nth_no_comma s i :
  no_comma (nth i (split_commas s) EmptyString) = true.
Proof.
  pose proof (split_commas_no_comma s) as H. rewrite Forall_forall in H.
  destruct (nth_in_or_default i (split_commas s) EmptyString) as [Hin | ->];
    [apply H, Hin|reflexivity].
Qed.

(** ** Sorted lists with distinct keys *)

Lemma sorted_head_least {A} (key : A -> Z) x l :
  Sorted (key_le key) (x :: l) -> Forall (fun y => key x <= key y) l.
Proof.
  intros H. apply Sorted_StronglySorted in H.
  - inversion H; assumption.
  - intros a b c Hab Hbc. unfold key_le in *. lia.
Qed.

Lemma sorted_permutation_unique {A} (key : A -> Z) l1 : forall l2,
  Sorted (key_le key) l1 -> Sorted (key_le key) l2 ->
  Permutation l1 l2 -> NoDup (map key l1) -> l1 = l2.
Proof.
  induction l1 as [|x l1 IH]; intros l2 H1 H2 Hp Hnd.
  - apply Permutation_nil in Hp. congruence.
  - destruct l2 as [|y l2].
    { apply Permutation_sym, Permutation_nil in Hp. discriminate. }
    assert (Hxy : x = y).
    { pose proof (sorted_head_least key x l1 H1) as Hx.
      pose proof (sorted_head_least key y l2 H2) as Hy.
      rewrite Forall_forall in Hx, Hy.
      assert (Hyin : In y (x :: l1)).
      { eapply Permutation_in; [symmetry; exact Hp|left; reflexivity]. }
      assert (Hxin : In x (y :: l2)).
      { eapply Permutation_in; [exact Hp|left; reflexivity]. }
      destruct Hyin as [Hyx | Hyin]; [exact Hyx|].
      destruct Hxin as [Hxy | Hxin]; [congruence|].
      exfalso. inversion Hnd as [|? ? Hk _]; subst. apply Hk.
      assert (key x = key y) by (specialize (Hx y Hyin);
                                 specialize (Hy x Hxin); lia).
      rewrite H. apply in_map, Hyin. }
    subst y. f_equal. apply IH.
    + inversion H1; assumption.
    + inversion H2; assumption.
    + eapply Permutation_cons_inv. exact Hp.
    + inversion Hnd; assumption.
Qed.

Section ParserMore.
Variable parseDate : string -> option Z.
Variable Number : string -> JS.value.

(** X9. Line endings: a text whose lines are joined by carriage return and
    line feed is cut into the same lines as when they are joined by line
    feed alone, namely the lines that were joined, and so gives the same
    records. *)
Theorem line_endings_do_not_matter lines :
  Forall (fun line => no_line_break line = true) lines -> lines <> [] ->
  split_lines (String.concat carriage_return_line_feed lines) = lines
  /\ split_lines (String.concat line_feed lines) = lines
  /\ parseCsv parseDate Number (String.concat carriage_return_line_feed lines)
     = parseCsv parseDate Number (String.concat line_feed lines).
Proof.
  intros Hl Hne.
  pose proof (split_lines_concat_crlf lines Hl Hne) as H1.
  pose proof (split_lines_concat_lf lines Hl Hne) as H2.
  split; [exact H1|]. split; [exact H2|].
  unfold parseCsv, lines_of. rewrite H1, H2. reflexivity.
Qed.

(** X10. A row: when the fields hold no comma, a line made of a timestamp
    field, an application field, a title field and any further fields
    gives a record exactly when the trimmed timestamp field is a valid
    date; the record holds the trimmed application and title, the numbers
    read from the trimmed fourth and fifth fields, NaN for those that are
    missing, and nothing of the fields after the fifth. *)
Theorem row_gives_record stamp app name more :
  Forall (fun field => no_comma field = true)
         (stamp :: app :: name :: more) ->
  parse_line parseDate Number
    (String.concat "," (stamp :: app :: name :: more))
  = match parseDate (trim stamp) with
    | None => None
    | Some t =>
        Some {| timestamp := t;
                appName := trim app;
                title := trim name;
                value1 := metric Number more 0;
                value2 := metric Number more 1 |}
    end.
Proof.
  intros Hf. unfold parse_line.
  rewrite split_commas_concat by (exact Hf || discriminate).
  cbn [List.length Nat.ltb Nat.leb nth].
  destruct (parseDate (trim stamp)) as [t|]; [|reflexivity].
  unfold metric. destruct more as [|v1 [|v2 more]]; reflexivity.
Qed.
Lemma parse_line_fields line e :
  parse_line parseDate Number line = Some e ->
  no_comma (appName e) = true /\ no_comma (title e) = true
  /\ trim (appName e) = appName e /\ trim (title e) = title e.
Proof.
  unfold parse_line.
  destruct (List.length (split_commas line) <? 3)%nat; [discriminate|].
  destruct (parseDate _); [|discriminate].
  intros [= <-]. cbn [appName title].
  repeat split; try apply no_comma_trim, nth_no_comma; apply trim_idempotent.
Qed.

Lemma entries_of_in lines e :
  In e (entries_of parseDate Number lines) ->
  exists line, In line lines /\ parse_line parseDate Number line = Some e.
Proof.
  induction lines as [|line lines IH]; cbn [entries_of]; [contradiction|].
  destruct (parse_line parseDate Number line) as [e'|] eqn:E.
  - intros [<- | H].
    + exists line. split; [left; reflexivity|exact E].
    + destruct (IH H) as (l & Hl & Hp). exists l. split; [right|]; assumption.
  - intros H. destruct (IH H) as (l & Hl & Hp).
    exists l. split; [right|]; assumption.
Qed.

(** X11. Every record returned is read from one of the lines of the text;
    its application name and its title hold no comma, since a line is cut
    at every comma, and no white space at either end. *)
Theorem records_come_from_lines text e :
  In e (parseCsv parseDate Number text) ->
  (exists line, In line (split_lines text)
                /\ parse_line parseDate Number line = Some e)
  /\ no_comma (appName e) = true /\ no_comma (title e) = true
  /\ trim (appName e) = appName e /\ trim (title e) = title e.
Proof.
  intros He. unfold parseCsv in He.
  apply (Permutation_in _ (sort_by_perm timestamp _)) in He.
  destruct (entries_of_in _ _ He) as (line & Hl & Hp).
  split; [|exact (parse_line_fields line e Hp)].
  exists line. split; [|exact Hp].
  unfold lines_of in Hl. apply filter_In in Hl. apply Hl.
Qed.

Lemma entries_of_perm lines1 lines2 :
  Permutation lines1 lines2 ->
  Permutation (entries_of parseDate Number lines1)
              (entries_of parseDate Number lines2).
Proof.
  induction 1 as [| l ls1 ls2 _ IH | l l' ls | ls1 ls2 ls3 _ IH1 _ IH2];
    cbn [entries_of].
  - constructor.
  - destruct (parse_line parseDate Number l); [constructor|]; exact IH.
  - destruct (parse_line parseDate Number l),
             (parse_line parseDate Number l');
      try reflexivity. apply perm_swap.
  - etransitivity; eassumption.
Qed.

(** X12. When the records of a text have pairwise different timestamps,
    the order of its lines does not matter: a text with the same lines in
    another order gives the same sequence of records. *)
Theorem line_order_does_not_matter text1 text2 :
  Permutation (lines_of text1) (lines_of text2) ->
  NoDup (map timestamp (parseCsv parseDate Number text1)) ->
  parseCsv parseDate Number text1 = parseCsv parseDate Number text2.
Proof.
  intros Hp Hnd. apply (sorted_permutation_unique timestamp).
  - apply sort_by_sorted.
  - apply sort_by_sorted.
  - unfold parseCsv. rewrite !sort_by_perm. apply entries_of_perm, Hp.
  - exact Hnd.
Qed.
End ParserMore.

(* ====================================================================== *)
(** * The views                                                            *)
(* ====================================================================== *)

(** ** Durations and decimal hours *)

Section Durations.
Local Open Scope Q_scope.

Lemma Qfloor_div_pos q (n : positive) :
  Qfloor (q / inject_Z (Zpos n)) = (Qfloor q / Zpos n)%Z.
Proof.
  destruct q as [a b]. unfold Qdiv, Qinv, Qmult, Qfloor, inject_Z.
  cbn [Qnum Qden]. rewrite Z.mul_1_r, Pos2Z.inj_mul, Z.div_div by lia.
  reflexivity.
Qed.

Lemma Qfloor_minus_Z q z : Qfloor (q - inject_Z z) = (Qfloor q - z)%Z.
Proof.
  destruct q as [a b]. unfold Qminus, Qplus, Qopp, Qfloor, inject_Z.
  cbn [Qnum Qden]. rewrite Pos.mul_1_r, Z.mul_1_r.
  replace (a + - z * Zpos b)%Z with (a + (- z) * Zpos b)%Z by lia.
  rewrite Z.div_add by lia. lia.
Qed.

Lemma Qtruncate_nonneg q : 0 <= q -> Qtruncate q = Qfloor q.
Proof.
  intros H. unfold Qtruncate. apply Qle_bool_iff in H. rewrite H.
  reflexivity.
Qed.

Lemma Qfloor_nonneg q : 0 <= q -> (0 <= Qfloor q)%Z.
Proof. intros H. exact (Qfloor_resp_le 0 q H). Qed.

Lemma js_rem_nonneg a (n : positive) :
  0 <= a ->
  js_rem a (inject_Z (Zpos n))
  == a - inject_Z (Zpos n * (Qfloor a / Zpos n))%Z.
Proof.
  intros H. unfold js_rem. rewrite Qtruncate_nonneg.
  - rewrite Qfloor_div_pos, inject_Z_mult. reflexivity.
  - apply Qle_shift_div_l; [reflexivity|]. rewrite Qmult_0_l. exact H.
Qed.

(** X13. [formatDuration] of a duration that is not negative prints
    hours, minutes below 60 and seconds below 60 that add up to the whole
    seconds of the duration. *)
Theorem duration_parts_add_up sec :
  0 <= sec ->
  let '(h, m, s) := duration_parts sec in
  (0 <= h /\ 0 <= m < 60 /\ 0 <= s < 60
   /\ 3600 * h + 60 * m + s = Qfloor sec)%Z.
Proof.
  intros H. unfold duration_parts.
  pose proof (Qfloor_nonneg sec H) as HF.
  change (3600 : Q) with (inject_Z (Zpos 3600)).
  change (60 : Q) with (inject_Z (Zpos 60)).
  rewrite !Qfloor_div_pos.
  rewrite (Qfloor_comp _ _ (js_rem_nonneg sec 3600 H)).
  rewrite (Qfloor_comp _ _ (js_rem_nonneg sec 60 H)).
  rewrite !Qfloor_minus_Z.
  set (F := Qfloor sec) in *. clearbody F.
  Z.div_mod_to_equations. lia.
Qed.

(** X14. [formatDecimalHours] of a time that is not negative prints the
    whole hours and the fraction of the hour rounded to a minute, which
    is between 0 and 60: it prints 60 minutes, without carrying them into
    the hour, exactly when the fraction is at least 119/120 of an hour. *)
Theorem decimal_hours_minutes time :
  0 <= time ->
  let '(hour, minutes) := decimal_hours_parts time in
  hour = Qfloor time
  /\ (0 <= minutes <= 60)%Z
  /\ (minutes = 60%Z <-> Qmake 119 120 <= time - inject_Z (Qfloor time)).
Proof.
  intros H. unfold decimal_hours_parts, Math_round.
  assert (Hrem : js_rem time 1 == time - inject_Z (Qfloor time)).
  { unfold js_rem. rewrite Qtruncate_nonneg.
    - change (1 : Q) with (inject_Z (Zpos 1)).
      rewrite Qfloor_div_pos, Z.div_1_r. change (inject_Z 1) with (1 : Q).
      ring.
    - apply Qle_shift_div_l; [reflexivity|]. rewrite Qmult_0_l. exact H. }
  rewrite (Qfloor_comp _ _ (Qplus_comp _ _ (Qmult_comp _ _ Hrem _ _
                                               (Qeq_refl 60)) _ _
                                            (Qeq_refl (Qmake 1 2)))).
  pose proof (Qfloor_le time) as Hlo. pose proof (Qlt_floor time) as Hhi.
  rewrite inject_Z_plus in Hhi. change (inject_Z 1) with (Qmake 1 1) in Hhi.
  set (f := time - inject_Z (Qfloor time)) in *.
  assert (Hf0 : 0 <= f) by (unfold f; lra).
  assert (Hf1 : f < 1) by (unfold f; lra).
  set (x := f * 60 + Qmake 1 2).
  pose proof (Qfloor_le x) as Hxlo. pose proof (Qlt_floor x) as Hxhi.
  rewrite inject_Z_plus in Hxhi. change (inject_Z 1) with (Qmake 1 1) in Hxhi.
  assert (Hx0 : (0 <= Qfloor x)%Z).
  { apply Qfloor_nonneg. unfold x. lra. }
  assert (Hx60 : (Qfloor x <= 60)%Z).
  { assert (Hlt : inject_Z (Qfloor x) < inject_Z 61).
    { change (inject_Z 61) with (Qmake 61 1). unfold x in *. lra. }
    rewrite <- Zlt_Qlt in Hlt. lia. }
  split; [reflexivity|]. split; [lia|]. split.
  - intros E. rewrite E in Hxlo. change (inject_Z 60) with (Qmake 60 1) in Hxlo.
    unfold x in Hxlo. lra.
  - intros Hge.
    assert (Hle : inject_Z 60 <= x).
    { change (inject_Z 60) with (Qmake 60 1). unfold x. lra. }
    apply Qfloor_resp_le in Hle. rewrite Qfloor_Z in Hle. lia.
Qed.
End Durations.

(** ** The time of day of a block *)

Section TimeOfDay.
Variable LocalTZA : Z -> bool -> Z.

Lemma getTimeFractional_minutes tv :
  (getTimeFractional LocalTZA tv
   == Qmake (Date.TimeWithinDay (Date.LocalTime LocalTZA tv) / 60000) 60)%Q.
Proof.
  unfold getTimeFractional, getHours, getMinutes, HourFromTime, MinFromTime,
    Date.TimeWithinDay, Date.msPerDay.
  set (t := Date.LocalTime LocalTZA tv).
  unfold Qeq, Qplus, inject_Z. cbn [Qnum Qden].
  Z.div_mod_to_equations. lia.
Qed.

Lemma getTimeFractional_range tv :
  (0 <= getTimeFractional LocalTZA tv)%Q
  /\ (getTimeFractional LocalTZA tv < 24)%Q.
Proof.
  pose proof (TimeWithinDay_range (Date.LocalTime LocalTZA tv)) as Ha.
  unfold Date.msPerDay in Ha. rewrite getTimeFractional_minutes. split.
  - unfold Qle. cbn [Qnum Qden]. Z.div_mod_to_equations. lia.
  - unfold Qlt. cbn [Qnum Qden]. Z.div_mod_to_equations. lia.
Qed.

Lemma hour_and_minute tv :
  0 <= getHours LocalTZA tv < 24
  /\ 0 <= getMinutes LocalTZA tv < 60
  /\ 60 * getHours LocalTZA tv + getMinutes LocalTZA tv
     = Date.TimeWithinDay (Date.LocalTime LocalTZA tv) / 60000.
Proof.
  unfold getHours, getMinutes, HourFromTime, MinFromTime,
    Date.TimeWithinDay, Date.msPerDay.
  set (t := Date.LocalTime LocalTZA tv).
  Z.div_mod_to_equations. lia.
Qed.

(** X15. The hour and the minute read from a date make up the whole
    minutes since local midnight, 60 * hour + minute, with the hour in
    0 .. 23 and the minute in 0 .. 59.  The time of day computed from
    them is at least 0 and below 24; of two instants of one local day the
    later one, in local time, does not get the smaller value; and two
    instants get the same value exactly when they lie in the same minute
    of their days. *)
Theorem getTimeFractional_is_time_of_day a b :
  (0 <= getHours LocalTZA a < 24
   /\ 0 <= getMinutes LocalTZA a < 60
   /\ 60 * getHours LocalTZA a + getMinutes LocalTZA a
      = Date.TimeWithinDay (Date.LocalTime LocalTZA a) / 60000)
  /\ (0 <= getTimeFractional LocalTZA a)%Q
  /\ (getTimeFractional LocalTZA a < 24)%Q
  /\ (Date.local_day LocalTZA a = Date.local_day LocalTZA b ->
      Date.LocalTime LocalTZA a <= Date.LocalTime LocalTZA b ->
      (getTimeFractional LocalTZA a <= getTimeFractional LocalTZA b)%Q)
  /\ ((getTimeFractional LocalTZA a == getTimeFractional LocalTZA b)%Q
      <-> Date.TimeWithinDay (Date.LocalTime LocalTZA a) / 60000
          = Date.TimeWithinDay (Date.LocalTime LocalTZA b) / 60000).
Proof.
  split; [apply hour_and_minute|].
  pose proof (TimeWithinDay_range (Date.LocalTime LocalTZA a)) as Ha.
  unfold Date.msPerDay in Ha.
  split; [|split; [|split]].
  - rewrite getTimeFractional_minutes. unfold Qle. cbn [Qnum Qden].
    Z.div_mod_to_equations. lia.
  - rewrite getTimeFractional_minutes. unfold Qlt. cbn [Qnum Qden].
    Z.div_mod_to_equations. lia.
  - intros Hday Hle. rewrite !getTimeFractional_minutes.
    unfold Date.local_day, Date.Day, Date.TimeWithinDay, Date.msPerDay in *.
    set (x := Date.LocalTime LocalTZA a) in *.
    set (y := Date.LocalTime LocalTZA b) in *.
    unfold Qle. cbn [Qnum Qden].
    Z.div_mod_to_equations. lia.
  - rewrite !getTimeFractional_minutes. unfold Qeq. cbn [Qnum Qden]. lia.
Qed.
End TimeOfDay.

(** ** The week that is shown *)

Lemma later_week_greatest others : forall first,
  In (fold_left later_week others first) (first :: others)
  /\ Forall (fun w => weekStart w <= weekStart (fold_left later_week others first))
            (first :: others).
Proof.
  induction others as [|w others IH]; intros first.
  - cbn. split; [left; reflexivity|]. repeat constructor. lia.
  - cbn [fold_left]. destruct (IH (later_week first w)) as [Hin Hall].
    inversion Hall as [|? ? Hhd Htl]; subst.
    unfold later_week in *.
    destruct (weekStart first <? weekStart w) eqn:E.
    + apply Z.ltb_lt in E. split.
      * right. exact Hin.
      * constructor; [lia|]. constructor; assumption.
    + apply Z.ltb_ge in E. split.
      * destruct Hin as [Hin | Hin]; [left; exact Hin|right; right; exact Hin].
      * constructor; [exact Hhd|]. constructor; [lia|exact Htl].
Qed.

Lemma same_key_same_element {A} (key : A -> Z) l a b :
  NoDup (map key l) -> In a l -> In b l -> key a = key b -> a = b.
Proof.
  induction l as [|x l IH]; cbn [map]; intros Hnd Ha Hb Hk; [contradiction|].
  inversion Hnd as [|? ? Hx Hl]; subst.
  destruct Ha as [-> | Ha], Hb as [-> | Hb].
  - reflexivity.
  - exfalso. apply Hx. rewrite Hk. apply in_map, Hb.
  - exfalso. apply Hx. rewrite <- Hk. apply in_map, Ha.
  - apply IH; assumption.
Qed.

Lemma find_by_key {A} (key : A -> Z) l a :
  NoDup (map key l) -> In a l ->
  find (fun x => key x =? key a) l = Some a.
Proof.
  induction l as [|x l IH]; cbn [map find]; intros Hnd Ha; [contradiction|].
  inversion Hnd as [|? ? Hx Hl]; subst.
  destruct (key x =? key a) eqn:E.
  - apply Z.eqb_eq in E. f_equal.
    apply (same_key_same_element key (x :: l)); auto. left. reflexivity.
  - destruct Ha as [-> | Ha]; [rewrite Z.eqb_refl in E; discriminate|].
    apply IH; assumption.
Qed.

Lemma sorted_last_greatest {A} (key : A -> Z) l : forall x,
  Sorted (key_le key) (x :: l) ->
  Forall (fun y => key y <= key (last l x)) (x :: l).
Proof.
  induction l as [|y l IH]; intros x H.
  - repeat constructor. cbn. lia.
  - inversion H as [|? ? Hs Hhd]; subst. inversion Hhd; subst.
    specialize (IH y Hs). rewrite last_cons.
    inversion IH; subst. constructor; [|exact IH].
    unfold key_le in *. lia.
Qed.

Lemma last_in {A} (l : list A) x : In (last l x) (x :: l).
Proof.
  revert x; induction l as [|y l IH]; intros x; [left; reflexivity|].
  rewrite last_cons. right. apply IH.
Qed.

Section WeekShown.
Variable LocalTZA : Z -> bool -> Z.

Lemma weeks_starts_nodup bs :
  NoDup (map weekStart (groupBlocksByWeek LocalTZA bs)).
Proof.
  eapply Permutation_NoDup; [|apply group_by_week_starts_nodup].
  apply Permutation_map. symmetry. apply weeks_perm.
Qed.

Lemma weeks_of_blocks_nonempty b bs :
  groupBlocksByWeek LocalTZA (b :: bs) <> [].
Proof.
  intros Hnil.
  destruct (group_by_day_spec LocalTZA (b :: bs)) as (_ & Hbs & _).
  destruct (group_by_week_spec LocalTZA (group_by_day LocalTZA (b :: bs)))
    as (_ & Hds & _).
  destruct (Hbs b (or_introl eq_refl)) as (dd & Hdd & _).
  destruct (Hds dd Hdd) as (w & Hw & _).
  apply (Permutation_in _ (Permutation_sym (weeks_perm LocalTZA (b :: bs))))
    in Hw.
  rewrite Hnil in Hw. exact Hw.
Qed.

(** The week that [updateAggregation] selects among sorted weeks. *)
Lemma latest_of_sorted ws first :
  Sorted (key_le weekStart) (first :: ws) ->
  NoDup (map weekStart (first :: ws)) ->
  fold_left later_week ws first = last ws first.
Proof.
  intros Hs Hnd.
  destruct (later_week_greatest ws first) as [Hin Hall].
  pose proof (sorted_last_greatest weekStart ws first Hs) as Hlast.
  pose proof (last_in ws first) as Hlin.
  apply (same_key_same_element weekStart (first :: ws)); auto.
  rewrite Forall_forall in Hall, Hlast.
  specialize (Hall _ Hlin). specialize (Hlast _ Hin). lia.
Qed.

Variable parseDate : string -> option Z.
Variable Number : string -> JS.value.

(** X16. When a file is dropped, the view shows the weeks of its records
    and selects the latest one: the selected week is the last of the
    weeks and none starts later.  When the file holds no valid record,
    there is no week and none is selected, while the key of the earlier
    selection is kept. *)
Theorem drop_selects_the_latest_week v text :
  let v' := handleDrop LocalTZA parseDate Number v text in
  (parseCsv parseDate Number text = [] ->
     weeks v' = [] /\ selectedWeek v' = None
     /\ selectedWeekStart v' = selectedWeekStart v)
  /\ (parseCsv parseDate Number text <> [] ->
      exists week,
        selectedWeek v' = Some week
        /\ In week (weeks v')
        /\ last (weeks v') week = week
        /\ Forall (fun w => weekStart w <= weekStart week) (weeks v')).
Proof.
  cbn zeta. unfold handleDrop, updateAggregation, selectedWeek.
  cbn [idleThreshold parsedEntries weeks selectedWeekStart].
  split.
  - intros ->. cbn. split; [reflexivity|]. split; [|reflexivity].
    destruct (selectedWeekStart v); reflexivity.
  - intros Hne.
    set (entries := parseCsv parseDate Number text) in *.
    set (bs := aggregateToBlocks entries (idleThreshold v)).
    assert (Hbs : bs <> []).
    { destruct entries as [|e es]; [contradiction|].
      intros Hnil. pose proof (aggregate_length e es (idleThreshold v)) as Hl.
      fold bs in Hl. rewrite Hnil in Hl. discriminate Hl. }
    destruct bs as [|b bs'] eqn:Ebs; [contradiction|].
    pose proof (weeks_of_blocks_nonempty b bs') as Hws.
    pose proof (weeks_starts_nodup (b :: bs')) as Hnd.
    pose proof (sort_by_sorted weekStart
                  (group_by_week LocalTZA (group_by_day LocalTZA (b :: bs'))))
      as Hs.
    fold (groupBlocksByWeek LocalTZA (b :: bs')) in Hs.
    destruct (groupBlocksByWeek LocalTZA (b :: bs')) as [|w ws];
      [contradiction|].
    cbn [latestWeek]. rewrite (latest_of_sorted ws w Hs Hnd).
    exists (last ws w). split; [|split; [|split]].
    + apply find_by_key; [exact Hnd|apply last_in].
    + apply last_in.
    + destruct ws as [|w' ws']; [reflexivity|].
      rewrite !last_cons. clear. revert w'.
      induction ws' as [|y ws' IH]; intros w'; [reflexivity|].
      rewrite !last_cons. apply IH.
    + apply sorted_last_greatest. exact Hs.
Qed.
End WeekShown.

(** ** The column of a day *)

Section Columns.
Variable LocalTZA : Z -> bool -> Z.
Hypothesis zone_day :
  forall x, Date.Day (Date.LocalTime LocalTZA (Date.UTC LocalTZA x))
            = Date.Day x.

Lemma weekday_index_offset bs w d :
  In w (groupBlocksByWeek LocalTZA bs) -> In d (days w) ->
  weekday_index LocalTZA d
  = Date.local_day LocalTZA (date d) - Date.local_day LocalTZA (weekStart w)
  /\ 0 <= weekday_index LocalTZA d <= 6.
Proof.
  intros Hw Hd.
  destruct (week_start_of_day LocalTZA bs w d Hw Hd) as [_ Hmon].
  rewrite Hmon, (getMonday_week LocalTZA zone_day).
  rewrite local_day_midnight by exact zone_day.
  unfold weekday_index, Date.getDay, Date.WeekDay, monday_of_week, week_number.
  change (Date.Day (Date.LocalTime LocalTZA (date d)))
    with (Date.local_day LocalTZA (date d)).
  set (D := Date.local_day LocalTZA (date d)).
  rewrite Z.rem_mod_nonneg by (Z.div_mod_to_equations; lia).
  Z.div_mod_to_equations. lia.
Qed.

(** X17. In the timetable a day of a week is put in the column whose
    index is the number of days from the week's Monday to the day, from 0
    to 6, so that the column has a name; two different days of one week
    are never put in the same column. *)
Theorem day_column_is_offset_from_monday bs w d :
  In w (groupBlocksByWeek LocalTZA bs) -> In d (days w) ->
  weekday_index LocalTZA d
  = Date.local_day LocalTZA (date d) - Date.local_day LocalTZA (weekStart w)
  /\ 0 <= weekday_index LocalTZA d <= 6
  /\ (exists name,
        nth_error weekdays (Z.to_nat (weekday_index LocalTZA d)) = Some name)
  /\ (forall d', In d' (days w) ->
        weekday_index LocalTZA d' = weekday_index LocalTZA d -> d' = d).
Proof.
  intros Hw Hd.
  destruct (weekday_index_offset bs w d Hw Hd) as [Hoff Hrange].
  split; [exact Hoff|]. split; [exact Hrange|]. split.
  - destruct (nth_error weekdays (Z.to_nat (weekday_index LocalTZA d)))
      as [name|] eqn:E; [exists name; reflexivity|].
    apply nth_error_None in E. cbn [weekdays List.length] in E. lia.
  - intros d' Hd' Hsame.
    destruct (weekday_index_offset bs w d' Hw Hd') as [Hoff' _].
    destruct (week_start_of_day LocalTZA bs w d Hw Hd) as [Hin _].
    destruct (week_start_of_day LocalTZA bs w d' Hw Hd') as [Hin' _].
    apply (same_key_same_element date (group_by_day LocalTZA bs)); auto.
    + apply group_by_day_dates_nodup.
    + rewrite (day_date_midnight LocalTZA zone_day bs d Hin).
      rewrite (day_date_midnight LocalTZA zone_day bs d' Hin').
      f_equal. lia.
Qed.
End Columns.

(** ** The entries of the timetable chart *)

Section ChartData.
Variable LocalTZA : Z -> bool -> Z.
Hypothesis zone_day :
  forall x, Date.Day (Date.LocalTime LocalTZA (Date.UTC LocalTZA x))
            = Date.Day x.

Lemma chart_entries_of_days bs week ds :
  In week (groupBlocksByWeek LocalTZA bs) ->
  Forall (fun d => In d (days week)) ds ->
  let entries :=
    flat_map
      (fun d =>
         map (fun b =>
                {| entry_day :=
                     nth_error weekdays
                               (Z.to_nat (weekday_index LocalTZA d));
                   entry_label := "work";
                   entry_start := getTimeFractional LocalTZA (from b);
                   entry_end := getTimeFractional LocalTZA (to b) |})
             (blocks d))
      ds in
  List.length entries = List.length (flat_map blocks ds)
  /\ map (fun entry => (entry_start entry, entry_end entry)) entries
     = map (fun b => (getTimeFractional LocalTZA (from b),
                      getTimeFractional LocalTZA (to b)))
           (flat_map blocks ds)
  /\ Forall (fun entry =>
               (exists name, entry_day entry = Some name /\ In name weekdays)
               /\ entry_label entry = "work"
               /\ (0 <= entry_start entry)%Q /\ (entry_start entry < 24)%Q
               /\ (0 <= entry_end entry)%Q /\ (entry_end entry < 24)%Q)
            entries.
Proof.
  intros Hw Hds. cbn zeta.
  induction Hds as [|d ds Hd Hrest IH].
  - cbn. repeat split; constructor.
  - destruct IH as (IH1 & IH2 & IH3).
    cbn [flat_map]. rewrite !length_app, !map_app, length_map, IH1, IH2.
    split; [reflexivity|]. split.
    + f_equal. rewrite map_map. reflexivity.
    + apply Forall_app. split; [|exact IH3].
      apply Forall_map. apply Forall_forall. intros b _.
      cbn [entry_day entry_label entry_start entry_end].
      destruct (weekday_index_offset LocalTZA zone_day bs week d Hw Hd)
        as [_ Hrange].
      split.
      * destruct (nth_error weekdays
                    (Z.to_nat (weekday_index LocalTZA d))) as [name|] eqn:E.
        -- exists name. split; [reflexivity|].
           eapply nth_error_In. exact E.
        -- apply nth_error_None in E. cbn [weekdays List.length] in E. lia.
      * split; [reflexivity|].
        pose proof (getTimeFractional_range LocalTZA (from b)).
        pose proof (getTimeFractional_range LocalTZA (to b)). tauto.
Qed.

(** X18. The chart of a week returned by the grouper has one entry for
    each block of each day of the week, in order; every entry is labelled
    "work", is in a column with one of the seven weekday names, and starts
    and ends at a time of day from 0 up to, but not including, 24.
    Without a selected week the chart has no entry. *)
Theorem chart_has_one_entry_per_block bs week :
  In week (groupBlocksByWeek LocalTZA bs) ->
  timeTableChartData LocalTZA None = []
  /\ List.length (timeTableChartData LocalTZA (Some week))
     = List.length (flat_map blocks (days week))
  /\ map (fun entry => (entry_start entry, entry_end entry))
         (timeTableChartData LocalTZA (Some week))
     = map (fun b => (getTimeFractional LocalTZA (from b),
                      getTimeFractional LocalTZA (to b)))
           (flat_map blocks (days week))
  /\ Forall (fun entry =>
               (exists name, entry_day entry = Some name /\ In name weekdays)
               /\ entry_label entry = "work"
               /\ (0 <= entry_start entry)%Q /\ (entry_start entry < 24)%Q
               /\ (0 <= entry_end entry)%Q /\ (entry_end entry < 24)%Q)
            (timeTableChartData LocalTZA (Some week)).
Proof.
  intros Hw. split; [reflexivity|].
  apply (chart_entries_of_days bs week (days week) Hw).
  apply Forall_forall. auto.
Qed.
End ChartData.

(** ** From the text to the days *)

Lemma StronglySorted_filter {A} (R : A -> A -> Prop) (p : A -> bool) l :
  StronglySorted R l -> StronglySorted R (filter p l).
Proof.
  induction 1 as [|x l Hs IH Hx]; cbn [filter]; [constructor|].
  destruct (p x); [|exact IH]. constructor; [exact IH|].
  rewrite Forall_forall in *. intros y Hy. apply filter_In in Hy.
  apply Hx, Hy.
Qed.

Section Pipeline.
Variable LocalTZA : Z -> bool -> Z.
Variable parseDate : string -> option Z.
Variable Number : string -> JS.value.

(** X19. Whatever the text, the order in which the parser returns the
    records is the one the aggregator needs: for a threshold that is not
    negative the blocks computed from the parsed records are in
    chronological order and disjoint, each ending no earlier than it
    starts, and so are the blocks inside every day of every week the
    grouper makes of them. *)
Theorem parsed_text_gives_ordered_blocks text threshold :
  (0 <= threshold)%Q ->
  let bs := aggregateToBlocks (parseCsv parseDate Number text) threshold in
  StronglySorted (fun b1 b2 => to b1 < from b2) bs
  /\ Forall (fun b => from b <= to b) bs
  /\ (forall week d,
        In week (groupBlocksByWeek LocalTZA bs) -> In d (days week) ->
        StronglySorted (fun b1 b2 => to b1 < from b2) (blocks d)
        /\ Forall (fun b => from b <= to b) (blocks d)).
Proof.
  intros H0 bs.
  assert (Hc : chronological (parseCsv parseDate Number text))
    by exact (sort_by_sorted timestamp _).
  destruct (aggregate_disjoint _ threshold H0 Hc) as [Hss Hft].
  fold bs in Hss, Hft. split; [exact Hss|]. split; [exact Hft|].
  intros week d Hw Hd.
  destruct (week_start_of_day LocalTZA bs week d Hw Hd) as [Hin _].
  destruct (group_by_day_spec LocalTZA bs) as (Hds & _ & _).
  destruct (Hds d Hin) as (k & _ & Hmem & _). rewrite Hmem. split.
  - apply StronglySorted_filter, Hss.
  - apply Forall_forall. intros b Hb. apply filter_In in Hb.
    rewrite Forall_forall in Hft. apply Hft, Hb.
Qed.
End Pipeline.

(* ====================================================================== *)
(** * The further theorems at concrete inputs                              *)
(* ====================================================================== *)

Lemma block_count_witness :
  (List.length
     (aggregateToBlocks
        [entry_at 0 "a"; entry_at 100000 "a"; entry_at 500000 "b"]
        (Qmake 600 1))
   <= List.length
        (aggregateToBlocks
           [entry_at 0 "a"; entry_at 100000 "a"; entry_at 500000 "b"] 300))%nat.
Proof.
  refine (proj2 (proj2 (block_count
            [entry_at 0 "a"; entry_at 100000 "a"; entry_at 500000 "b"] 300))
            (Qmake 600 1) _).
  unfold Qle; simpl; lia.
Defined.

Lemma every_record_in_exactly_one_block_witness :
  exists before blk after,
    aggregateToBlocks
      [entry_at 0 "a"; entry_at 100000 "a"; entry_at 500000 "b"] 300
    = before ++ blk :: after
    /\ from blk <= 100000 <= to blk
    /\ Forall (fun b => to b < 100000) before
    /\ Forall (fun b => 100000 < from b) after.
Proof.
  refine (every_record_in_exactly_one_block
            [entry_at 0 "a"; entry_at 100000 "a"; entry_at 500000 "b"] 300
            (entry_at 100000 "a") _ _ _).
  - unfold Qle; simpl; lia.
  - repeat constructor; simpl; lia.
  - right. left. reflexivity.
Defined.

Lemma block_durations_are_nonnegative_witness :
  Forall (fun a => nonneg_number (durationSec a))
    (activities
       (make_block 0 100000
          (accumulate JS.empty "a" (Qmake 100000 1000)))).
Proof.
  refine (proj2 (block_durations_are_nonnegative
            [entry_at 0 "a"; entry_at 100000 "a"; entry_at 500000 "b"] 300
            (make_block 0 100000
               (accumulate JS.empty "a" (Qmake 100000 1000))) _ _ _)).
  - repeat constructor; simpl; lia.
  - repeat constructor.
  - left. reflexivity.
Defined.

Lemma aggregate_reads_time_and_title_witness :
  aggregateToBlocks
    [ {| timestamp := 0; appName := "Editor"; title := "a";
         value1 := JS.Num 1; value2 := JS.Num 2 |};
      {| timestamp := 1000; appName := "Editor"; title := "b";
         value1 := JS.Num 3; value2 := JS.NaN |} ] 300
  = aggregateToBlocks [entry_at 0 "a"; entry_at 1000 "b"] 300.
Proof.
  refine (aggregate_reads_time_and_title _ _ 300 _). reflexivity.
Defined.

Lemma first_sample_week_in :
  In first_sample_week (groupBlocksByWeek one_hour_east sample_blocks).
Proof. vm_compute. left. reflexivity. Defined.

Lemma first_sample_day_in : In first_sample_day (days first_sample_week).
Proof. vm_compute. left. reflexivity. Defined.

Lemma week_holds_its_days_witness :
  days first_sample_week <> []
  /\ week_totalDurationSec first_sample_week
     = js_sum (map day_totalDurationSec (days first_sample_week)).
Proof.
  exact (proj2 (week_holds_its_days one_hour_east sample_blocks
                  first_sample_week first_sample_week_in)).
Defined.

Lemma no_more_weeks_than_days_than_blocks_witness :
  groupBlocksByWeek one_hour_east sample_blocks <> [].
Proof.
  refine (proj2 (proj2 (proj2
            (no_more_weeks_than_days_than_blocks one_hour_east
               sample_blocks))) _).
  discriminate.
Defined.

Lemma totals_are_nonnegative_numbers_witness :
  nonneg_number (week_totalDurationSec first_sample_week).
Proof.
  refine (proj1 (totals_are_nonnegative_numbers one_hour_east sample_blocks
                   first_sample_week _ first_sample_week_in)).
  repeat constructor; eexists; (split; [reflexivity|]);
    unfold Qle; simpl; lia.
Defined.

Lemma getMonday_same_week_witness :
  getMonday one_hour_east (getMonday one_hour_east (on_day 6 (hours 9)))
  = getMonday one_hour_east (on_day 6 (hours 9)).
Proof.
  exact (proj1 (proj2 (getMonday_same_week one_hour_east
                         one_hour_east_zone_day
                         (on_day 6 (hours 9)) (on_day 0 0)))).
Defined.

Lemma line_endings_do_not_matter_witness :
  parseCsv sample_parseDate sample_Number
    (String.concat carriage_return_line_feed
       ["t1,App,Read,1"; "t0,App,Write"])
  = parseCsv sample_parseDate sample_Number
      (String.concat line_feed ["t1,App,Read,1"; "t0,App,Write"]).
Proof.
  refine (proj2 (proj2 (line_endings_do_not_matter sample_parseDate
                          sample_Number
                          ["t1,App,Read,1"; "t0,App,Write"] _ _))).
  - repeat constructor.
  - discriminate.
Defined.

Lemma row_gives_record_witness :
  parse_line sample_parseDate sample_Number
    (String.concat "," [" t1 "; " App"; "Read mail "; "1"; "x"; "more"])
  = Some {| timestamp := 1000; appName := "App"; title := "Read mail";
            value1 := JS.Num 1; value2 := JS.NaN |}.
Proof.
  refine (row_gives_record sample_parseDate sample_Number
            " t1 " " App" "Read mail " ["1"; "x"; "more"] _).
  repeat constructor.
Defined.

Lemma records_come_from_lines_witness :
  no_comma (title (entry_at 1000 "Read")) = true
  /\ trim (title (entry_at 1000 "Read")) = title (entry_at 1000 "Read").
Proof.
  assert (Hin : In (entry_at 1000 "Read")
                   (parseCsv sample_parseDate sample_Number
                      "t1,App,Read, with, commas")).
  { left. reflexivity. }
  pose proof (records_come_from_lines sample_parseDate sample_Number
                "t1,App,Read, with, commas" (entry_at 1000 "Read") Hin) as H.
  split; [exact (proj1 (proj2 (proj2 H)))|exact (proj2 (proj2 (proj2 (proj2 H))))].
Defined.

Lemma line_order_does_not_matter_witness :
  parseCsv sample_parseDate sample_Number
    (String.concat line_feed ["t1,App,Read"; "t0,App,Write"])
  = parseCsv sample_parseDate sample_Number
      (String.concat line_feed ["t0,App,Write"; "t1,App,Read"]).
Proof.
  refine (line_order_does_not_matter sample_parseDate sample_Number _ _ _ _).
  - vm_compute. apply perm_swap.
  - vm_compute. repeat constructor; simpl; intuition discriminate.
Defined.

Lemma duration_parts_add_up_witness :
  let '(h, m, s) := duration_parts (Qmake 7451 2) in
  (0 <= h /\ 0 <= m < 60 /\ 0 <= s < 60
   /\ 3600 * h + 60 * m + s = Qfloor (Qmake 7451 2))%Z.
Proof.
  refine (duration_parts_add_up (Qmake 7451 2) _).
  unfold Qle; simpl; lia.
Defined.

Lemma decimal_hours_minutes_witness :
  let '(hour, minutes) := decimal_hours_parts (Qmake 239 120) in
  hour = Qfloor (Qmake 239 120)
  /\ (0 <= minutes <= 60)%Z
  /\ (minutes = 60%Z
      <-> (Qmake 119 120
           <= Qmake 239 120 - inject_Z (Qfloor (Qmake 239 120)))%Q).
Proof.
  refine (decimal_hours_minutes (Qmake 239 120) _).
  unfold Qle; simpl; lia.
Defined.

Lemma getTimeFractional_is_time_of_day_witness :
  (getTimeFractional one_hour_east (on_day 0 (hours 9))
   <= getTimeFractional one_hour_east (on_day 0 (hours 23)))%Q.
Proof.
  refine (proj1 (proj2 (proj2 (proj2
            (getTimeFractional_is_time_of_day one_hour_east
               (on_day 0 (hours 9)) (on_day 0 (hours 23)))))) _ _).
  - reflexivity.
  - vm_compute. discriminate.
Defined.

Lemma drop_selects_the_latest_week_witness :
  exists week,
    selectedWeek
      (handleDrop one_hour_east sample_parseDate sample_Number empty_view
         "t1,App,Read")
    = Some week.
Proof.
  destruct (proj2 (drop_selects_the_latest_week one_hour_east
                     sample_parseDate sample_Number empty_view "t1,App,Read"))
    as (week & H & _).
  - discriminate.
  - exists week. exact H.
Defined.

Lemma day_column_is_offset_from_monday_witness :
  0 <= weekday_index one_hour_east first_sample_day <= 6.
Proof.
  exact (proj1 (proj2 (day_column_is_offset_from_monday one_hour_east
                         one_hour_east_zone_day sample_blocks
                         first_sample_week first_sample_day
                         first_sample_week_in first_sample_day_in))).
Defined.

Lemma chart_has_one_entry_per_block_witness :
  List.length (timeTableChartData one_hour_east (Some first_sample_week))
  = List.length (flat_map blocks (days first_sample_week)).
Proof.
  exact (proj1 (proj2 (chart_has_one_entry_per_block one_hour_east
                         one_hour_east_zone_day sample_blocks
                         first_sample_week first_sample_week_in))).
Defined.

Lemma parsed_text_gives_ordered_blocks_witness :
  StronglySorted (fun b1 b2 => to b1 < from b2)
    (aggregateToBlocks
       (parseCsv sample_parseDate sample_Number
          (String.concat line_feed ["t2,App,Read"; "t0,App,Write"]))
       (Qmake 1 2)).
Proof.
  refine (proj1 (parsed_text_gives_ordered_blocks one_hour_east
                   sample_parseDate sample_Number
                   (String.concat line_feed ["t2,App,Read"; "t0,App,Write"])
                   (Qmake 1 2) _)).
  unfold Qle; simpl; lia.
Defined.

(** ** Evaluations of the views *)

(** The block from Monday 23:00 to Tuesday 01:00 is drawn in Monday's
    column from 23 to 1. *)
Example sample_chart :
  map (fun entry => (entry_day entry, entry_start entry, entry_end entry))
      (timeTableChartData one_hour_east (Some first_sample_week))
  = [ (Some "Monday", 9 + Qmake 0 60, 10 + Qmake 0 60);
      (Some "Monday", 23 + Qmake 0 60, 1 + Qmake 0 60);
      (Some "Monday", 14 + Qmake 0 60, 15 + Qmake 0 60);
      (Some "Sunday", 9 + Qmake 0 60, 12 + Qmake 0 60) ]%Q.
Proof. reflexivity. Qed.

(** 7185 seconds are 1 h 59 min 45 s: [formatDuration] prints 1, 59 and
    45, [formatSeconds] prints the hour 1 and 60 minutes. *)
Example sample_durations :
  duration_parts 7185 = (1, 59, 45)
  /\ decimal_hours_parts (7185 / 3600) = (1, 60).
Proof. split; reflexivity. Qed.
